(** * FPL Team Selector: expected points, squad and lineup selection

    A shallow embedding of [FPL Team Selector/test3.py] (the optimizer with
    transfers and chips) and of the points model, the squad problem and the
    lineup loop of its sibling script [FPL Team Selector/main.py].

    Modelling conventions.
    - Python floats are read as the rationals they denote ([Q]); [round(x, 2)]
      is rounding to the nearest hundredth, ties to even.  Integer feed fields
      ([id], [team], [element_type], [now_cost], [strength], difficulties) are
      [Z].
    - Dictionaries are [gmap]s; a raised exception is the [Raise] branch of
      [result].
    - PuLP is embedded as a small language of affine expressions and
      constraints with an evaluation under an assignment of the decision
      variables.  The CBC solver is an external collaborator: it is a
      parameter [solver] of the selectors, and the theorems state what they
      need from its answer (feasibility, optimality) as hypotheses.
    - Left out: the attributes that only feed the printed table ([fixtures],
      [chance], [form_val], [ppg_val], [ict_val]), the lines that the points
      model and the selectors write to the log, the formatting done by
      [print_output], and feed fields that are not numbers ([float] is taken
      to succeed, except on the null availability, which is modelled).  The
      two downloads of [fetch_data] are the [feed] of a run. *)

From stdpp Require Import base gmap.
From Stdlib Require Import String Bool List Sorted Permutation ZArith QArith Qround Lia Lqa.
Import ListNotations.

Local Open Scope Z_scope.

(** ** Exceptions *)

Inductive exn : Type :=
| KeyError
| ValueError
| ZeroDivisionError
| OSError
| JSONDecodeError
| IndexError
| URLError.

Inductive result (A : Type) : Type :=
| Ok (a : A)
| Raise (e : exn).

Arguments Ok {A} a.
Arguments Raise {A} e.

Definition bind {A B : Type} (r : result A) (k : A -> result B) : result B :=
  match r with
  | Ok a => k a
  | Raise e => Raise e
  end.

Notation "'let*' x ':=' r 'in' k" := (bind r (fun x => k))
  (at level 10, x pattern, r at level 100, k at level 200).

(** A [for] loop whose body may raise. *)
Fixpoint for_each {A S : Type} (body : S -> A -> result S) (l : list A) (s : S)
  : result S :=
  match l with
  | [] => Ok s
  | x :: l' => let* s' := body s x in for_each body l' s'
  end.

(** ** Feed records *)

Record player : Type := mkPlayer {
  pid : Z;                                      (* 'id' *)
  web_name : string;
  element_type : Z;
  team : Z;
  now_cost : Z;                                 (* tenths of a currency unit *)
  chance_of_playing_next_round : option Z;      (* None is JSON null *)
  form : Q;
  points_per_game : Q;
  ict_index : Q;
  expected_points : option Q                    (* set by the points model *)
}.

Record club : Type := mkClub {
  club_id : Z;                                  (* 'id' *)
  short_name : string;
  strength : Z
}.

Record fixture : Type := mkFixture {
  team_h : Z;
  team_a : Z;
  team_h_difficulty : Z;
  team_a_difficulty : Z
}.

(** An entry of [team_fixtures]: [{'opp_id', 'diff', 'home'}]. *)
Record team_fixture : Type := mkTeamFixture {
  opp_id : Z;
  diff : Z;
  home : bool
}.

(** ** Numbers *)

Definition Qsum (l : list Q) : Q := fold_right Qplus 0%Q l.

(** [round(x, 0)] to an integer, ties to even. *)
Definition round_half_even (x : Q) : Z :=
  let f := Qfloor x in
  match ((x - inject_Z f) ?= (1 # 2))%Q with
  | Lt => f
  | Gt => f + 1
  | Eq => if Z.even f then f else f + 1
  end.

(** [round(x, 2)]. *)
Definition round2 (x : Q) : Q := (round_half_even (x * 100) # 100)%Q.

(** ** calculate_team_fixtures *)

Definition append_fixture (k : Z) (tf : team_fixture)
    (m : gmap Z (list team_fixture)) : result (gmap Z (list team_fixture)) :=
  match m !! k with
  | Some l => Ok (<[k := l ++ [tf]]> m)
  | None => Raise KeyError
  end.

Definition calculate_team_fixtures (teams : list club) (fixtures : list fixture)
  : result (gmap Z (list team_fixture)) :=
  let team_fixtures :=
    fold_left (fun m t => <[club_id t := []]> m) teams (∅ : gmap Z (list team_fixture)) in
  for_each
    (fun m f =>
       let* m1 := append_fixture (team_h f)
                    (mkTeamFixture (team_a f) (team_h_difficulty f) true) m in
       append_fixture (team_a f)
                    (mkTeamFixture (team_h f) (team_a_difficulty f) false) m1)
    fixtures team_fixtures.

(** ** calculate_expected_points *)

Definition set_expected_points (p : player) (v : Q) : player :=
  mkPlayer (pid p) (web_name p) (element_type p) (team p) (now_cost p)
           (chance_of_playing_next_round p) (form p) (points_per_game p)
           (ict_index p) (Some v).

(** The inner loop over the fixtures of the player's club. *)
Definition fixture_points (avg_strength : Q) (team_strength : gmap Z Z)
    (base ict_boost : Q) (exp : Q) (fix_ : team_fixture) : result Q :=
  let opp_strength :=
    match team_strength !! opp_id fix_ with
    | Some s => inject_Z s
    | None => avg_strength
    end in
  if Qeq_bool opp_strength 0 then Raise ZeroDivisionError
  else
    let strength_factor := (avg_strength / opp_strength)%Q in
    let diff_factor := (inject_Z (6 - diff fix_) / 5)%Q in
    let home_bonus := if home fix_ then (12 # 10)%Q else (9 # 10)%Q in
    let fix_exp :=
      (base * diff_factor * home_bonus * strength_factor * (1 + ict_boost))%Q in
    Ok (exp + fix_exp)%Q.

Definition chance_factor_of (chance : option Z) : Q :=
  match chance with
  | Some c => (inject_Z c / 100)%Q
  | None => 1%Q                       (* float(None) raises TypeError: 1.0 *)
  end.

(** One iteration of the loop over [players]; the state is the dictionary
    built so far and the players already visited (updated in place). *)
Definition expected_points_step (avg_strength : Q) (team_strength : gmap Z Z)
    (team_fixtures : gmap Z (list team_fixture))
    (st : gmap Z Q * list player) (p : player) : result (gmap Z Q * list player) :=
  let '(expected, visited) := st in
  let fixes := default [] (team_fixtures !! team p) in
  match fixes with
  | [] => Ok (expected, visited ++ [p])
  | _ :: _ =>
    let chance := chance_of_playing_next_round p in
    if match chance with Some c => c =? 0 | None => false end
    then Ok (expected, visited ++ [p])
    else
      let chance_factor := chance_factor_of chance in
      let base := (form p * (6 # 10) + points_per_game p * (4 # 10))%Q in
      let ict_boost := (ict_index p / 100 * (2 # 10))%Q in
      let* exp := for_each (fixture_points avg_strength team_strength base ict_boost)
                           fixes 0%Q in
      let exp' := (exp * chance_factor)%Q in
      let v := round2 exp' in
      Ok (<[pid p := v]> expected, visited ++ [set_expected_points p v])
  end.

Definition calculate_expected_points (players : list player) (teams : list club)
    (team_fixtures : gmap Z (list team_fixture))
  : result (gmap Z Q * list player) :=
  match teams with
  | [] => Raise ZeroDivisionError
  | _ :: _ =>
    let avg_strength :=
      (inject_Z (fold_right Z.add 0%Z (map strength teams))
       / inject_Z (Z.of_nat (length teams)))%Q in
    let team_strength :=
      fold_left (fun m t => <[club_id t := strength t]> m) teams (∅ : gmap Z Z) in
    for_each (expected_points_step avg_strength team_strength team_fixtures)
             players (∅, [])
  end.

(** ** The PuLP fragment used by the selectors *)

(** [LpVariable.dicts(name, ids, cat='Binary')] gives one variable per key;
    [ExtraTransfers] is the integer variable with [lowBound=0]. *)
Inductive LpVariable : Type :=
| Select (i : Z)
| Keep (i : Z)
| Buy (i : Z)
| Select2 (i : Z)
| ExtraTransfers.

Inductive LpAffineExpression : Type :=
| LpVar (v : LpVariable)
| LpConst (q : Q)
| LpAdd (e1 e2 : LpAffineExpression)
| LpSub (e1 e2 : LpAffineExpression)
| LpMul (e : LpAffineExpression) (q : Q).

Inductive LpConstraint : Type :=
| LpLe (e1 e2 : LpAffineExpression)
| LpEq (e1 e2 : LpAffineExpression).

Record LpProblem : Type := mkProblem {
  objective : LpAffineExpression;
  constraints : list LpConstraint
}.

Inductive LpStatus : Type :=
| NotSolved
| Optimal
| Infeasible
| Unbounded
| Undefined.

(** What [solve] leaves behind: the status and the value of each variable. *)
Record LpSolution : Type := mkSolution {
  status : LpStatus;
  varValue : LpVariable -> Z
}.

Definition lpSum (l : list LpAffineExpression) : LpAffineExpression :=
  fold_right LpAdd (LpConst 0) l.

Fixpoint lp_value (a : LpVariable -> Z) (e : LpAffineExpression) : Q :=
  match e with
  | LpVar v => inject_Z (a v)
  | LpConst q => q
  | LpAdd e1 e2 => (lp_value a e1 + lp_value a e2)%Q
  | LpSub e1 e2 => (lp_value a e1 - lp_value a e2)%Q
  | LpMul e q => (lp_value a e * q)%Q
  end.

Fixpoint lp_vars (e : LpAffineExpression) : list LpVariable :=
  match e with
  | LpVar v => [v]
  | LpConst _ => []
  | LpAdd e1 e2 | LpSub e1 e2 => lp_vars e1 ++ lp_vars e2
  | LpMul e _ => lp_vars e
  end.

Definition constraint_vars (c : LpConstraint) : list LpVariable :=
  match c with
  | LpLe e1 e2 | LpEq e1 e2 => lp_vars e1 ++ lp_vars e2
  end.

Definition problem_vars (P : LpProblem) : list LpVariable :=
  lp_vars (objective P) ++ flat_map constraint_vars (constraints P).

(** Binary variables take 0 or 1, [ExtraTransfers] any integer from 0 up. *)
Definition in_domain (v : LpVariable) (x : Z) : bool :=
  match v with
  | ExtraTransfers => 0 <=? x
  | _ => (x =? 0) || (x =? 1)
  end.

Definition holds (a : LpVariable -> Z) (c : LpConstraint) : bool :=
  match c with
  | LpLe e1 e2 => Qle_bool (lp_value a e1) (lp_value a e2)
  | LpEq e1 e2 => Qeq_bool (lp_value a e1) (lp_value a e2)
  end.

Definition lp_feasibleb (P : LpProblem) (a : LpVariable -> Z) : bool :=
  forallb (fun v => in_domain v (a v)) (problem_vars P)
  && forallb (holds a) (constraints P).

Definition lp_feasible (P : LpProblem) (a : LpVariable -> Z) : Prop :=
  lp_feasibleb P a = true.

(** The solver's contract for an [Optimal] answer on a maximisation. *)
Definition lp_optimal (P : LpProblem) (a : LpVariable -> Z) : Prop :=
  lp_feasible P a /\
  forall a', lp_feasible P a' ->
             (lp_value a' (objective P) <= lp_value a (objective P))%Q.

Definition is_optimal (s : LpStatus) : bool :=
  match s with Optimal => true | _ => false end.

(** ** Python builtins on lists *)

(** [x > y] on floats. *)
Definition Qgt_bool (x y : Q) : bool := negb (Qle_bool x y).

(** [sum(...)]: starts from 0 and adds from the left. *)
Definition py_sum (l : list Q) : Q := fold_left Qplus l 0%Q.

(** The keys of a dict built from a sequence of keys: first occurrences. *)
Fixpoint dict_keys_from (seen : list Z) (l : list Z) : list Z :=
  match l with
  | [] => []
  | x :: l' =>
    if existsb (Z.eqb x) seen then dict_keys_from seen l'
    else x :: dict_keys_from (x :: seen) l'
  end.

Definition dict_keys (l : list Z) : list Z := dict_keys_from [] l.

(** [sorted(l, key=key, reverse=True)]: the stable descending sort. *)
Fixpoint insert_desc {A : Type} (key : A -> Q) (x : A) (l : list A) : list A :=
  match l with
  | [] => [x]
  | y :: l' =>
    if Qle_bool (key y) (key x) then x :: l
    else y :: insert_desc key x l'
  end.

Definition sorted_desc {A : Type} (key : A -> Q) (l : list A) : list A :=
  fold_right (insert_desc key) [] l.

(** [max(l, key=key)]: the first element with the largest key. *)
Fixpoint py_max {A : Type} (key : A -> Q) (best : A) (l : list A) : A :=
  match l with
  | [] => best
  | x :: l' =>
    if Qle_bool (key x) (key best) then py_max key best l'
    else py_max key x l'
  end.

Definition max_by {A : Type} (key : A -> Q) (l : list A) : result A :=
  match l with
  | [] => Raise ValueError
  | x :: l' => Ok (py_max key x l')
  end.

(** [[f(x) for x in l]] where [f] may raise. *)
Fixpoint map_result {A B : Type} (f : A -> result B) (l : list A) : result (list B) :=
  match l with
  | [] => Ok []
  | x :: l' =>
    let* y := f x in
    let* ys := map_result f l' in
    Ok (y :: ys)
  end.

(** ** Players as dictionaries *)

Definition option_Q_eqb (x y : option Q) : bool :=
  match x, y with
  | Some a, Some b => Qeq_bool a b
  | None, None => true
  | _, _ => false
  end.

Definition option_Z_eqb (x y : option Z) : bool :=
  match x, y with
  | Some a, Some b => a =? b
  | None, None => true
  | _, _ => false
  end.

(** [p == q] on player dictionaries: every entry equal. *)
Definition player_eqb (p q : player) : bool :=
  (pid p =? pid q) && String.eqb (web_name p) (web_name q)
  && (element_type p =? element_type q) && (team p =? team q)
  && (now_cost p =? now_cost q)
  && option_Z_eqb (chance_of_playing_next_round p) (chance_of_playing_next_round q)
  && Qeq_bool (form p) (form q)
  && Qeq_bool (points_per_game p) (points_per_game q)
  && Qeq_bool (ict_index p) (ict_index q)
  && option_Q_eqb (expected_points p) (expected_points q).

(** [p in l] *)
Definition player_in (p : player) (l : list player) : bool :=
  existsb (player_eqb p) l.

(** [p['expected_points']] *)
Definition get_expected_points (p : player) : result Q :=
  match expected_points p with
  | Some v => Ok v
  | None => Raise KeyError
  end.

(** [expected_points[p['id']]] *)
Definition lookup_points (expected : gmap Z Q) (p : player) : result Q :=
  match expected !! pid p with
  | Some v => Ok v
  | None => Raise KeyError
  end.

(** ** Chips and the persisted squad *)

Inductive chip_name : Type :=
| wildcard
| free_hit
| bench_boost
| triple_captain.

(** An element of the loaded squad file: a dict with an ['id'], or anything
    else. *)
Inductive squad_entry : Type :=
| SquadDict (i : Z)
| SquadOther.

Definition unlimited_chip (chip : option chip_name) : bool :=
  match chip with
  | Some wildcard | Some free_hit => true
  | _ => false
  end.

Definition has_points (expected : gmap Z Q) (p : player) : bool :=
  match expected !! pid p with
  | Some _ => true
  | None => false
  end.

(** [expected_points[p['id']]] for a player known to be in the dictionary. *)
Definition points_of (expected : gmap Z Q) (p : player) : Q :=
  default 0%Q (expected !! pid p).

(** [p['now_cost'] / 10.0] *)
Definition price (p : player) : Q := (inject_Z (now_cost p) / 10)%Q.

Definition pos_counts : list (Z * Z) := [(1, 2); (2, 5); (3, 5); (4, 3)].

(** [range(1, 21)] *)
Definition team_ids : list Z := map Z.of_nat (seq 1 20).

Definition formations : list (Z * Z * Z) :=
  [(3, 5, 2); (3, 4, 3); (4, 4, 2); (4, 3, 3); (4, 5, 1); (5, 4, 1); (5, 3, 2)].

Section Selectors.

(** The external solver: [prob.solve(PULP_CBC_CMD(msg=0))]. *)
Variable solver : LpProblem -> LpSolution.

(** ** optimize_squad *)

Definition avail_players_of (players : list player) (expected : gmap Z Q)
  : list player :=
  filter (has_points expected) players.

(** Map the stored squad to the player objects of the current feed. *)
Definition current_squad_players_of (avail : list player)
    (current_squad : list squad_entry) : list player :=
  flat_map
    (fun e =>
       match e with
       | SquadDict i =>
         match filter (fun p => pid p =? i) avail with
         | m :: _ => [m]
         | [] => []
         end
       | SquadOther => []
       end)
    current_squad.

(** [current_squad_players and chip not in ['wildcard', 'free_hit']] *)
Definition transfer_mode (cur : list player) (chip : option chip_name) : bool :=
  match cur with
  | [] => false
  | _ :: _ => negb (unlimited_chip chip)
  end.

(** [[p for p in avail_players if p not in current_squad_players]] *)
Definition not_held (cur avail : list player) : list player :=
  filter (fun p => negb (player_in p cur)) avail.

Definition having (f : player -> Z) (x : Z) (l : list player) : list player :=
  filter (fun p => f p =? x) l.

Definition var_sum (mk : Z -> LpVariable) (l : list player) : LpAffineExpression :=
  lpSum (map (fun p => LpVar (mk (pid p))) l).

(** [lpSum(d.values())] for a variable dictionary keyed by the ids of [l]. *)
Definition values_sum (mk : Z -> LpVariable) (l : list player) : LpAffineExpression :=
  lpSum (map (fun i => LpVar (mk i)) (dict_keys (map pid l))).

Definition transfer_problem (avail cur : list player) (expected : gmap Z Q)
    (free_transfers : Z) : LpProblem :=
  let others := not_held cur avail in
  let sold :=
    lpSum (map (fun p => LpSub (LpConst 1) (LpVar (Keep (pid p)))) cur) in
  let sold_value :=
    lpSum (map (fun p => LpMul (LpSub (LpConst 1) (LpVar (Keep (pid p)))) (price p))
               cur) in
  let buy_cost :=
    lpSum (map (fun p => LpMul (LpVar (Buy (pid p))) (price p)) others) in
  mkProblem
    (LpSub
       (LpAdd
          (lpSum (map (fun p => LpMul (LpVar (Keep (pid p))) (points_of expected p)) cur))
          (lpSum (map (fun p => LpMul (LpVar (Buy (pid p))) (points_of expected p))
                      others)))
       (LpMul (LpVar ExtraTransfers) 4))
    (LpLe sold (LpAdd (LpConst (inject_Z free_transfers)) (LpVar ExtraTransfers))
     :: LpEq (LpAdd (values_sum Keep cur) (values_sum Buy others)) (LpConst 15)
     :: LpEq sold (values_sum Buy others)
     :: LpLe buy_cost sold_value
     :: map (fun '(pos, count) =>
               LpEq (LpAdd (var_sum Keep (having element_type pos cur))
                           (var_sum Buy (having element_type pos others)))
                    (LpConst (inject_Z count)))
            pos_counts
     ++ map (fun team_id =>
               LpLe (LpAdd (var_sum Keep (having team team_id cur))
                           (var_sum Buy (having team team_id others)))
                    (LpConst 3))
            team_ids).

Definition rebuild_problem (avail : list player) (expected : gmap Z Q) : LpProblem :=
  mkProblem
    (lpSum (map (fun p => LpMul (LpVar (Select (pid p))) (points_of expected p)) avail))
    (LpEq (values_sum Select avail) (LpConst 15)
     :: LpLe (lpSum (map (fun p => LpMul (LpVar (Select (pid p))) (price p)) avail))
             (LpConst 100)
     :: map (fun '(pos, count) =>
               LpEq (var_sum Select (having element_type pos avail))
                    (LpConst (inject_Z count)))
            pos_counts
     ++ map (fun team_id =>
               LpLe (var_sum Select (having team team_id avail)) (LpConst 3))
            team_ids).

Definition squad_problem (players : list player) (expected : gmap Z Q)
    (current_squad : list squad_entry) (free_transfers : Z)
    (chip : option chip_name) : LpProblem :=
  let avail := avail_players_of players expected in
  let cur := current_squad_players_of avail current_squad in
  if transfer_mode cur chip
  then transfer_problem avail cur expected free_transfers
  else rebuild_problem avail expected.

(** [[p for p in l if d[p['id']].value() == 1]] *)
Definition chosen (value : LpVariable -> Z) (mk : Z -> LpVariable)
    (l : list player) : list player :=
  filter (fun p => value (mk (pid p)) =? 1) l.

Definition optimize_squad (players : list player) (expected : gmap Z Q)
    (current_squad : list squad_entry) (free_transfers : Z)
    (chip : option chip_name) : result (list player * Q * Q) :=
  let avail := avail_players_of players expected in
  let cur := current_squad_players_of avail current_squad in
  let sol := solver (squad_problem players expected current_squad free_transfers chip) in
  if negb (is_optimal (status sol)) then Raise ValueError
  else
    let selected :=
      if transfer_mode cur chip
      then chosen (varValue sol) Keep cur
           ++ chosen (varValue sol) Buy (not_held cur avail)
      else chosen (varValue sol) Select avail in
    let total_cost := py_sum (map price selected) in
    let* points := map_result get_expected_points selected in
    Ok (selected, total_cost, py_sum points).

(** ** optimize_lineup *)

Definition lineup_problem (selected : list player) (expected : gmap Z Q)
    (formation : Z * Z * Z) : LpProblem :=
  let '(def_c, mid_c, fwd_c) := formation in
  mkProblem
    (lpSum (map (fun p => LpMul (LpVar (Select2 (pid p))) (points_of expected p))
                selected))
    [ LpEq (var_sum Select2 selected) (LpConst 11);
      LpEq (var_sum Select2 (having element_type 1 selected)) (LpConst 1);
      LpEq (var_sum Select2 (having element_type 2 selected)) (LpConst (inject_Z def_c));
      LpEq (var_sum Select2 (having element_type 3 selected)) (LpConst (inject_Z mid_c));
      LpEq (var_sum Select2 (having element_type 4 selected)) (LpConst (inject_Z fwd_c)) ].

(** The loop state: [best_lineup, best_form, best_proj, best_captain,
    best_vice].  [best_form] is kept as the triple that the source prints as
    ["d-m-f"]. *)
Record lineup_choice : Type := mkChoice {
  best_lineup : list player;
  best_form : option (Z * Z * Z);
  best_proj : Q;
  best_captain : option player;
  best_vice : option player
}.

Definition no_choice : lineup_choice := mkChoice [] None 0%Q None None.

(** The key [lambda p: p['expected_points']], for players that carry it. *)
Definition points_key (p : player) : Q := default 0%Q (expected_points p).

(** The lineup read off an [Optimal] answer and its projected total. *)
Definition lineup_of (value : LpVariable -> Z) (selected : list player) : list player :=
  chosen value Select2 selected.

Definition captain_factor (chip : option chip_name) : Q :=
  match chip with
  | Some triple_captain => 3%Q
  | _ => 2%Q
  end.

Definition projected_total (selected lineup : list player) (chip : option chip_name)
  : result Q :=
  let* points := map_result get_expected_points lineup in
  let lineup_sum := py_sum points in
  let exps := sorted_desc (fun x => x) points in
  let cap_bonus :=
    match exps with
    | top :: _ => (top * captain_factor chip)%Q
    | [] => 0%Q
    end in
  let proj_total := (lineup_sum + cap_bonus)%Q in
  match chip with
  | Some bench_boost =>
    let* bench :=
      map_result get_expected_points
                 (filter (fun p => negb (player_in p lineup)) selected) in
    Ok (proj_total + py_sum bench)%Q
  | _ => Ok proj_total
  end.

Definition lineup_step (selected : list player) (expected : gmap Z Q)
    (chip : option chip_name) (best : lineup_choice) (formation : Z * Z * Z)
  : result lineup_choice :=
  if negb (forallb (has_points expected) selected) then Raise KeyError
  else
    let sol := solver (lineup_problem selected expected formation) in
    if is_optimal (status sol) then
      let lineup := lineup_of (varValue sol) selected in
      let* proj_total := projected_total selected lineup chip in
      if Qgt_bool proj_total (best_proj best) then
        let* captain := max_by points_key lineup in
        let vice :=
          match sorted_desc points_key lineup with
          | _ :: second :: _ => Some second
          | _ => None
          end in
        Ok (mkChoice lineup (Some formation) proj_total (Some captain) vice)
      else Ok best
    else Ok best.

Definition optimize_lineup (selected : list player) (expected : gmap Z Q)
    (chip : option chip_name) : result lineup_choice :=
  for_each (lineup_step selected expected chip) formations no_choice.

End Selectors.

(** ** The lineup loop of main.py

    The sibling script has no chips: the captain bonus is the top value once
    ("Captain double"), and the vice-captain is [sorted(...)[1]] without a
    length guard. *)

Section MainScript.

Variable solver : LpProblem -> LpSolution.

Definition main_projected_total (lineup : list player) : result Q :=
  let* points := map_result get_expected_points lineup in
  let lineup_sum := py_sum points in
  let exps := sorted_desc (fun x => x) points in
  let cap_bonus :=
    match exps with
    | top :: _ => top
    | [] => 0%Q
    end in
  Ok (lineup_sum + cap_bonus)%Q.

Definition main_lineup_step (selected : list player) (expected : gmap Z Q)
    (best : lineup_choice) (formation : Z * Z * Z) : result lineup_choice :=
  if negb (forallb (has_points expected) selected) then Raise KeyError
  else
    let sol := solver (lineup_problem selected expected formation) in
    if is_optimal (status sol) then
      let lineup := lineup_of (varValue sol) selected in
      let* proj_total := main_projected_total lineup in
      if Qgt_bool proj_total (best_proj best) then
        let* captain := max_by points_key lineup in
        match sorted_desc points_key lineup with
        | _ :: second :: _ =>
          Ok (mkChoice lineup (Some formation) proj_total (Some captain) (Some second))
        | _ => Raise IndexError
        end
      else Ok best
    else Ok best.

Definition main_lineup_loop (selected : list player) (expected : gmap Z Q)
  : result lineup_choice :=
  for_each (main_lineup_step selected expected) formations no_choice.

End MainScript.

(** ** load_squad, save_squad and main of test3.py *)

(** What reading a squad file can meet. *)
Inductive file_state : Type :=
| FileAbsent                              (* no such file *)
| FileUnreadable                          (* it exists, [open] raises OSError *)
| FileMalformed                           (* [json.load] raises JSONDecodeError *)
| FileJson (content : list squad_entry).

Inductive log_record : Type :=
| LogDecodeError                          (* "Error decoding squad file ..." *)
| LogLoadError                            (* "Error loading squad from ..." *)
| LogSaveError.                           (* "Error saving squad to ..." *)

Record snapshot_entry : Type := mkSnapshot {
  s_id : Z;
  s_web_name : string;
  s_element_type : Z;
  s_team : Z
}.

Definition load_squad (squad_file : file_state)
  : result (list squad_entry) * list log_record :=
  match squad_file with
  | FileAbsent => (Ok [], [])
  | FileUnreadable => (Raise OSError, [])
  | FileMalformed => (Ok [], [LogDecodeError])
  | FileJson content => (Ok content, [])
  end.

(** [writable = false]: [open(SQUAD_FILE, 'w')] or [json.dump] raises. *)
Definition save_squad (selected : list player) (writable : bool)
  : option (list snapshot_entry) * list log_record :=
  let optimized_squad :=
    map (fun p => mkSnapshot (pid p) (web_name p) (element_type p) (team p)) selected in
  if writable then (Some optimized_squad, []) else (None, [LogSaveError]).

(** The command line and the outside world of one run. *)
Record arguments : Type := mkArgs {
  arg_squad : option file_state;          (* --squad PATH: the file at PATH *)
  arg_chip : option chip_name;
  arg_transfers : Z
}.

Record world : Type := mkWorld {
  squad_file : file_state;                (* SQUAD_FILE before the run *)
  feed : result (list player * list club * list fixture * Z);   (* fetch_data() *)
  writable : bool
}.

(** What [print_output] is given. *)
Record report : Type := mkReport {
  r_next_gw : Z;
  r_selected : list player;
  r_total_cost : Q;
  r_squad_expected : Q;
  r_lineup : lineup_choice;
  r_bench : list player;
  r_chip : option chip_name
}.

Record run : Type := mkRun {
  printed : result report;                (* the report, or the uncaught exception *)
  logged : list log_record;
  written : option (list snapshot_entry)  (* the new content of SQUAD_FILE, if any *)
}.

Section Main.

Variable solver : LpProblem -> LpSolution.

(** The part of [main] before the snapshot is written. *)
Definition optimize (args : arguments) (current_squad : list squad_entry) (w : world)
  : result report :=
  let* (players, teams, fixtures, next_gw) := feed w in
  let free_transfers := if next_gw =? 16 then 5 else Z.min (arg_transfers args) 5 in
  let* team_fixtures := calculate_team_fixtures teams fixtures in
  let* (expected, players') := calculate_expected_points players teams team_fixtures in
  let* (selected, total_cost, squad_expected) :=
    optimize_squad solver players' expected current_squad free_transfers (arg_chip args) in
  let* best := optimize_lineup solver selected expected (arg_chip args) in
  let bench :=
    sorted_desc points_key
                (filter (fun p => negb (player_in p (best_lineup best))) selected) in
  Ok (mkReport next_gw selected total_cost squad_expected best bench (arg_chip args)).

Definition main (args : arguments) (w : world) : run :=
  let '(loaded, log1) :=
    match arg_squad args with
    | None => load_squad (squad_file w)
    | Some _ => (Ok [], [])
    end in
  match loaded with
  | Raise e => mkRun (Raise e) log1 None
  | Ok squad0 =>
    let '(current_squad, log2) :=
      match arg_squad args with
      | Some (FileJson content) => (content, [])
      | Some _ => ([], [LogLoadError])
      | None => (squad0, [])
      end in
    match optimize args current_squad w with
    | Raise e => mkRun (Raise e) (log1 ++ log2) None
    | Ok rep =>
      let '(file, log3) := save_squad (r_selected rep) (writable w) in
      mkRun (Ok rep) (log1 ++ log2 ++ log3) file
    end
  end.

End Main.

(** ** get_next_gameweek and get_team_name *)

(** An entry of the feed's [events]. *)
Record event : Type := mkEvent {
  event_id : Z;                                 (* 'id' *)
  is_next : bool;
  finished : bool
}.

(** [max(l, default=d)] on integers. *)
Definition max_default (l : list Z) (d : Z) : Z :=
  match l with
  | [] => d
  | x :: l' => fold_left Z.max l' x
  end.

(** The warning written to the log on the fallback path is left out. *)
Definition get_next_gameweek (events : list event) : Z :=
  match find is_next events with
  | Some e => event_id e
  | None => max_default (map event_id (filter finished events)) 0 + 1
  end.

Definition get_team_name (teams : list club) (tid : Z) : string :=
  match find (fun t => club_id t =? tid) teams with
  | Some t => short_name t
  | None => "Unknown"%string
  end.

(** ** The squad problem of main.py

    The sibling script always rebuilds.  It states the budget before the
    size, and sums the size over the players instead of the dictionary's
    values. *)

Definition main_squad_problem (avail : list player) (expected : gmap Z Q) : LpProblem :=
  mkProblem
    (lpSum (map (fun p => LpMul (LpVar (Select (pid p))) (points_of expected p)) avail))
    (LpLe (lpSum (map (fun p => LpMul (LpVar (Select (pid p))) (price p)) avail))
          (LpConst 100)
     :: LpEq (var_sum Select avail) (LpConst 15)
     :: map (fun '(pos, count) =>
               LpEq (var_sum Select (having element_type pos avail))
                    (LpConst (inject_Z count)))
            pos_counts
     ++ map (fun team_id =>
               LpLe (var_sum Select (having team team_id avail)) (LpConst 3))
            team_ids).

(** ** The points model of main.py

    The sibling script indexes [team_fixtures] directly and finds the
    opponent's strength with [next(...)] over the clubs, without a default:
    it can end in [StopIteration], which [test3.py] never raises. *)

Inductive script_result (A : Type) : Type :=
| Value (a : A)
| Exception (e : exn)
| StopIteration.

Arguments Value {A} a.
Arguments Exception {A} e.
Arguments StopIteration {A}.

Definition script_bind {A B : Type} (r : script_result A) (k : A -> script_result B)
  : script_result B :=
  match r with
  | Value a => k a
  | Exception e => Exception e
  | StopIteration => StopIteration
  end.

Fixpoint script_for_each {A S : Type} (body : S -> A -> script_result S)
    (l : list A) (s : S) : script_result S :=
  match l with
  | [] => Value s
  | x :: l' => script_bind (body s x) (script_for_each body l')
  end.

Definition main_fixture_points (teams : list club) (avg_strength base ict_boost : Q)
    (exp : Q) (fix_ : team_fixture) : script_result Q :=
  match find (fun t => club_id t =? opp_id fix_) teams with
  | None => StopIteration
  | Some t =>
    let opp_strength := strength t in
    if opp_strength =? 0 then Exception ZeroDivisionError
    else
      let strength_factor := (avg_strength / inject_Z opp_strength)%Q in
      let diff_factor := (inject_Z (6 - diff fix_) / 5)%Q in
      let home_bonus := if home fix_ then (12 # 10)%Q else (9 # 10)%Q in
      let fix_exp :=
        (base * diff_factor * home_bonus * strength_factor * (1 + ict_boost))%Q in
      Value (exp + fix_exp)%Q
  end.

Definition main_points_step (teams : list club) (avg_strength : Q)
    (team_fixtures : gmap Z (list team_fixture))
    (st : gmap Z Q * list player) (p : player)
  : script_result (gmap Z Q * list player) :=
  let '(expected, visited) := st in
  match team_fixtures !! team p with
  | None => Exception KeyError
  | Some [] => Value (expected, visited ++ [p])
  | Some fixes =>
    let chance := chance_of_playing_next_round p in
    if match chance with Some c => c =? 0 | None => false end
    then Value (expected, visited ++ [p])
    else
      let chance_factor :=
        (match chance with Some c => inject_Z c | None => 100 end / 100)%Q in
      let base := (points_per_game p * (4 # 10) + form p * (6 # 10))%Q in
      let ict_boost := (ict_index p / 100 * (2 # 10))%Q in
      script_bind
        (script_for_each (main_fixture_points teams avg_strength base ict_boost)
                         fixes 0%Q)
        (fun exp =>
           let v := round2 (exp * chance_factor) in
           Value (<[pid p := v]> expected, visited ++ [set_expected_points p v]))
  end.

Definition main_expected_points (players : list player) (teams : list club)
    (team_fixtures : gmap Z (list team_fixture))
  : script_result (gmap Z Q * list player) :=
  match teams with
  | [] => Exception ZeroDivisionError
  | _ :: _ =>
    let avg_strength :=
      (inject_Z (fold_right Z.add 0%Z (map strength teams))
       / inject_Z (Z.of_nat (length teams)))%Q in
    script_for_each (main_points_step teams avg_strength team_fixtures)
                    players (∅, [])
  end.

(** * Notions used in the statements *)

(** ** The solver's contract *)

(** The solver's answer is feasible whenever it reports [Optimal]. *)
Definition sound_on (solver : LpProblem -> LpSolution) (P : LpProblem) : Prop :=
  is_optimal (status (solver P)) = true -> lp_feasible P (varValue (solver P)).

(** The solver's contract: an [Optimal] answer is feasible and maximal. *)
Definition optimal_on (solver : LpProblem -> LpSolution) (P : LpProblem) : Prop :=
  is_optimal (status (solver P)) = true -> lp_optimal P (varValue (solver P)).

Definition holds_prop (a : LpVariable -> Z) (c : LpConstraint) : Prop :=
  match c with
  | LpLe e1 e2 => (lp_value a e1 <= lp_value a e2)%Q
  | LpEq e1 e2 => (lp_value a e1 == lp_value a e2)%Q
  end.

Definition upper_bound (v : LpVariable) (x : Q) : Prop :=
  match v with
  | ExtraTransfers => True
  | _ => (x <= 1)%Q
  end.

(** ** Reading an answer *)

Definition binary_family (mk : Z -> LpVariable) : Prop :=
  forall i x, in_domain (mk i) x = true -> x = 0 \/ x = 1.

(** [a] gives 0 or 1 to the variable of every player of [l]. *)
Definition binary_on (a : LpVariable -> Z) (mk : Z -> LpVariable)
    (l : list player) : Prop :=
  forall p, In p l -> a (mk (pid p)) = 0 \/ a (mk (pid p)) = 1.

(** The held players that are not kept. *)
Definition released (a : LpVariable -> Z) (cur : list player) : list player :=
  filter (fun p => negb (a (Keep (pid p)) =? 1)) cur.

(** The position counts of a lineup. *)
Definition counts (pos : Z) (l : list player) : Z :=
  Z.of_nat (length (having element_type pos l)).

(** Clubs are counted like positions. *)
Definition club_count (c : Z) (l : list player) : Z :=
  Z.of_nat (length (having team c l)).

(** The ids found in the stored squad. *)
Definition squad_ids (current_squad : list squad_entry) : list Z :=
  flat_map (fun e => match e with SquadDict i => [i] | SquadOther => [] end)
           current_squad.

(** Variables of the transfer decisions proper. *)
Definition decision_var (v : LpVariable) : Prop :=
  match v with
  | Keep _ | Buy _ => True
  | _ => False
  end.

(** The extra transfers to pay for when [n] players are sold. *)
Definition extra_needed (free_transfers : Z) (n : nat) : Z :=
  Z.max 0 (Z.of_nat n - free_transfers).

(** The answer [a] with [ExtraTransfers] set to [x]. *)
Definition with_extra (a : LpVariable -> Z) (x : Z) (v : LpVariable) : Z :=
  match v with
  | ExtraTransfers => x
  | _ => a v
  end.

(** ** Orderings by key *)

Definition descending {A : Type} (key : A -> Q) (l : list A) : Prop :=
  StronglySorted (fun a b => (key b <= key a)%Q) l.

(** [m] is the first element of [l] whose key is the largest. *)
Definition first_max {A : Type} (key : A -> Q) (m : A) (l : list A) : Prop :=
  exists l1 l2, l = l1 ++ m :: l2
    /\ (forall y, In y l1 -> (key y < key m)%Q)
    /\ (forall y, In y l2 -> (key y <= key m)%Q).

(** ** What the lineup loop records *)

(** Formation [f] is solved, with lineup [lineup] and projected total [t]. *)
Definition solved_with (solver : LpProblem -> LpSolution) (selected : list player)
    (expected : gmap Z Q) (chip : option chip_name)
    (f : Z * Z * Z) (lineup : list player) (t : Q) : Prop :=
  is_optimal (status (solver (lineup_problem selected expected f))) = true
  /\ lineup = lineup_of (varValue (solver (lineup_problem selected expected f))) selected
  /\ projected_total selected lineup chip = Ok t.

Definition vice_of (lineup : list player) : option player :=
  match sorted_desc points_key lineup with
  | _ :: second :: _ => Some second
  | _ => None
  end.

(** [best] is what the loop records when formation [f] takes the lead. *)
Definition picked (solver : LpProblem -> LpSolution) (selected : list player)
    (expected : gmap Z Q) (chip : option chip_name)
    (f : Z * Z * Z) (best : lineup_choice) : Prop :=
  exists lineup t captain,
    solved_with solver selected expected chip f lineup t
    /\ max_by points_key lineup = Ok captain
    /\ best = mkChoice lineup (Some f) t (Some captain) (vice_of lineup).

(** ** The points model, player by player *)

(** Every key is a club and every opponent listed is a club. *)
Definition fixtures_within (ids : list Z) (m : gmap Z (list team_fixture)) : Prop :=
  forall k l, m !! k = Some l ->
    In k ids /\ forall e, In e l -> In (opp_id e) ids.

Definition strength_dict (teams : list club) : gmap Z Z :=
  fold_left (fun m t => <[club_id t := strength t]> m) teams ∅.

(** What one iteration computes for a player: nothing when the player is
    skipped, otherwise the rounded estimate. *)
Definition player_points (avg_strength : Q) (team_strength : gmap Z Z)
    (team_fixtures : gmap Z (list team_fixture)) (p : player) : result (option Q) :=
  match default [] (team_fixtures !! team p) with
  | [] => Ok None
  | fixes =>
    if match chance_of_playing_next_round p with Some c => c =? 0 | None => false end
    then Ok None
    else
      let base := (form p * (6 # 10) + points_per_game p * (4 # 10))%Q in
      let ict_boost := (ict_index p / 100 * (2 # 10))%Q in
      let* exp := for_each (fixture_points avg_strength team_strength base ict_boost)
                           fixes 0%Q in
      Ok (Some (round2 (exp * chance_factor_of (chance_of_playing_next_round p))))
  end.

(** The player as the loop leaves it. *)
Definition updated (r : option Q) (p : player) : player :=
  match r with
  | Some v => set_expected_points p v
  | None => p
  end.

Definition skipped (team_fixtures : gmap Z (list team_fixture)) (p : player) : Prop :=
  chance_of_playing_next_round p = Some 0
  \/ default [] (team_fixtures !! team p) = [].

(** The same player with a null availability replaced by 100. *)
Definition null_as_100 (p : player) : player :=
  match chance_of_playing_next_round p with
  | Some _ => p
  | None =>
    mkPlayer (pid p) (web_name p) (element_type p) (team p) (now_cost p) (Some 100)
             (form p) (points_per_game p) (ict_index p) (expected_points p)
  end.

(** ** The estimate as the specification words it *)

Definition average_strength (teams : list club) : Q :=
  (inject_Z (fold_right Z.add 0%Z (map strength teams))
   / inject_Z (Z.of_nat (length teams)))%Q.

(** The strength of the club numbered [i]. *)
Definition opponent_strength (teams : list club) (i : Z) : Q :=
  match find (fun t => club_id t =? i) teams with
  | Some t => inject_Z (strength t)
  | None => 0%Q
  end.

(** The availability probability, a null one counting as 100. *)
Definition availability (p : player) : Q :=
  match chance_of_playing_next_round p with
  | Some c => inject_Z c
  | None => 100%Q
  end.

Definition fixture_estimate (teams : list club) (p : player) (fx : team_fixture) : Q :=
  (((6 # 10) * form p + (4 # 10) * points_per_game p)
   * (inject_Z (6 - diff fx) / 5)
   * (if home fx then 12 # 10 else 9 # 10)
   * (average_strength teams / opponent_strength teams (opp_id fx))
   * (1 + ict_index p / 100 * (2 # 10)))%Q.

Definition claimed_estimate (teams : list club) (p : player)
    (fixes : list team_fixture) : Q :=
  round2 (Qsum (map (fixture_estimate teams p) fixes) * (availability p / 100)).

(** ** What a club's fixture list should hold *)

(** The entries that fixture [f] adds to the list of club [c]. *)
Definition entries_of (c : Z) (f : fixture) : list team_fixture :=
  (if team_h f =? c then [mkTeamFixture (team_a f) (team_h_difficulty f) true] else [])
  ++ (if team_a f =? c then [mkTeamFixture (team_h f) (team_a_difficulty f) false] else []).

(** Both clubs of the fixture are among the clubs of the feed. *)
Definition clubs_listed (teams : list club) (f : fixture) : Prop :=
  In (team_h f) (map club_id teams) /\ In (team_a f) (map club_id teams).

(** ** When the points model divides by zero *)

(** The divisor of [strength_factor] for the opponent numbered [i]: the
    opponent's entry of the strength dictionary, or the average strength
    when the dictionary has none. *)
Definition strength_against (teams : list club) (i : Z) : Q :=
  match strength_dict teams !! i with
  | Some s => inject_Z s
  | None => average_strength teams
  end.

(** Player [p] is not skipped and meets an opponent of strength 0. *)
Definition meets_zero_strength (teams : list club)
    (team_fixtures : gmap Z (list team_fixture)) (p : player) : Prop :=
  ~ skipped team_fixtures p
  /\ exists fx, In fx (default [] (team_fixtures !! team p))
                /\ (strength_against teams (opp_id fx) == 0)%Q.

(** ** The snapshot as the next run reads it *)

(** [json.load] of what [json.dump] wrote for [save_squad]: every element is
    a dict that has an ['id']. *)
Definition stored_entries (snapshot : list snapshot_entry) : list squad_entry :=
  map (fun s => SquadDict (s_id s)) snapshot.

(** [i] is the id of an eligible player. *)
Definition eligible_id (avail : list player) (i : Z) : bool :=
  existsb (fun p => pid p =? i) avail.

(** ** The answer that makes no transfer *)

(** The answer that keeps every held player and buys nobody. *)
Definition keep_all (v : LpVariable) : Z :=
  match v with
  | Keep _ => 1
  | _ => 0
  end.

(** ** Fielding a formation *)

(** For formation [(d, m, f)]: the first goalkeeper of the squad, its first
    [d] defenders, its first [m] midfielders and its first [f] forwards. *)
Definition fielded (selected : list player) (formation : Z * Z * Z) : list player :=
  let '(def_c, mid_c, fwd_c) := formation in
  firstn 1 (having element_type 1 selected)
  ++ firstn (Z.to_nat def_c) (having element_type 2 selected)
  ++ firstn (Z.to_nat mid_c) (having element_type 3 selected)
  ++ firstn (Z.to_nat fwd_c) (having element_type 4 selected).

(** The answer that selects exactly those players. *)
Definition fielding (selected : list player) (formation : Z * Z * Z)
    (v : LpVariable) : Z :=
  match v with
  | Select2 i =>
    if existsb (Z.eqb i) (map pid (fielded selected formation)) then 1 else 0
  | _ => 0
  end.

(** How many players of position [k] the formation fields. *)
Definition quota_of (formation : Z * Z * Z) (k : Z) : nat :=
  let '(def_c, mid_c, fwd_c) := formation in
  if k =? 1 then 1%nat
  else if k =? 2 then Z.to_nat def_c
  else if k =? 3 then Z.to_nat mid_c
  else if k =? 4 then Z.to_nat fwd_c
  else 0%nat.

(** ** Comparing the two scripts *)

(** An outcome of [test3.py] read as an outcome of [main.py]. *)
Definition as_script {A : Type} (r : result A) : script_result A :=
  match r with
  | Ok a => Value a
  | Raise e => Exception e
  end.

(** The outcomes of the two inner loops: the same exception, or sums that
    are equal as numbers. *)
Definition same_sum (r : script_result Q) (r' : result Q) : Prop :=
  match r, r' with
  | Value e, Ok e' => (e == e')%Q
  | Exception x, Raise x' => x = x'
  | _, _ => False
  end.

(** * A sample gameweek

    Seven clubs of equal strength; clubs 1, 3 and 5 play at home against
    clubs 2, 4 and 6, every fixture with difficulty 1; club 7 has no fixture.
    Players 1..15 make a full squad; player 16 is ruled out (availability 0)
    and player 17 belongs to the idle club 7.  Player 14 has a null
    availability and player 7 an availability of 50. *)

Module Sample.

Local Open Scope string_scope.

Definition raw (i : Z) (name : string) (pos club cost : Z) (chance : option Z)
    (f ppg : Q) : player :=
  mkPlayer i name pos club cost chance f ppg 0%Q None.

Definition players : list player :=
  [ raw 1 "Keeper1" 1 1 55 (Some 100) 5 5;
    raw 2 "Keeper2" 1 2 45 (Some 100) 5 5;
    raw 3 "Back1" 2 1 55 (Some 100) (75 # 10) (75 # 10);
    raw 4 "Back2" 2 3 55 (Some 100) 5 5;
    raw 5 "Back3" 2 5 50 (Some 100) 5 5;
    raw 6 "Back4" 2 2 45 (Some 100) 5 5;
    raw 7 "Back5" 2 4 40 (Some 50) 5 5;
    raw 8 "Mid1" 3 1 125 (Some 100) 10 10;
    raw 9 "Mid2" 3 3 85 (Some 100) 7 (825 # 100);
    raw 10 "Mid3" 3 5 80 (Some 100) (75 # 10) (75 # 10);
    raw 11 "Mid4" 3 2 70 (Some 100) (75 # 10) (75 # 10);
    raw 12 "Mid5" 3 4 55 (Some 100) 5 5;
    raw 13 "Striker1" 4 3 105 (Some 100) (75 # 10) (75 # 10);
    raw 14 "Striker2" 4 6 75 None (75 # 10) (75 # 10);
    raw 15 "Striker3" 4 4 60 (Some 100) 5 5;
    raw 16 "Injured" 3 5 120 (Some 0) 10 10;
    raw 17 "Idle" 4 7 100 (Some 100) 10 10 ].

Definition teams : list club :=
  [ mkClub 1 "AAA" 3; mkClub 2 "BBB" 3; mkClub 3 "CCC" 3; mkClub 4 "DDD" 3;
    mkClub 5 "EEE" 3; mkClub 6 "FFF" 3; mkClub 7 "GGG" 3 ].

Definition fixtures : list fixture :=
  [ mkFixture 1 2 1 1; mkFixture 3 4 1 1; mkFixture 5 6 1 1 ].

Local Close Scope string_scope.

Definition team_fixtures : gmap Z (list team_fixture) :=
  match calculate_team_fixtures teams fixtures with
  | Ok m => m
  | Raise _ => ∅
  end.

(** The dictionary and the updated players left by the points model. *)
Definition expected : gmap Z Q :=
  match calculate_expected_points players teams team_fixtures with
  | Ok (m, _) => m
  | Raise _ => ∅
  end.

Definition scored : list player :=
  match calculate_expected_points players teams team_fixtures with
  | Ok (_, l) => l
  | Raise _ => []
  end.

(** The fifteen eligible players: the only squad that can be built. *)
Definition squad : list player := firstn 15 scored.

(** The same gameweek at the start of a season: no form, no points yet. *)
Definition fresh_players : list player :=
  map (fun p => mkPlayer (pid p) (web_name p) (element_type p) (team p) (now_cost p)
                         (chance_of_playing_next_round p) 0%Q 0%Q 0%Q None)
      players.

Definition fresh_expected : gmap Z Q :=
  match calculate_expected_points fresh_players teams team_fixtures with
  | Ok (m, _) => m
  | Raise _ => ∅
  end.

Definition fresh_scored : list player :=
  match calculate_expected_points fresh_players teams team_fixtures with
  | Ok (_, l) => l
  | Raise _ => []
  end.

Definition fresh_squad : list player := firstn 15 fresh_scored.

(** The answers of the solver on this gameweek.  In the squad problem all
    fifteen eligible players are taken.  In the lineup problem of formation
    [(d, m, f)] the goalkeeper 1, the first [d] defenders, the first [m]
    midfielders and the first [f] forwards are taken: within each position
    the players are listed by descending expected points. *)
Definition in_range (lo n i : Z) : bool := (lo <=? i) && (i <? lo + n).

Definition formation_of (P : LpProblem) : option (Z * Z * Z) :=
  match constraints P with
  | [_; _; LpEq _ (LpConst d); LpEq _ (LpConst m); LpEq _ (LpConst f)] =>
    Some (Qnum d, Qnum m, Qnum f)
  | _ => None
  end.

Definition answer (formation : option (Z * Z * Z)) (v : LpVariable) : Z :=
  match v with
  | Select i => if in_range 1 15 i then 1 else 0
  | Select2 i =>
    match formation with
    | Some (d, m, f) =>
      if (i =? 1) || in_range 3 d i || in_range 8 m i || in_range 13 f i
      then 1 else 0
    | None => 0
    end
  | _ => 0
  end.

(** The solver reports [Optimal] when its answer satisfies the problem. *)
Definition solver (P : LpProblem) : LpSolution :=
  let a := answer (formation_of P) in
  mkSolution (if lp_feasibleb P a then Optimal else Infeasible) a.

(** A feed with a 21st club: the players of clubs 1 and 6 are registered
    with club 21, which then has four eligible players. *)
Definition relocated : list player :=
  map (fun p => mkPlayer (pid p) (web_name p) (element_type p)
                         (if (team p =? 1) || (team p =? 6) then 21 else team p)
                         (now_cost p) (chance_of_playing_next_round p) (form p)
                         (points_per_game p) (ict_index p) (expected_points p))
      scored.

End Sample.

(** * A sample week of transfers

    The sample gameweek after every price has risen by 1.0, with four
    newcomers at 18 expected points each, one per position; the stored squad
    holds players 1..15, now worth 115.0, and two transfers are free.  The
    solver sells the weakest player of every position (2, 7, 12 and 15, worth
    24.0 together) and buys the four newcomers (24.0 together), paying for
    two extra transfers. *)

Module Transfers.

Local Open Scope string_scope.

Definition newcomers : list player :=
  [ Sample.raw 18 "NewKeeper" 1 4 60 (Some 100) 20 20;
    Sample.raw 19 "NewBack" 2 4 60 (Some 100) 20 20;
    Sample.raw 20 "NewMid" 3 4 60 (Some 100) 20 20;
    Sample.raw 21 "NewStriker" 4 6 60 (Some 100) 20 20 ].

Local Close Scope string_scope.

Definition players : list player :=
  map (fun p => mkPlayer (pid p) (web_name p) (element_type p) (team p)
                         (now_cost p + 10) (chance_of_playing_next_round p)
                         (form p) (points_per_game p) (ict_index p)
                         (expected_points p))
      Sample.players
  ++ newcomers.

Definition expected : gmap Z Q :=
  match calculate_expected_points players Sample.teams Sample.team_fixtures with
  | Ok (m, _) => m
  | Raise _ => ∅
  end.

Definition scored : list player :=
  match calculate_expected_points players Sample.teams Sample.team_fixtures with
  | Ok (_, l) => l
  | Raise _ => []
  end.

Definition current_squad : list squad_entry :=
  map (fun n => SquadDict (Z.of_nat n)) (seq 1 15).

Definition answer (v : LpVariable) : Z :=
  match v with
  | Keep i =>
    if Sample.in_range 1 15 i && negb (existsb (Z.eqb i) [2; 7; 12; 15])
    then 1 else 0
  | Buy i => if Sample.in_range 18 4 i then 1 else 0
  | ExtraTransfers => 2
  | _ => 0
  end.

Definition solver (P : LpProblem) : LpSolution :=
  mkSolution (if lp_feasibleb P answer then Optimal else Infeasible) answer.

(** The same week with the four newcomers registered with a 21st club. *)
Definition relocated : list player :=
  map (fun p => mkPlayer (pid p) (web_name p) (element_type p)
                         (if 18 <=? pid p then 21 else team p)
                         (now_cost p) (chance_of_playing_next_round p) (form p)
                         (points_per_game p) (ict_index p) (expected_points p))
      scored.

End Transfers.

(** ** Runs on the sample gameweek *)

Fixpoint distinctb (l : list Z) : bool :=
  match l with
  | [] => true
  | x :: l' => negb (existsb (Z.eqb x) l') && distinctb l'
  end.

(** The sample gameweek as the world of a run: gameweek 5, the snapshot file
    in state [f]. *)
Definition sample_world (f : file_state) (writable : bool) : world :=
  mkWorld f (Ok (Sample.players, Sample.teams, Sample.fixtures, 5)) writable.

Definition plain_args : arguments := mkArgs None None 1.

(** * Properties *)

(** ** Sums and rounding *)

Lemma Qsum_app (l1 l2 : list Q) : (Qsum (l1 ++ l2) == Qsum l1 + Qsum l2)%Q.
Proof.
  induction l1 as [|x l1 IH]; simpl.
  - lra.
  - rewrite IH. lra.
Qed.

Lemma fold_left_Qplus (l : list Q) (acc : Q) :
  (fold_left Qplus l acc == acc + Qsum l)%Q.
Proof.
  revert acc. induction l as [|x l IH]; intros acc; simpl.
  - lra.
  - rewrite IH. lra.
Qed.

Lemma py_sum_Qsum (l : list Q) : (py_sum l == Qsum l)%Q.
Proof. unfold py_sum. rewrite fold_left_Qplus. lra. Qed.

Lemma round_half_even_compat (x y : Q) :
  (x == y)%Q -> round_half_even x = round_half_even y.
Proof.
  intros H. unfold round_half_even.
  rewrite (Qfloor_comp _ _ H).
  assert (E : ((x - inject_Z (Qfloor y)) ?= (1 # 2))%Q
              = ((y - inject_Z (Qfloor y)) ?= (1 # 2))%Q).
  { apply Qcompare_comp; [rewrite H|]; reflexivity. }
  rewrite E. reflexivity.
Qed.

Lemma round2_compat (x y : Q) : (x == y)%Q -> round2 x = round2 y.
Proof.
  intros H. unfold round2. f_equal.
  apply round_half_even_compat. rewrite H. reflexivity.
Qed.

Lemma Qgt_bool_true (x y : Q) : Qgt_bool x y = true <-> (y < x)%Q.
Proof.
  unfold Qgt_bool. rewrite negb_true_iff.
  split; intros H.
  - apply Qnot_le_lt. intros Hle. apply Qle_bool_iff in Hle. congruence.
  - destruct (Qle_bool x y) eqn:E; [|reflexivity].
    apply Qle_bool_iff in E. lra.
Qed.

Lemma Qgt_bool_false (x y : Q) : Qgt_bool x y = false <-> (x <= y)%Q.
Proof.
  unfold Qgt_bool. rewrite negb_false_iff. apply Qle_bool_iff.
Qed.

(** ** The error monad *)

Lemma bind_Ok {A B : Type} (r : result A) (k : A -> result B) (b : B) :
  bind r k = Ok b -> exists a, r = Ok a /\ k a = Ok b.
Proof. destruct r as [a|e]; simpl; [eauto|discriminate]. Qed.

Lemma map_result_Ok {A B : Type} (f : A -> result B) (l : list A) (ys : list B) :
  map_result f l = Ok ys -> Forall2 (fun x y => f x = Ok y) l ys.
Proof.
  revert ys. induction l as [|x l IH]; simpl; intros ys H.
  - inversion H; constructor.
  - apply bind_Ok in H as (y & Hy & H).
    apply bind_Ok in H as (ys' & Hys & H).
    inversion H; subst. constructor; auto.
Qed.

Lemma map_result_total {A B : Type} (f : A -> result B) (l : list A) :
  Forall (fun x => exists y, f x = Ok y) l -> exists ys, map_result f l = Ok ys.
Proof.
  induction 1 as [|x l [y Hy] _ [ys Hys]]; simpl.
  - eauto.
  - rewrite Hy, Hys. simpl. eauto.
Qed.

Lemma get_expected_points_key (p : player) (v : Q) :
  get_expected_points p = Ok v -> points_key p = v /\ expected_points p = Some v.
Proof.
  unfold get_expected_points, points_key.
  destruct (expected_points p); intros H; inversion H; auto.
Qed.

Lemma map_result_points (l : list player) (points : list Q) :
  map_result get_expected_points l = Ok points -> points = map points_key l.
Proof.
  intros H. apply map_result_Ok in H.
  induction H as [|p v l vs Hp _ IH]; simpl; [reflexivity|].
  apply get_expected_points_key in Hp as [-> _]. now f_equal.
Qed.

(** ** sorted(..., reverse=True) and max(..., key=...) *)

Section Sorting.

Context {A : Type} (key : A -> Q).

Lemma insert_desc_perm (x : A) (l : list A) :
  Permutation (insert_desc key x l) (x :: l).
Proof.
  induction l as [|y l IH]; simpl.
  - reflexivity.
  - destruct (Qle_bool (key y) (key x)).
    + reflexivity.
    + rewrite IH. apply perm_swap.
Qed.

Lemma sorted_desc_perm (l : list A) : Permutation (sorted_desc key l) l.
Proof.
  induction l as [|x l IH]; simpl.
  - reflexivity.
  - rewrite insert_desc_perm. now constructor.
Qed.

Lemma insert_desc_sorted (x : A) (l : list A) :
  descending key l -> descending key (insert_desc key x l).
Proof.
  unfold descending.
  induction 1 as [|y l Hs IH Hy]; simpl.
  - repeat constructor.
  - destruct (Qle_bool (key y) (key x)) eqn:E.
    + apply Qle_bool_iff in E.
      constructor; [now constructor|].
      constructor; [exact E|].
      eapply Forall_impl; [|exact Hy].
      intros z Hz. simpl in Hz. lra.
    + assert (Hlt : (key x < key y)%Q).
      { apply Qgt_bool_true. unfold Qgt_bool. now rewrite E. }
      constructor; [exact IH|].
      rewrite (Forall_forall (fun b => (key b <= key y)%Q)).
      intros z Hz.
      apply (Permutation_in _ (insert_desc_perm x l)) in Hz.
      destruct Hz as [<-|Hz]; [lra|].
      rewrite Forall_forall in Hy. now apply Hy.
Qed.

Lemma sorted_desc_sorted (l : list A) : descending key (sorted_desc key l).
Proof.
  induction l as [|x l IH]; simpl.
  - constructor.
  - now apply insert_desc_sorted.
Qed.

Lemma first_max_ge (m : A) (l : list A) (y : A) :
  first_max key m l -> In y l -> (key y <= key m)%Q.
Proof.
  intros (l1 & l2 & -> & H1 & H2) Hy.
  apply in_app_or in Hy as [Hy|[<-|Hy]].
  - apply Qlt_le_weak. auto.
  - lra.
  - auto.
Qed.

Lemma py_max_first (x : A) (l : list A) : first_max key (py_max key x l) (x :: l).
Proof.
  revert x. induction l as [|y l IH]; intros x; simpl.
  - exists [], []. repeat split; simpl; intros ? [].
  - destruct (Qle_bool (key y) (key x)) eqn:E.
    + apply Qle_bool_iff in E.
      destruct (IH x) as (l1 & l2 & Heq & H1 & H2).
      remember (py_max key x l) as m eqn:Hm. clear Hm.
      destruct l1 as [|z l1]; simpl in Heq; injection Heq as -> ->.
      * exists [], (y :: l2). repeat split.
        -- intros ? [].
        -- intros z [<-|Hz]; [exact E|]. now apply H2.
      * exists (z :: y :: l1), l2. repeat split.
        -- assert (Hz : (key z < key m)%Q) by (apply H1; now left).
           intros w [<-|[<-|Hw]]; [exact Hz|lra|].
           apply H1. now right.
        -- exact H2.
    + assert (Hlt : (key x < key y)%Q).
      { apply Qgt_bool_true. unfold Qgt_bool. now rewrite E. }
      destruct (IH y) as (l1 & l2 & Heq & H1 & H2).
      remember (py_max key y l) as m eqn:Hm. clear Hm.
      exists (x :: l1), l2. repeat split.
      * simpl. now rewrite <- Heq.
      * intros w [<-|Hw]; [|now apply H1].
        destruct l1 as [|z l1]; simpl in Heq; injection Heq as -> ->.
        -- exact Hlt.
        -- assert (key z < key m)%Q by (apply H1; now left).
           lra.
      * exact H2.
Qed.

Lemma sorted_desc_head_first (x : A) (l : list A) :
  exists m rest, sorted_desc key (x :: l) = m :: rest /\ first_max key m (x :: l).
Proof.
  revert x. induction l as [|y l IH]; intros x.
  - exists x, []. split; [reflexivity|].
    exists [], []. repeat split; simpl; intros ? [].
  - destruct (IH y) as (m & rest & Hs & Hm).
    change (sorted_desc key (x :: y :: l))
      with (insert_desc key x (sorted_desc key (y :: l))).
    rewrite Hs. simpl.
    destruct (Qle_bool (key m) (key x)) eqn:E.
    + apply Qle_bool_iff in E.
      exists x, (m :: rest). split; [reflexivity|].
      exists [], (y :: l). repeat split.
      * intros ? [].
      * intros z Hz. pose proof (first_max_ge _ _ _ Hm Hz). lra.
    + assert (Hlt : (key x < key m)%Q).
      { apply Qgt_bool_true. unfold Qgt_bool. now rewrite E. }
      exists m, (insert_desc key x rest). split; [reflexivity|].
      destruct Hm as (l1 & l2 & Heq & H1 & H2).
      exists (x :: l1), l2. repeat split.
      * simpl. now rewrite Heq.
      * intros w [<-|Hw]; [exact Hlt|now apply H1].
      * exact H2.
Qed.

Lemma first_max_unique (m m' : A) (l : list A) :
  first_max key m l -> first_max key m' l -> m = m'.
Proof.
  intros (l1 & l2 & Heq & H1 & H2) (l1' & l2' & Heq' & H1' & H2').
  rewrite Heq in Heq'.
  apply app_eq_app in Heq' as [k [[Ha Hb]|[Ha Hb]]].
  - destruct k as [|z k]; simpl in Hb.
    + now injection Hb.
    + injection Hb as <- Hb.
      assert (key m' < key m)%Q.
      { apply H1. rewrite Ha. apply in_or_app. right. now left. }
      assert (key m <= key m')%Q.
      { apply H2'. rewrite Hb. apply in_or_app. right. now left. }
      lra.
  - destruct k as [|z k]; simpl in Hb.
    + now injection Hb.
    + injection Hb as <- Hb.
      assert (key m < key m')%Q.
      { apply H1'. rewrite Ha. apply in_or_app. right. now left. }
      assert (key m' <= key m)%Q.
      { apply H2. rewrite Hb. apply in_or_app. right. now left. }
      lra.
Qed.

(** [max] returns the head of the descending key stable sort. *)
Lemma sorted_desc_head_max (x : A) (l : list A) :
  exists rest, sorted_desc key (x :: l) = py_max key x l :: rest.
Proof.
  destruct (sorted_desc_head_first x l) as (m & rest & Hs & Hm).
  exists rest. rewrite Hs. f_equal.
  eapply first_max_unique; [exact Hm|apply py_max_first].
Qed.

End Sorting.

(** ** Evaluating the PuLP expressions *)

Lemma lp_value_lpSum (a : LpVariable -> Z) (l : list LpAffineExpression) :
  lp_value a (lpSum l) = Qsum (map (lp_value a) l).
Proof.
  induction l as [|e l IH]; simpl; [reflexivity|].
  now rewrite <- IH.
Qed.

Lemma lp_vars_lpSum (l : list LpAffineExpression) :
  lp_vars (lpSum l) = flat_map lp_vars l.
Proof.
  induction l as [|e l IH]; simpl; [reflexivity|].
  now rewrite <- IH.
Qed.

(** The value depends on the variables of the expression only. *)
Lemma lp_value_ext (a a' : LpVariable -> Z) (e : LpAffineExpression) :
  (forall v, In v (lp_vars e) -> a v = a' v) -> lp_value a e = lp_value a' e.
Proof.
  induction e as [v|q|e1 IH1 e2 IH2|e1 IH1 e2 IH2|e IH q]; simpl; intros H.
  - rewrite H; [reflexivity|now left].
  - reflexivity.
  - rewrite IH1, IH2; auto; intros v Hv; apply H, in_or_app; auto.
  - rewrite IH1, IH2; auto; intros v Hv; apply H, in_or_app; auto.
  - rewrite IH; auto.
Qed.

Lemma dict_keys_from_nodup (seen l : list Z) :
  NoDup l -> (forall x, In x l -> ~ In x seen) -> dict_keys_from seen l = l.
Proof.
  intros Hnd. revert seen.
  induction Hnd as [|x l Hx Hnd IH]; intros seen Hseen; simpl; [reflexivity|].
  destruct (existsb (Z.eqb x) seen) eqn:E.
  - apply existsb_exists in E as (y & Hy & Hxy).
    apply Z.eqb_eq in Hxy. subst y.
    exfalso. apply (Hseen x); [now left|exact Hy].
  - f_equal. apply IH.
    intros y Hy [<-|Hin]; [contradiction|].
    apply (Hseen y); [now right|exact Hin].
Qed.

Lemma dict_keys_nodup (l : list Z) : NoDup l -> dict_keys l = l.
Proof. intros H. apply dict_keys_from_nodup; auto. Qed.

Lemma binary_cases (x : Z) : (x =? 0) || (x =? 1) = true -> x = 0 \/ x = 1.
Proof.
  rewrite orb_true_iff, !Z.eqb_eq. tauto.
Qed.

Lemma Select_binary : binary_family Select.
Proof. intros i x. apply binary_cases. Qed.

Lemma Keep_binary : binary_family Keep.
Proof. intros i x. apply binary_cases. Qed.

Lemma Buy_binary : binary_family Buy.
Proof. intros i x. apply binary_cases. Qed.

Lemma Select2_binary : binary_family Select2.
Proof. intros i x. apply binary_cases. Qed.

Lemma binary_on_incl a mk (l l' : list player) :
  incl l' l -> binary_on a mk l -> binary_on a mk l'.
Proof. intros Hi H p Hp. apply H, Hi, Hp. Qed.

Lemma values_sum_nodup (mk : Z -> LpVariable) (l : list player) :
  NoDup (map pid l) -> values_sum mk l = var_sum mk l.
Proof.
  intros H. unfold values_sum, var_sum.
  rewrite (dict_keys_nodup _ H), map_map. reflexivity.
Qed.

Lemma lp_vars_var_sum (mk : Z -> LpVariable) (l : list player) :
  lp_vars (var_sum mk l) = map (fun p => mk (pid p)) l.
Proof.
  unfold var_sum. rewrite lp_vars_lpSum.
  induction l as [|p l IH]; simpl; [reflexivity|now rewrite IH].
Qed.

Lemma inject_Z_length_cons {A : Type} (x : A) (l : list A) :
  (inject_Z (Z.of_nat (length (x :: l))) == 1 + inject_Z (Z.of_nat (length l)))%Q.
Proof.
  simpl length. rewrite Nat2Z.inj_succ, <- Z.add_1_l, inject_Z_plus. reflexivity.
Qed.

(** A sum of binary variables counts the players whose variable is 1. *)
Lemma var_sum_count a mk (l : list player) :
  binary_on a mk l ->
  (lp_value a (var_sum mk l) == inject_Z (Z.of_nat (length (chosen a mk l))))%Q.
Proof.
  unfold var_sum. rewrite lp_value_lpSum.
  induction l as [|p l IH]; intros Hb.
  - reflexivity.
  - simpl map. simpl Qsum. unfold chosen in *. simpl filter.
    rewrite IH by (intros q Hq; apply Hb; now right).
    simpl lp_value.
    destruct (Hb p (or_introl eq_refl)) as [E|E]; rewrite E; simpl (_ =? _); cbv iota.
    + change (inject_Z 0) with 0%Q. lra.
    + rewrite inject_Z_length_cons. reflexivity.
Qed.

(** A weighted sum of binary variables adds the weights of the chosen. *)
Lemma weighted_sum_chosen a mk (w : player -> Q) (l : list player) :
  binary_on a mk l ->
  (lp_value a (lpSum (map (fun p => LpMul (LpVar (mk (pid p))) (w p)) l))
   == Qsum (map w (chosen a mk l)))%Q.
Proof.
  rewrite lp_value_lpSum.
  induction l as [|p l IH]; intros Hb.
  - reflexivity.
  - simpl map. simpl Qsum. unfold chosen in *. simpl filter.
    rewrite IH by (intros q Hq; apply Hb; now right).
    simpl lp_value.
    destruct (Hb p (or_introl eq_refl)) as [E|E]; rewrite E; simpl (_ =? _); cbv iota.
    + change (inject_Z 0) with 0%Q. lra.
    + simpl map. simpl Qsum. change (inject_Z 1) with 1%Q. lra.
Qed.

Lemma sold_count a (cur : list player) :
  binary_on a Keep cur ->
  (lp_value a (lpSum (map (fun p => LpSub (LpConst 1) (LpVar (Keep (pid p)))) cur))
   == inject_Z (Z.of_nat (length (released a cur))))%Q.
Proof.
  rewrite lp_value_lpSum.
  induction cur as [|p l IH]; intros Hb.
  - reflexivity.
  - simpl map. simpl Qsum. unfold released in *. simpl filter.
    rewrite IH by (intros q Hq; apply Hb; now right).
    simpl lp_value.
    destruct (Hb p (or_introl eq_refl)) as [E|E]; rewrite E; simpl negb; cbv iota.
    + rewrite inject_Z_length_cons. change (inject_Z 0) with 0%Q. lra.
    + change (inject_Z 1) with 1%Q. lra.
Qed.

Lemma sold_value_released a (cur : list player) :
  binary_on a Keep cur ->
  (lp_value a
     (lpSum (map (fun p => LpMul (LpSub (LpConst 1) (LpVar (Keep (pid p)))) (price p))
                 cur))
   == Qsum (map price (released a cur)))%Q.
Proof.
  rewrite lp_value_lpSum.
  induction cur as [|p l IH]; intros Hb.
  - reflexivity.
  - simpl map. simpl Qsum. unfold released in *. simpl filter.
    rewrite IH by (intros q Hq; apply Hb; now right).
    simpl lp_value.
    destruct (Hb p (or_introl eq_refl)) as [E|E]; rewrite E; simpl negb; cbv iota.
    + simpl map. simpl Qsum. change (inject_Z 0) with 0%Q. lra.
    + change (inject_Z 1) with 1%Q. lra.
Qed.

Lemma released_kept_length a (cur : list player) :
  (length (released a cur) + length (chosen a Keep cur) = length cur)%nat.
Proof.
  unfold released, chosen.
  induction cur as [|p l IH]; simpl; [reflexivity|].
  destruct (a (Keep (pid p)) =? 1); simpl; lia.
Qed.

Lemma chosen_incl a mk (l : list player) : incl (chosen a mk l) l.
Proof. intros p Hp. apply filter_In in Hp. tauto. Qed.

Lemma chosen_having a mk (f : player -> Z) (x : Z) (l : list player) :
  chosen a mk (having f x l) = having f x (chosen a mk l).
Proof.
  unfold chosen, having.
  induction l as [|p l IH]; simpl; [reflexivity|].
  destruct (f p =? x) eqn:E1; destruct (a (mk (pid p)) =? 1) eqn:E2; simpl;
    rewrite ?E1, ?E2, IH; reflexivity.
Qed.

Lemma having_app (f : player -> Z) (x : Z) (l1 l2 : list player) :
  having f x (l1 ++ l2) = having f x l1 ++ having f x l2.
Proof. apply filter_app. Qed.

Lemma having_incl (f : player -> Z) (x : Z) (l : list player) :
  incl (having f x l) l.
Proof. intros p Hp. apply filter_In in Hp. tauto. Qed.

(** Reading a feasible assignment. *)
Lemma feasible_domain (P : LpProblem) a v :
  lp_feasible P a -> In v (problem_vars P) -> in_domain v (a v) = true.
Proof.
  unfold lp_feasible, lp_feasibleb. rewrite andb_true_iff, forallb_forall.
  intros [H _]. apply H.
Qed.

Lemma feasible_holds (P : LpProblem) a c :
  lp_feasible P a -> In c (constraints P) -> holds a c = true.
Proof.
  unfold lp_feasible, lp_feasibleb. rewrite andb_true_iff, !forallb_forall.
  intros [_ H]. apply H.
Qed.

Lemma constraint_vars_problem (P : LpProblem) c v :
  In c (constraints P) -> In v (constraint_vars c) -> In v (problem_vars P).
Proof.
  intros Hc Hv. unfold problem_vars. apply in_or_app. right.
  apply in_flat_map. eauto.
Qed.

Lemma holds_eq_const a e (k : Z) :
  holds a (LpEq e (LpConst (inject_Z k))) = true ->
  forall n : nat, (lp_value a e == inject_Z (Z.of_nat n))%Q -> Z.of_nat n = k.
Proof.
  simpl. intros H n Hn. apply Qeq_bool_iff in H.
  rewrite Hn in H. exact (proj1 (inject_Z_injective _ _) H).
Qed.

(** ** The lineup of a feasible answer *)

Lemma lineup_binary (selected : list player) (expected : gmap Z Q)
    (formation : Z * Z * Z) a :
  lp_feasible (lineup_problem selected expected formation) a ->
  binary_on a Select2 selected.
Proof.
  intros Hf p Hp. apply (Select2_binary (pid p)).
  apply (feasible_domain _ _ _ Hf).
  destruct formation as [[d m] f].
  eapply constraint_vars_problem; [now left|].
  simpl. apply in_or_app. left.
  rewrite lp_vars_var_sum. apply in_map_iff. eauto.
Qed.

Lemma lineup_feasible_counts (selected : list player) (expected : gmap Z Q)
    (d m f : Z) a :
  lp_feasible (lineup_problem selected expected (d, m, f)) a ->
  let lineup := lineup_of a selected in
  length lineup = 11%nat /\ counts 1 lineup = 1 /\ counts 2 lineup = d
  /\ counts 3 lineup = m /\ counts 4 lineup = f.
Proof.
  intros Hf lineup. subst lineup.
  pose proof (lineup_binary _ _ _ _ Hf) as Hb.
  assert (Hpos : forall pos (k : Z),
             In (LpEq (var_sum Select2 (having element_type pos selected))
                      (LpConst (inject_Z k)))
                (constraints (lineup_problem selected expected (d, m, f))) ->
             counts pos (lineup_of a selected) = k).
  { intros pos k Hin. unfold counts, lineup_of.
    rewrite <- chosen_having.
    eapply holds_eq_const.
    - apply (feasible_holds _ _ _ Hf Hin).
    - apply var_sum_count. eapply binary_on_incl; [apply having_incl|exact Hb]. }
  split; [|repeat split].
  - apply Nat2Z.inj. unfold lineup_of.
    apply (holds_eq_const a (var_sum Select2 selected) 11).
    + apply (feasible_holds _ _ _ Hf). now left.
    + now apply var_sum_count.
  - apply Hpos. right. now left.
  - apply Hpos. do 2 right. now left.
  - apply Hpos. do 3 right. now left.
  - apply Hpos. do 4 right. now left.
Qed.

Lemma NoDup_map_filter {A B : Type} (f : A -> B) (g : A -> bool) (l : list A) :
  NoDup (map f l) -> NoDup (map f (filter g l)).
Proof.
  induction l as [|x l IH]; simpl; intros H; [constructor|].
  inversion H as [|? ? Hx Hl]; subst.
  destruct (g x); simpl; auto.
  constructor; auto.
  intros Hin. apply Hx.
  apply in_map_iff in Hin as (y & Hy & Hin).
  apply filter_In in Hin as [Hin _].
  apply in_map_iff. eauto.
Qed.

Lemma NoDup_map_inv {A B : Type} (f : A -> B) (l : list A) :
  NoDup (map f l) -> NoDup l.
Proof.
  induction l as [|x l IH]; simpl; intros H; constructor;
    inversion H as [|? ? Hx Hl]; subst; auto.
  intros Hin. apply Hx. now apply in_map.
Qed.

(** ** The loop over the formations *)

Section LineupLoop.

Variable solver : LpProblem -> LpSolution.
Variable selected : list player.
Variable expected : gmap Z Q.
Variable chip : option chip_name.

Lemma solved_with_fun f l1 t1 l2 t2 :
  solved_with solver selected expected chip f l1 t1 -> solved_with solver selected expected chip f l2 t2 -> l1 = l2 /\ t1 = t2.
Proof.
  intros (_ & -> & H1) (_ & -> & H2). split; [reflexivity|congruence].
Qed.

Lemma lineup_step_cases (best best' : lineup_choice) (f : Z * Z * Z) :
  lineup_step solver selected expected chip best f = Ok best' ->
  (best' = best
   /\ forall lineup t, solved_with solver selected expected chip f lineup t -> (t <= best_proj best)%Q)
  \/ (picked solver selected expected chip f best' /\ (best_proj best < best_proj best')%Q).
Proof.
  unfold lineup_step.
  destruct (negb (forallb (has_points expected) selected)); [discriminate|].
  destruct (is_optimal (status (solver (lineup_problem selected expected f)))) eqn:Hs.
  - intros H. apply bind_Ok in H as (t & Ht & H).
    destruct (Qgt_bool t (best_proj best)) eqn:Hgt.
    + apply bind_Ok in H as (c & Hc & H). inversion H; subst. clear H.
      right. split.
      * exists (lineup_of (varValue (solver (lineup_problem selected expected f)))
                          selected), t, c.
        repeat split; auto.
      * simpl. now apply Qgt_bool_true.
    + inversion H; subst. left. split; [reflexivity|].
      intros lineup t' (_ & -> & Ht').
      rewrite Ht in Ht'. inversion Ht'; subst.
      now apply Qgt_bool_false.
  - intros H. inversion H; subst. left. split; [reflexivity|].
    intros lineup t (Hopt & _). congruence.
Qed.

Lemma picked_proj f best lineup t :
  picked solver selected expected chip f best -> solved_with solver selected expected chip f lineup t ->
  best_proj best = t /\ best_lineup best = lineup /\ best_form best = Some f.
Proof.
  intros (l' & t' & c & Hs & _ & ->) Hs'.
  destruct (solved_with_fun _ _ _ _ _ Hs Hs') as [-> ->]. auto.
Qed.

Lemma lineup_loop_cases (fs : list (Z * Z * Z)) (best best' : lineup_choice) :
  for_each (lineup_step solver selected expected chip) fs best = Ok best' ->
  (best' = best
   /\ forall f, In f fs ->
        forall lineup t, solved_with solver selected expected chip f lineup t -> (t <= best_proj best)%Q)
  \/ (exists fs1 f fs2,
        fs = fs1 ++ f :: fs2
        /\ picked solver selected expected chip f best'
        /\ (best_proj best < best_proj best')%Q
        /\ (forall g, In g fs1 ->
              forall lineup t, solved_with solver selected expected chip g lineup t -> (t < best_proj best')%Q)
        /\ (forall g, In g fs2 ->
              forall lineup t, solved_with solver selected expected chip g lineup t -> (t <= best_proj best')%Q)).
Proof.
  revert best. induction fs as [|f fs IH]; intros best; simpl.
  - intros H. inversion H; subst. left. split; [reflexivity|]. intros ? [].
  - intros H. apply bind_Ok in H as (b1 & Hstep & Hrest).
    apply lineup_step_cases in Hstep.
    apply IH in Hrest.
    destruct Hrest as [[-> Hle]|(fs1 & g & fs2 & -> & Hp & Hlt & H1 & H2)].
    + destruct Hstep as [[-> Hf]|[Hp Hlt]].
      * left. split; [reflexivity|].
        intros g [<-|Hg]; [exact Hf|now apply Hle].
      * right. exists [], f, fs. repeat split; auto.
        intros ? [].
    + right. exists (f :: fs1), g, fs2.
      destruct Hstep as [[-> Hf]|[Hpf Hltf]].
      * repeat split; auto.
        intros h [<-|Hh]; [|now apply H1].
        intros lineup t Hs. eapply Qle_lt_trans; [exact (Hf _ _ Hs)|exact Hlt].
      * repeat split; auto; [eapply Qlt_trans; eassumption|].
        intros h [<-|Hh]; [|now apply H1].
        intros lineup t Hs.
        destruct (picked_proj _ _ _ _ Hpf Hs) as [E _]. now rewrite <- E.
Qed.

End LineupLoop.

(** ** The loop returns *)

Lemma projected_total_returns (selected lineup : list player)
    (chip : option chip_name) :
  Forall (fun p => expected_points p <> None) selected ->
  incl lineup selected ->
  exists t, projected_total selected lineup chip = Ok t.
Proof.
  intros Hattr Hincl. rewrite Forall_forall in Hattr.
  assert (Hget : forall l, incl l selected ->
                           exists points, map_result get_expected_points l = Ok points).
  { intros l Hl. apply map_result_total. apply Forall_forall.
    intros p Hp. unfold get_expected_points.
    pose proof (Hattr p (Hl p Hp)) as Hne.
    destruct (expected_points p) as [v|]; [eauto|now elim Hne]. }
  unfold projected_total.
  destruct (Hget lineup Hincl) as (points & ->). simpl bind.
  destruct chip as [[| | |]|]; try (eexists; reflexivity).
  destruct (Hget (filter (fun p => negb (player_in p lineup)) selected))
    as (bench & ->); [|eexists; reflexivity].
  intros p Hp. apply filter_In in Hp. tauto.
Qed.

(** X14.  With a dictionary entry and an [expected_points] value for every
    squad member and a solver whose [Optimal] answers are feasible, the
    Lineup Selector raises no exception: it returns a choice. *)
Lemma optimize_lineup_returns (solver : LpProblem -> LpSolution)
    (selected : list player) (expected : gmap Z Q) (chip : option chip_name) :
  forallb (has_points expected) selected = true ->
  Forall (fun p => expected_points p <> None) selected ->
  (forall f, In f formations ->
             sound_on solver (lineup_problem selected expected f)) ->
  exists best, optimize_lineup solver selected expected chip = Ok best.
Proof.
  intros Hpts Hattr Hsound. unfold optimize_lineup.
  generalize no_choice as best. revert Hsound.
  generalize formations as fs.
  induction fs as [|f fs IH]; intros Hsound best; simpl; [eauto|].
  assert (Hstep : exists b1, lineup_step solver selected expected chip best f = Ok b1).
  { unfold lineup_step. rewrite Hpts. simpl negb. cbv iota.
    destruct (is_optimal (status (solver (lineup_problem selected expected f))))
      eqn:Hs; [|eauto].
    set (lineup := lineup_of _ selected).
    destruct (projected_total_returns selected lineup chip Hattr) as (t & ->);
      [apply chosen_incl|].
    simpl bind. destruct (Qgt_bool t (best_proj best)); [|eauto].
    destruct f as [[d m] fw].
    destruct (lineup_feasible_counts selected expected d m fw _
                (Hsound _ (or_introl eq_refl) Hs)) as (Hlen & _).
    fold lineup in Hlen.
    destruct lineup as [|x l]; [discriminate Hlen|]. simpl. eauto. }
  destruct Hstep as (b1 & ->). simpl.
  apply IH. intros g Hg. apply Hsound. now right.
Qed.

(** ** A squad without points *)

Lemma Qsum_zero (l : list Q) : Forall (fun v => (v == 0)%Q) l -> (Qsum l == 0)%Q.
Proof.
  induction 1 as [|v l Hv _ IH]; simpl; [reflexivity|].
  rewrite Hv, IH. reflexivity.
Qed.

(** When every squad member's expected points are 0, every projected total
    is 0. *)
Lemma zero_points_total (selected lineup : list player) (chip : option chip_name) :
  Forall (fun p => exists v, expected_points p = Some v /\ (v == 0)%Q) selected ->
  incl lineup selected ->
  exists t, projected_total selected lineup chip = Ok t /\ (t == 0)%Q.
Proof.
  intros Hzero Hincl. rewrite Forall_forall in Hzero.
  assert (Hget : forall l, incl l selected ->
             exists points, map_result get_expected_points l = Ok points
                            /\ Forall (fun v => (v == 0)%Q) points).
  { induction l as [|p l IH]; intros Hl; simpl.
    - exists []. split; [reflexivity|constructor].
    - destruct (Hzero p (Hl p (or_introl eq_refl))) as (v & Hv & Hv0).
      destruct IH as (points & -> & Hpoints);
        [intros q Hq; apply Hl; now right|].
      unfold get_expected_points. rewrite Hv. simpl.
      exists (v :: points). split; [reflexivity|now constructor]. }
  unfold projected_total.
  destruct (Hget lineup Hincl) as (points & -> & Hpoints). simpl bind.
  assert (Hsum : (py_sum points == 0)%Q)
    by (rewrite py_sum_Qsum; now apply Qsum_zero).
  assert (Hbonus : (match sorted_desc (fun x => x) points with
                    | top :: _ => top * captain_factor chip
                    | [] => 0
                    end == 0)%Q).
  { pose proof (sorted_desc_perm (fun x => x) points) as Hperm.
    destruct (sorted_desc (fun x => x) points) as [|top rest]; [reflexivity|].
    assert (Htop : (top == 0)%Q).
    { rewrite Forall_forall in Hpoints. apply Hpoints.
      eapply Permutation_in; [exact Hperm|now left]. }
    rewrite Htop. ring. }
  assert (Hplain : (py_sum points
                    + match sorted_desc (fun x => x) points with
                      | top :: _ => top * captain_factor chip
                      | [] => 0
                      end == 0)%Q)
    by (rewrite Hsum, Hbonus; reflexivity).
  destruct chip as [[| | |]|]; try (eexists; split; [reflexivity|exact Hplain]).
  destruct (Hget (filter (fun p => negb (player_in p lineup)) selected))
    as (bench & -> & Hbench).
  { intros p Hp. apply filter_In in Hp. tauto. }
  eexists. split; [reflexivity|].
  rewrite Hplain, py_sum_Qsum, (Qsum_zero _ Hbench). reflexivity.
Qed.

Lemma for_each_fixed {A S : Type} (body : S -> A -> result S) (s : S) (l : list A) :
  (forall x, In x l -> body s x = Ok s) -> for_each body l s = Ok s.
Proof.
  induction l as [|x l IH]; intros Hl; simpl; [reflexivity|].
  rewrite (Hl x (or_introl eq_refl)). simpl.
  apply IH. intros y Hy. apply Hl. now right.
Qed.

(** So a squad whose expected points are all 0 gets the empty choice, whatever
    the solver answers. *)
Lemma zero_points_give_empty_lineup (solver : LpProblem -> LpSolution)
    (selected : list player) (expected : gmap Z Q) (chip : option chip_name) :
  forallb (has_points expected) selected = true ->
  Forall (fun p => exists v, expected_points p = Some v /\ (v == 0)%Q) selected ->
  optimize_lineup solver selected expected chip = Ok no_choice.
Proof.
  intros Hpts Hzero. unfold optimize_lineup. apply for_each_fixed. intros f _.
  unfold lineup_step. rewrite Hpts. simpl negb. cbv iota.
  destruct (is_optimal (status (solver (lineup_problem selected expected f))));
    [|reflexivity].
  destruct (zero_points_total selected
              (lineup_of (varValue (solver (lineup_problem selected expected f)))
                         selected)
              chip Hzero (chosen_incl _ _ _)) as (t & -> & Ht).
  simpl bind.
  assert (Hle : (t <= 0)%Q) by (rewrite Ht; apply Qle_refl).
  apply Qgt_bool_false in Hle. simpl best_proj. now rewrite Hle.
Qed.

(** ** The sample lineups *)

Lemma fresh_lineup_empty :
  optimize_lineup Sample.solver Sample.fresh_squad Sample.fresh_expected None
  = Ok no_choice.
Proof. vm_compute. reflexivity. Qed.

(** * The Lineup Selector *)

(** C10.  If every formation the solver can fill has a projected total of at
    most 0, the Lineup Selector returns normally with an empty lineup, no
    formation, a projected total of 0 and neither captain nor vice-captain. *)
Theorem nonpositive_totals_give_empty_lineup
    (solver : LpProblem -> LpSolution) (selected : list player)
    (expected : gmap Z Q) (chip : option chip_name) :
  forallb (has_points expected) selected = true ->
  (forall f, In f formations ->
     is_optimal (status (solver (lineup_problem selected expected f))) = true ->
     exists t,
       projected_total selected
         (lineup_of (varValue (solver (lineup_problem selected expected f))) selected)
         chip = Ok t
       /\ (t <= 0)%Q) ->
  optimize_lineup solver selected expected chip = Ok (mkChoice [] None 0%Q None None).
Proof.
  intros Hpts Hall. unfold optimize_lineup. fold no_choice.
  assert (Hstep : forall f, In f formations ->
            lineup_step solver selected expected chip no_choice f = Ok no_choice).
  { intros f Hf. unfold lineup_step. rewrite Hpts. simpl negb. cbv iota.
    destruct (is_optimal (status (solver (lineup_problem selected expected f)))) eqn:Hs;
      [|reflexivity].
    destruct (Hall f Hf Hs) as (t & Ht & Hle).
    rewrite Ht. simpl bind.
    apply Qgt_bool_false in Hle. simpl best_proj. now rewrite Hle. }
  revert Hstep. generalize formations as fs.
  induction fs as [|f fs IH]; intros Hstep; simpl; [reflexivity|].
  rewrite Hstep by now left. simpl.
  apply IH. intros g Hg. apply Hstep. now right.
Qed.

(** At the start of the season every expected-points value is 0. *)
Lemma nonpositive_totals_witness :
  forallb (has_points Sample.fresh_expected) Sample.fresh_squad = true
  /\ optimize_lineup Sample.solver Sample.fresh_squad Sample.fresh_expected None
     = Ok (mkChoice [] None 0%Q None None).
Proof.
  split; [vm_compute; reflexivity|].
  apply nonpositive_totals_give_empty_lineup.
  - vm_compute. reflexivity.
  - intros f Hf _.
    repeat (destruct Hf as [<-|Hf];
            [eexists; split; [vm_compute; reflexivity|vm_compute; discriminate]|]).
    destruct Hf.
Defined.

(** C8, as stated, fails at the start of the season: formation 3-5-2 comes
    first and no formation has a higher projected total (all are 0), yet no
    formation is returned. *)
Lemma first_highest_formation_not_always_returned :
  ~ (forall (solver : LpProblem -> LpSolution) (selected : list player)
            (expected : gmap Z Q) (chip : option chip_name) (best : lineup_choice)
            (fs1 : list (Z * Z * Z)) (f : Z * Z * Z) (fs2 : list (Z * Z * Z))
            (lineup : list player) (t : Q),
        formations = fs1 ++ f :: fs2 ->
        solved_with solver selected expected chip f lineup t ->
        (forall g, In g fs1 -> forall l' t',
            solved_with solver selected expected chip g l' t' -> (t' < t)%Q) ->
        (forall g, In g fs2 -> forall l' t',
            solved_with solver selected expected chip g l' t' -> (t' <= t)%Q) ->
        optimize_lineup solver selected expected chip = Ok best ->
        best_form best = Some f).
Proof.
  intros H.
  assert (Hs : exists t,
             solved_with Sample.solver Sample.fresh_squad Sample.fresh_expected None
               (3, 5, 2)
               (lineup_of (varValue (Sample.solver
                            (lineup_problem Sample.fresh_squad Sample.fresh_expected
                                            (3, 5, 2))))
                          Sample.fresh_squad) t
             /\ (t == 0)%Q).
  { eexists. split; [split; [reflexivity|split; [reflexivity|]]|];
      vm_compute; reflexivity. }
  destruct Hs as (t & Hs & Ht).
  specialize (H Sample.solver Sample.fresh_squad Sample.fresh_expected None
                no_choice [] (3, 5, 2) (tl formations) _ t eq_refl Hs).
  assert (Hnone : best_form no_choice = Some (3, 5, 2)); [|discriminate Hnone].
  apply H.
  - intros g [].
  - intros g Hg l' t' (_ & -> & Ht'). rewrite Ht.
    simpl in Hg.
    repeat (destruct Hg as [<-|Hg];
            [vm_compute in Ht'; injection Ht' as <-; vm_compute; discriminate|]).
    destruct Hg.
  - apply fresh_lineup_empty.
Qed.

(** C8, amended.  When the first formation reaching the highest projected
    total has a total above 0, it is the formation returned, with its lineup
    and its total: a later formation with the same total does not replace
    it. *)
Theorem first_highest_positive_formation_returned
    (solver : LpProblem -> LpSolution) (selected : list player)
    (expected : gmap Z Q) (chip : option chip_name) (best : lineup_choice)
    (fs1 : list (Z * Z * Z)) (f : Z * Z * Z) (fs2 : list (Z * Z * Z))
    (lineup : list player) (t : Q) :
  formations = fs1 ++ f :: fs2 ->
  solved_with solver selected expected chip f lineup t ->
  (0 < t)%Q ->
  (forall g, In g fs1 -> forall l' t',
      solved_with solver selected expected chip g l' t' -> (t' < t)%Q) ->
  (forall g, In g fs2 -> forall l' t',
      solved_with solver selected expected chip g l' t' -> (t' <= t)%Q) ->
  optimize_lineup solver selected expected chip = Ok best ->
  best_form best = Some f /\ best_lineup best = lineup /\ best_proj best = t.
Proof.
  intros Hsplit Hs Hpos Hbefore Hafter Hrun.
  apply lineup_loop_cases in Hrun.
  destruct Hrun as [[_ Hle]|(gs1 & g & gs2 & Hsplit' & Hp & _ & H1 & H2)].
  - exfalso.
    assert (Hin : In f formations)
      by (rewrite Hsplit; apply in_or_app; right; now left).
    pose proof (Hle f Hin _ _ Hs) as Ht. simpl in Ht.
    apply (Qlt_irrefl 0). eapply Qlt_le_trans; eassumption.
  - assert (Hfg : g = f).
    { rewrite Hsplit in Hsplit'.
      destruct Hp as (lg & tg & cg & Hsg & _ & Hbest).
      assert (Eg : best_proj best = tg) by (rewrite Hbest; reflexivity).
      apply app_eq_app in Hsplit' as [k [[Ha Hb]|[Ha Hb]]].
      - destruct k as [|z k]; simpl in Hb; injection Hb as -> Hb; [reflexivity|].
        exfalso.
        assert (Hlt : (tg < t)%Q).
        { eapply Hbefore; [|exact Hsg]. rewrite Ha.
          apply in_or_app. right. now left. }
        assert (Hge : (t <= best_proj best)%Q).
        { eapply H2; [|exact Hs]. rewrite Hb.
          apply in_or_app. right. now left. }
        rewrite Eg in Hge. apply (Qlt_irrefl t).
        eapply Qle_lt_trans; eassumption.
      - destruct k as [|z k]; simpl in Hb; injection Hb as -> Hb; [reflexivity|].
        exfalso.
        assert (Hlt : (t < best_proj best)%Q).
        { eapply H1; [|exact Hs]. rewrite Ha.
          apply in_or_app. right. now left. }
        assert (Hge : (tg <= t)%Q).
        { eapply Hafter; [|exact Hsg]. rewrite Hb.
          apply in_or_app. right. now left. }
        rewrite Eg in Hlt. apply (Qlt_irrefl t).
        eapply Qlt_le_trans; eassumption. }
    subst g.
    destruct (picked_proj _ _ _ _ _ _ _ _ Hp Hs) as (E1 & E2 & E3). auto.
Qed.

(** In the sample gameweek 3-5-2, 3-4-3 and 4-4-2 all reach 84 points before
    the captain bonus; 3-5-2 comes first and is returned. *)
Lemma first_highest_positive_witness :
  exists best lineup t l' t',
    optimize_lineup Sample.solver Sample.squad Sample.expected None = Ok best
    /\ (best_form best = Some (3, 5, 2) /\ best_lineup best = lineup
        /\ best_proj best = t)
    /\ (t == 108)%Q
    /\ solved_with Sample.solver Sample.squad Sample.expected None (3, 4, 3) l' t'
    /\ (t' == t)%Q.
Proof.
  do 5 eexists.
  split; [vm_compute; reflexivity|].
  split.
  - eapply (first_highest_positive_formation_returned
              Sample.solver Sample.squad Sample.expected None)
      with (fs1 := []) (fs2 := tl formations).
    + reflexivity.
    + split; [reflexivity|split; [reflexivity|vm_compute; reflexivity]].
    + vm_compute. reflexivity.
    + intros g [].
    + intros g Hg l' t' (_ & -> & Ht').
      simpl in Hg.
      repeat (destruct Hg as [<-|Hg];
              [vm_compute in Ht'; injection Ht' as <-; vm_compute; discriminate|]).
      destruct Hg.
    + reflexivity.
  - split; [vm_compute; reflexivity|].
    split; [split; [reflexivity|split; [reflexivity|vm_compute; reflexivity]]|].
    vm_compute. reflexivity.
Defined.

Lemma NoDup_by_computation (l : list Z) : distinctb l = true -> NoDup l.
Proof.
  induction l as [|x l IH]; simpl; intros H; constructor;
    apply andb_true_iff in H as [Hx Hl]; auto.
  intros Hin. apply negb_true_iff in Hx.
  assert (E : existsb (Z.eqb x) l = true); [|congruence].
  apply existsb_exists. exists x. split; [exact Hin|apply Z.eqb_refl].
Qed.

Lemma sample_ids_distinct : NoDup (map pid Sample.scored).
Proof. apply NoDup_by_computation. vm_compute. reflexivity. Qed.

Lemma fresh_ids_distinct : NoDup (map pid Sample.fresh_squad).
Proof. apply NoDup_by_computation. vm_compute. reflexivity. Qed.

Lemma sample_squad_ids_distinct : NoDup (map pid Sample.squad).
Proof. apply NoDup_by_computation. vm_compute. reflexivity. Qed.

Lemma sample_solver_sound (P : LpProblem) : sound_on Sample.solver P.
Proof.
  unfold sound_on, Sample.solver, lp_feasible. simpl.
  destruct (lp_feasibleb P (Sample.answer (Sample.formation_of P)));
    [reflexivity|discriminate].
Qed.

(** C5, as stated, fails at the start of the season: the lineup returned is
    empty although the solver fills every formation. *)
Lemma returned_lineup_not_always_eleven :
  ~ (forall (solver : LpProblem -> LpSolution) (selected : list player)
            (expected : gmap Z Q) (chip : option chip_name) (best : lineup_choice),
        NoDup (map pid selected) ->
        (forall f, In f formations ->
                   sound_on solver (lineup_problem selected expected f)) ->
        optimize_lineup solver selected expected chip = Ok best ->
        length (best_lineup best) = 11%nat).
Proof.
  intros H.
  specialize (H Sample.solver Sample.fresh_squad Sample.fresh_expected None no_choice
                fresh_ids_distinct (fun f _ => sample_solver_sound _) fresh_lineup_empty).
  discriminate H.
Qed.

(** C5, amended.  Every non-empty lineup returned has 11 members, one of them
    a goalkeeper, and the defender, midfielder and forward counts of the
    formation returned with it, which is one of the enumerated formations;
    the captain and the vice-captain are two different members, the captain's
    expected points are at least the vice-captain's, and the vice-captain's
    are at least those of every other member. *)
Theorem nonempty_lineup_is_valid
    (solver : LpProblem -> LpSolution) (selected : list player)
    (expected : gmap Z Q) (chip : option chip_name) (best : lineup_choice) :
  NoDup (map pid selected) ->
  (forall f, In f formations ->
             sound_on solver (lineup_problem selected expected f)) ->
  optimize_lineup solver selected expected chip = Ok best ->
  best_lineup best <> [] ->
  length (best_lineup best) = 11%nat
  /\ counts 1 (best_lineup best) = 1
  /\ (exists d m f,
         In (d, m, f) formations /\ best_form best = Some (d, m, f)
         /\ counts 2 (best_lineup best) = d
         /\ counts 3 (best_lineup best) = m
         /\ counts 4 (best_lineup best) = f)
  /\ Forall (fun q => expected_points q = Some (points_key q)) (best_lineup best)
  /\ exists captain vice,
       best_captain best = Some captain /\ best_vice best = Some vice
       /\ In captain (best_lineup best) /\ In vice (best_lineup best)
       /\ pid captain <> pid vice
       /\ (points_key vice <= points_key captain)%Q
       /\ forall q, In q (best_lineup best) -> q <> captain -> q <> vice ->
                    (points_key q <= points_key vice)%Q.
Proof.
  intros Hnd Hsound Hrun Hne.
  apply lineup_loop_cases in Hrun.
  destruct Hrun as [[-> _]|(fs1 & f & fs2 & Hsplit & Hp & _)];
    [now elim Hne|].
  destruct Hp as (lineup & t & captain & (Hopt & Hl & Ht) & Hcap & ->).
  simpl in *. clear Hne.
  assert (Hin : In f formations)
    by (rewrite Hsplit; apply in_or_app; right; now left).
  destruct f as [[d m] f].
  pose proof (lineup_feasible_counts _ _ _ _ _ _ (Hsound _ Hin Hopt)) as Hc.
  cbv zeta in Hc. rewrite <- Hl in Hc.
  destruct Hc as (Hlen & Hgk & Hd & Hm & Hf).
  split; [exact Hlen|]. split; [exact Hgk|].
  split; [exists d, m, f; auto|].
  assert (Hattr : Forall (fun q => expected_points q = Some (points_key q)) lineup).
  { unfold projected_total in Ht.
    apply bind_Ok in Ht as (points & Hpts & _).
    apply map_result_Ok in Hpts. clear - Hpts.
    induction Hpts as [|q v l vs Hq _ IH]; constructor; auto.
    apply get_expected_points_key in Hq as [-> Hq]. exact Hq. }
  split; [exact Hattr|].
  assert (Hndl : NoDup (map pid lineup)).
  { rewrite Hl. unfold lineup_of, chosen. now apply NoDup_map_filter. }
  destruct lineup as [|x l]; [discriminate Hlen|].
  simpl in Hcap. injection Hcap as <-.
  destruct (sorted_desc_head_max points_key x l) as (rest & Hsorted).
  pose proof (sorted_desc_perm points_key (x :: l)) as Hperm.
  pose proof (sorted_desc_sorted points_key (x :: l)) as Hdesc.
  unfold vice_of. rewrite Hsorted in *.
  destruct rest as [|vice rest].
  { apply Permutation_length in Hperm. simpl in Hperm, Hlen. lia. }
  exists (py_max points_key x l), vice.
  assert (Hndp : NoDup (map pid (py_max points_key x l :: vice :: rest))).
  { eapply Permutation_NoDup; [|exact Hndl].
    apply Permutation_map. now symmetry. }
  apply StronglySorted_inv in Hdesc as [Hrest Hhead].
  apply StronglySorted_inv in Hrest as [_ Hvice].
  rewrite Forall_forall in Hhead, Hvice.
  repeat split.
  - eapply Permutation_in; [exact Hperm|now left].
  - eapply Permutation_in; [exact Hperm|right; now left].
  - apply NoDup_cons_iff in Hndp as [Hnotin _].
    intros E. apply Hnotin. simpl. left. symmetry. exact E.
  - apply Hhead. now left.
  - intros q Hq Hqc Hqv.
    apply (Permutation_in _ (Permutation_sym Hperm)) in Hq.
    destruct Hq as [E|[E|Hq]];
      [elim Hqc; now symmetry|elim Hqv; now symmetry|].
    now apply Hvice.
Qed.

(** In the sample gameweek the lineup returned has 11 members; player 8 (12
    points) is captain and player 3, the first of those with 9 points, is
    vice-captain. *)
Lemma nonempty_lineup_witness :
  exists best,
    optimize_lineup Sample.solver Sample.squad Sample.expected None = Ok best
    /\ best_lineup best <> []
    /\ length (best_lineup best) = 11%nat
    /\ option_map pid (best_captain best) = Some 8
    /\ option_map pid (best_vice best) = Some 3.
Proof.
  assert (Hex : exists best,
             optimize_lineup Sample.solver Sample.squad Sample.expected None = Ok best
             /\ best_lineup best <> []
             /\ option_map pid (best_captain best) = Some 8
             /\ option_map pid (best_vice best) = Some 3).
  { eexists. split; [vm_compute; reflexivity|].
    split; [discriminate|]. split; vm_compute; reflexivity. }
  destruct Hex as (best & Hrun & Hne & Hcap & Hvice).
  exists best.
  destruct (nonempty_lineup_is_valid Sample.solver Sample.squad Sample.expected None
              best sample_squad_ids_distinct (fun f _ => sample_solver_sound _) Hrun Hne)
    as (Hlen & _).
  auto.
Defined.

(** ** Certificates of optimality on concrete problems *)

Lemma domain_bounds (v : LpVariable) (x : Z) :
  in_domain v x = true -> (0 <= inject_Z x)%Q /\ upper_bound v (inject_Z x).
Proof.
  intros H.
  assert (Hx : 0 <= x /\ (v <> ExtraTransfers -> x <= 1)).
  { destruct v; simpl in H;
      try (apply binary_cases in H; lia).
    apply Z.leb_le in H. split; [exact H|congruence]. }
  destruct Hx as [H0 H1]. split.
  - change 0%Q with (inject_Z 0). now rewrite <- Zle_Qle.
  - destruct v; simpl; auto;
      change 1%Q with (inject_Z 1); rewrite <- Zle_Qle; apply H1; discriminate.
Qed.

Lemma holds_spec a c : holds a c = true <-> holds_prop a c.
Proof.
  destruct c; simpl; [apply Qle_bool_iff|apply Qeq_bool_iff].
Qed.

Lemma feasible_facts (P : LpProblem) a :
  lp_feasible P a ->
  Forall (fun v => (0 <= inject_Z (a v))%Q /\ upper_bound v (inject_Z (a v)))
         (problem_vars P)
  /\ Forall (holds_prop a) (constraints P).
Proof.
  intros H. split; apply Forall_forall.
  - intros v Hv. apply domain_bounds. now apply (feasible_domain P).
  - intros c Hc. apply holds_spec. now apply (feasible_holds P).
Qed.

(** Turn the feasibility of [a] for an explicit problem into linear facts
    about the values of its variables. *)
Ltac lp_facts H :=
  apply feasible_facts in H;
  let Hd := fresh "Hd" in
  let Hc := fresh "Hc" in
  destruct H as [Hd Hc];
  cbv [problem_vars objective constraints lp_vars constraint_vars flat_map app] in Hd;
  cbv [constraints] in Hc;
  repeat (apply Forall_cons_iff in Hd as [[? ?] Hd]);
  repeat (apply Forall_cons_iff in Hc as [? Hc]);
  clear Hd Hc;
  cbv [upper_bound holds_prop] in *;
  cbn [lp_value objective] in *.

(** Prove [lp_optimal P a] for closed [P] and [a]: feasibility by
    evaluation, optimality from the linear relaxation. *)
Ltac lp_certify :=
  split;
  [ vm_compute; reflexivity
  | let a' := fresh "a'" in
    let H := fresh "H" in
    intros a' H;
    match goal with
    | |- (_ <= ?rhs)%Q => let r := eval vm_compute in rhs in change rhs with r
    end;
    match goal with
    | H : lp_feasible ?P _ |- _ =>
      let P' := eval vm_compute in P in change P with P' in *
    end;
    lp_facts H; lra ].

(** The answers of the sample solver are optimal. *)
Lemma sample_solver_optimal (f : Z * Z * Z) :
  In f formations ->
  lp_optimal (lineup_problem Sample.squad Sample.expected f)
             (varValue (Sample.solver (lineup_problem Sample.squad Sample.expected f))).
Proof.
  intros Hf. simpl in Hf.
  repeat (destruct Hf as [<-|Hf]; [lp_certify|]).
  destruct Hf.
Qed.

(** C1.  With the "triple captain" chip the code adds three times the top
    value to a lineup sum that already holds it once.  In the sample gameweek
    the winning lineup sums to 84 with a top scorer at 12: the projected
    total returned is 84 + 3 * 12 = 120, the top scorer counted four times,
    and not 84 + 2 * 12 = 108. *)
Theorem triple_captain_counts_top_scorer_four_times :
  exists best points,
    optimize_lineup Sample.solver Sample.squad Sample.expected (Some triple_captain)
    = Ok best
    /\ best_form best = Some (3, 5, 2)
    /\ map pid (best_lineup best) = [1; 3; 4; 5; 8; 9; 10; 11; 12; 13; 14]
    /\ map_result get_expected_points (best_lineup best) = Ok points
    /\ (py_sum points == 84)%Q
    /\ (hd 0%Q (sorted_desc (fun x => x) points) == 12)%Q
    /\ (best_proj best == 84 + 3 * 12)%Q
    /\ ~ (best_proj best == 84 + 2 * 12)%Q.
Proof.
  do 2 eexists.
  split; [vm_compute; reflexivity|].
  split; [reflexivity|].
  split; [reflexivity|].
  split; [vm_compute; reflexivity|].
  split; [vm_compute; reflexivity|].
  split; [vm_compute; reflexivity|].
  split; [vm_compute; reflexivity|].
  vm_compute. discriminate.
Qed.

(** The same squad in the loop of main.py, whose bonus is the top value
    once: 84 + 12, the captain counted twice. *)
Lemma main_script_counts_captain_twice :
  exists best,
    main_lineup_loop Sample.solver Sample.squad Sample.expected = Ok best
    /\ best_form best = Some (3, 5, 2)
    /\ (best_proj best == 84 + 12)%Q.
Proof.
  eexists. split; [vm_compute; reflexivity|].
  split; [reflexivity|vm_compute; reflexivity].
Qed.

(** Without a chip the bonus of test3.py is twice the top value: 84 + 2 * 12,
    the captain counted three times. *)
Lemma plain_captain_counts_three_times :
  exists best,
    optimize_lineup Sample.solver Sample.squad Sample.expected None = Ok best
    /\ (best_proj best == 84 + 2 * 12)%Q.
Proof.
  eexists. split; vm_compute; reflexivity.
Qed.

(** * The Squad Selector *)

Lemma team_ids_spec (c : Z) : In c team_ids <-> 1 <= c <= 20.
Proof.
  unfold team_ids. rewrite in_map_iff. split.
  - intros (n & <- & Hn). apply in_seq in Hn. lia.
  - intros Hc. exists (Z.to_nat c). split; [lia|]. apply in_seq. lia.
Qed.

Lemma current_squad_incl (avail : list player) (current_squad : list squad_entry) :
  incl (current_squad_players_of avail current_squad) avail.
Proof.
  intros p Hp. unfold current_squad_players_of in Hp.
  apply in_flat_map in Hp as (e & _ & Hp).
  destruct e as [i|]; [|destruct Hp].
  destruct (filter (fun q => pid q =? i) avail) as [|m l] eqn:E; [destruct Hp|].
  destruct Hp as [<-|[]].
  assert (Hm : In m (filter (fun q => pid q =? i) avail)) by (rewrite E; now left).
  apply filter_In in Hm. tauto.
Qed.

Lemma not_held_incl (cur avail : list player) : incl (not_held cur avail) avail.
Proof. intros p Hp. apply filter_In in Hp. tauto. Qed.

Lemma avail_has_points (players : list player) (expected : gmap Z Q) (p : player) :
  In p (avail_players_of players expected) ->
  In p players /\ has_points expected p = true.
Proof. apply filter_In. Qed.

Lemma holds_le_const a e (k : Z) :
  holds a (LpLe e (LpConst (inject_Z k))) = true ->
  forall n : nat, (lp_value a e == inject_Z (Z.of_nat n))%Q -> Z.of_nat n <= k.
Proof.
  simpl. intros H n Hn. apply Qle_bool_iff in H.
  rewrite Hn in H. rewrite Zle_Qle. exact H.
Qed.

Lemma rebuild_binary (avail : list player) (expected : gmap Z Q) a :
  NoDup (map pid avail) ->
  lp_feasible (rebuild_problem avail expected) a ->
  binary_on a Select avail.
Proof.
  intros Hnd Hf p Hp. apply (Select_binary (pid p)).
  apply (feasible_domain _ _ _ Hf).
  eapply constraint_vars_problem; [now left|].
  simpl. apply in_or_app. left.
  rewrite (values_sum_nodup _ _ Hnd), lp_vars_var_sum.
  apply in_map_iff. eauto.
Qed.

Lemma rebuild_pos_constraint (avail : list player) (expected : gmap Z Q)
    (pos count : Z) :
  In (pos, count) pos_counts ->
  In (LpEq (var_sum Select (having element_type pos avail)) (LpConst (inject_Z count)))
     (constraints (rebuild_problem avail expected)).
Proof.
  intros H. unfold rebuild_problem. cbn [constraints].
  do 2 right. apply in_or_app. left.
  apply (in_map (fun '(pos, count) =>
                   LpEq (var_sum Select (having element_type pos avail))
                        (LpConst (inject_Z count))) _ _ H).
Qed.

Lemma rebuild_team_constraint (avail : list player) (expected : gmap Z Q) (c : Z) :
  1 <= c <= 20 ->
  In (LpLe (var_sum Select (having team c avail)) (LpConst (inject_Z 3)))
     (constraints (rebuild_problem avail expected)).
Proof.
  intros H. unfold rebuild_problem. cbn [constraints].
  do 2 right. apply in_or_app. right.
  apply (in_map (fun team_id =>
                   LpLe (var_sum Select (having team team_id avail)) (LpConst 3))).
  now apply team_ids_spec.
Qed.

(** What a feasible answer to the full-rebuild problem selects. *)
Lemma rebuild_feasible_squad (avail : list player) (expected : gmap Z Q) a :
  NoDup (map pid avail) ->
  lp_feasible (rebuild_problem avail expected) a ->
  let squad := chosen a Select avail in
  length squad = 15%nat
  /\ (Qsum (map price squad) <= 100)%Q
  /\ counts 1 squad = 2 /\ counts 2 squad = 5
  /\ counts 3 squad = 5 /\ counts 4 squad = 3
  /\ forall c, 1 <= c <= 20 -> club_count c squad <= 3.
Proof.
  intros Hnd Hf squad. subst squad.
  pose proof (rebuild_binary _ _ _ Hnd Hf) as Hb.
  assert (Hpos : forall pos count, In (pos, count) pos_counts ->
                                   counts pos (chosen a Select avail) = count).
  { intros pos count Hin. unfold counts. rewrite <- chosen_having.
    apply (holds_eq_const a (var_sum Select (having element_type pos avail)) count).
    - apply (feasible_holds _ _ _ Hf). now apply rebuild_pos_constraint.
    - apply var_sum_count. eapply binary_on_incl; [apply having_incl|exact Hb]. }
  split; [|split; [|repeat split]].
  - apply Nat2Z.inj.
    apply (holds_eq_const a (var_sum Select avail) 15).
    + rewrite <- (values_sum_nodup _ _ Hnd).
      apply (feasible_holds _ _ _ Hf). now left.
    + now apply var_sum_count.
  - rewrite <- (weighted_sum_chosen a Select price avail Hb).
    apply Qle_bool_iff.
    apply (feasible_holds _ _ (LpLe _ (LpConst 100)) Hf). right. now left.
  - apply Hpos. now left.
  - apply Hpos. right. now left.
  - apply Hpos. do 2 right. now left.
  - apply Hpos. do 3 right. now left.
  - intros c Hc. unfold club_count. rewrite <- chosen_having.
    apply (holds_le_const a (var_sum Select (having team c avail)) 3).
    + apply (feasible_holds _ _ _ Hf). now apply rebuild_team_constraint.
    + apply var_sum_count. eapply binary_on_incl; [apply having_incl|exact Hb].
Qed.

Lemma full_rebuild_when (cur : list player) (current_squad : list squad_entry)
    (avail : list player) (chip : option chip_name) :
  current_squad = [] \/ unlimited_chip chip = true ->
  transfer_mode (current_squad_players_of avail current_squad) chip = false.
Proof.
  intros [->|H]; [reflexivity|].
  unfold transfer_mode. rewrite H.
  now destruct (current_squad_players_of avail current_squad).
Qed.

Lemma relocated_ids_distinct : NoDup (map pid Sample.relocated).
Proof. apply NoDup_by_computation. vm_compute. reflexivity. Qed.

(** With clubs 1 and 6 renumbered 21 the fifteen eligible players are still
    the best squad the problem allows. *)
Lemma relocated_answer_optimal :
  lp_optimal (squad_problem Sample.relocated Sample.expected [] 1 None)
             (varValue (Sample.solver
                          (squad_problem Sample.relocated Sample.expected [] 1 None))).
Proof. lp_certify. Qed.

(** C2, as stated, fails for a club numbered outside 1..20: the squad built
    from the feed with a 21st club holds four of its players. *)
Lemma club_limit_not_enforced_beyond_20 :
  ~ (forall (solver : LpProblem -> LpSolution) (players : list player)
            (expected : gmap Z Q) (current_squad : list squad_entry)
            (free_transfers : Z) (chip : option chip_name)
            (selected : list player) (total_cost squad_expected : Q),
        NoDup (map pid players) ->
        current_squad = [] \/ unlimited_chip chip = true ->
        sound_on solver
          (squad_problem players expected current_squad free_transfers chip) ->
        optimize_squad solver players expected current_squad free_transfers chip
        = Ok (selected, total_cost, squad_expected) ->
        forall c, club_count c selected <= 3).
Proof.
  intros H.
  assert (Hrun : exists selected total_cost squad_expected,
             optimize_squad Sample.solver Sample.relocated Sample.expected [] 1 None
             = Ok (selected, total_cost, squad_expected)
             /\ club_count 21 selected = 4).
  { do 3 eexists. split; vm_compute; reflexivity. }
  destruct Hrun as (selected & total_cost & squad_expected & Hrun & Hcount).
  specialize (H Sample.solver Sample.relocated Sample.expected [] 1 None
                selected total_cost squad_expected relocated_ids_distinct
                (or_introl eq_refl) (sample_solver_sound _) Hrun 21).
  lia.
Qed.

(** C2, amended.  A squad returned in full-rebuild mode has 15 players, costs
    at most 100.0, has 2 goalkeepers, 5 defenders, 5 midfielders and 3
    forwards, and holds at most 3 players of each club numbered 1 to 20. *)
Theorem rebuilt_squad_is_valid
    (solver : LpProblem -> LpSolution) (players : list player)
    (expected : gmap Z Q) (current_squad : list squad_entry)
    (free_transfers : Z) (chip : option chip_name)
    (selected : list player) (total_cost squad_expected : Q) :
  NoDup (map pid players) ->
  current_squad = [] \/ unlimited_chip chip = true ->
  sound_on solver (squad_problem players expected current_squad free_transfers chip) ->
  optimize_squad solver players expected current_squad free_transfers chip
  = Ok (selected, total_cost, squad_expected) ->
  length selected = 15%nat
  /\ (total_cost <= 100)%Q
  /\ counts 1 selected = 2 /\ counts 2 selected = 5
  /\ counts 3 selected = 5 /\ counts 4 selected = 3
  /\ forall c, 1 <= c <= 20 -> club_count c selected <= 3.
Proof.
  intros Hnd Hmode Hsound Hrun.
  unfold optimize_squad in Hrun. unfold sound_on, squad_problem in Hsound.
  unfold squad_problem in Hrun.
  rewrite (full_rebuild_when [] _ _ _ Hmode) in Hrun, Hsound.
  set (avail := avail_players_of players expected) in *.
  set (sol := solver (rebuild_problem avail expected)) in *.
  destruct (is_optimal (status sol)) eqn:Hs; [|discriminate Hrun].
  simpl negb in Hrun. cbv iota in Hrun.
  apply bind_Ok in Hrun as (points & _ & Hrun).
  injection Hrun as <- <- _.
  assert (Hnda : NoDup (map pid avail))
    by (unfold avail, avail_players_of; now apply NoDup_map_filter).
  destruct (rebuild_feasible_squad avail expected (varValue sol) Hnda (Hsound eq_refl))
    as (Hlen & Hcost & Hrest).
  split; [exact Hlen|]. split; [|exact Hrest].
  rewrite py_sum_Qsum. exact Hcost.
Qed.

(** The sample gameweek: the fifteen eligible players cost exactly 100.0. *)
Lemma rebuilt_squad_witness :
  exists selected total_cost squad_expected,
    optimize_squad Sample.solver Sample.scored Sample.expected [] 1 None
    = Ok (selected, total_cost, squad_expected)
    /\ length selected = 15%nat
    /\ (total_cost <= 100)%Q
    /\ (total_cost == 100)%Q
    /\ club_count 1 selected = 3.
Proof.
  assert (Hrun : exists selected total_cost squad_expected,
             optimize_squad Sample.solver Sample.scored Sample.expected [] 1 None
             = Ok (selected, total_cost, squad_expected)
             /\ (total_cost == 100)%Q /\ club_count 1 selected = 3).
  { do 3 eexists. split; [vm_compute; reflexivity|].
    split; vm_compute; reflexivity. }
  destruct Hrun as (selected & total_cost & squad_expected & Hrun & Hcost & Hclub).
  exists selected, total_cost, squad_expected.
  destruct (rebuilt_squad_is_valid Sample.solver Sample.scored Sample.expected [] 1 None
              selected total_cost squad_expected sample_ids_distinct
              (or_introl eq_refl) (sample_solver_sound _) Hrun)
    as (Hlen & Hle & _).
  auto.
Defined.

(** C7.  When the solver does not report [Optimal], in particular when the
    squad constraints cannot be met, the Squad Selector raises an error and
    returns no squad; when the solver reports [Optimal], a squad is
    returned. *)
Theorem squad_selection_fails_exactly_without_optimum
    (solver : LpProblem -> LpSolution) (players : list player)
    (expected : gmap Z Q) (current_squad : list squad_entry)
    (free_transfers : Z) (chip : option chip_name) :
  (forall p, In p players -> has_points expected p = true ->
             expected_points p <> None) ->
  let P := squad_problem players expected current_squad free_transfers chip in
  let run := optimize_squad solver players expected current_squad free_transfers chip in
  (is_optimal (status (solver P)) = false -> run = Raise ValueError)
  /\ ((forall a, ~ lp_feasible P a) -> sound_on solver P -> run = Raise ValueError)
  /\ (is_optimal (status (solver P)) = true ->
      exists selected total_cost squad_expected,
        run = Ok (selected, total_cost, squad_expected)).
Proof.
  intros Hattr P run.
  assert (Hfail : is_optimal (status (solver P)) = false -> run = Raise ValueError).
  { intros Hs. unfold run, optimize_squad. fold P. now rewrite Hs. }
  split; [exact Hfail|]. split.
  - intros Hnone Hsound. apply Hfail.
    destruct (is_optimal (status (solver P))) eqn:Hs; [|reflexivity].
    exfalso. apply (Hnone (varValue (solver P))). now apply Hsound.
  - intros Hs. unfold run, optimize_squad. fold P. rewrite Hs.
    simpl negb. cbv iota.
    set (avail := avail_players_of players expected).
    set (cur := current_squad_players_of avail current_squad).
    set (selected := if transfer_mode cur chip then _ else _).
    assert (Hsel : incl selected avail).
    { unfold selected. destruct (transfer_mode cur chip).
      - intros p Hp. apply in_app_or in Hp as [Hp|Hp].
        + apply (current_squad_incl avail current_squad).
          now apply chosen_incl in Hp.
        + apply chosen_incl in Hp. now apply not_held_incl in Hp.
      - apply chosen_incl. }
    destruct (map_result_total get_expected_points selected) as (points & Hpts).
    { apply Forall_forall. intros p Hp.
      apply Hsel, avail_has_points in Hp as [Hin Hhas].
      pose proof (Hattr p Hin Hhas) as Hne.
      unfold get_expected_points.
      destruct (expected_points p) as [v|]; [eauto|now elim Hne]. }
    rewrite Hpts. simpl. eauto.
Qed.

Lemma firstn_incl {A : Type} (n : nat) (l : list A) (x : A) :
  In x (firstn n l) -> In x l.
Proof.
  intros H. rewrite <- (firstn_skipn n l). apply in_or_app. now left.
Qed.

(** A pool of fourteen eligible players cannot give a squad of fifteen. *)
Lemma fourteen_players_infeasible (a : LpVariable -> Z) :
  ~ lp_feasible (squad_problem (firstn 14 Sample.scored) Sample.expected [] 1 None) a.
Proof.
  intros H.
  match type of H with
  | lp_feasible ?P _ => let P' := eval vm_compute in P in change P with P' in H
  end.
  lp_facts H. lra.
Qed.

(** The sample gameweek gives a squad; with one eligible player fewer the
    selection raises [ValueError]. *)
Lemma squad_selection_witness :
  (exists selected total_cost squad_expected,
      optimize_squad Sample.solver Sample.scored Sample.expected [] 1 None
      = Ok (selected, total_cost, squad_expected))
  /\ optimize_squad Sample.solver (firstn 14 Sample.scored) Sample.expected [] 1 None
     = Raise ValueError.
Proof.
  assert (Hattr : forall l, (forall p, In p l -> In p Sample.scored) ->
             forall p, In p l -> has_points Sample.expected p = true ->
                       expected_points p <> None).
  { intros l Hl p Hp. apply Hl in Hp. revert p Hp.
    apply (proj1 (Forall_forall
                    (fun p => has_points Sample.expected p = true ->
                              expected_points p <> None) Sample.scored)).
    let l := eval vm_compute in Sample.scored in change Sample.scored with l.
    repeat (constructor;
            [first [intros _; discriminate|intros H; vm_compute in H; discriminate]|]).
    constructor. }
  split.
  - apply (squad_selection_fails_exactly_without_optimum
             Sample.solver Sample.scored Sample.expected [] 1 None
             (Hattr _ (fun p H => H))).
    vm_compute. reflexivity.
  - apply (squad_selection_fails_exactly_without_optimum
             Sample.solver (firstn 14 Sample.scored) Sample.expected [] 1 None
             (Hattr _ (firstn_incl 14 Sample.scored))).
    + exact fourteen_players_infeasible.
    + apply sample_solver_sound.
Defined.

(** ** Transfer mode *)

Lemma current_squad_ids (avail : list player) (current_squad : list squad_entry) :
  NoDup (squad_ids current_squad) ->
  NoDup (map pid (current_squad_players_of avail current_squad))
  /\ incl (map pid (current_squad_players_of avail current_squad))
          (squad_ids current_squad).
Proof.
  induction current_squad as [|e l IH]; simpl; intros Hnd.
  - split; [constructor|intros ? []].
  - destruct e as [i|]; simpl in *; [|now apply IH].
    apply NoDup_cons_iff in Hnd as [Hi Hnd].
    destruct (IH Hnd) as [IH1 IH2].
    destruct (filter (fun p => pid p =? i) avail) as [|m ms] eqn:E; simpl.
    + split; [exact IH1|]. intros x Hx. right. now apply IH2.
    + assert (Hm : pid m = i).
      { assert (Hin : In m (filter (fun p => pid p =? i) avail))
          by (rewrite E; now left).
        apply filter_In in Hin as [_ Hin]. now apply Z.eqb_eq in Hin. }
      rewrite Hm. split.
      * constructor; [|exact IH1]. intros Hin. apply Hi. now apply IH2.
      * intros x [<-|Hx]; [now left|right; now apply IH2].
Qed.

Section TransferProblem.

Variables (avail cur : list player) (expected : gmap Z Q) (free_transfers : Z).

Local Abbreviation others := (not_held cur avail).
Local Abbreviation P := (transfer_problem avail cur expected free_transfers).

Lemma transfer_constraints :
  exists c0 c1 c2 c3,
    constraints P
    = c0 :: c1 :: c2 :: c3
      :: map (fun '(pos, count) =>
                LpEq (LpAdd (var_sum Keep (having element_type pos cur))
                            (var_sum Buy (having element_type pos others)))
                     (LpConst (inject_Z count)))
             pos_counts
      ++ map (fun team_id =>
                LpLe (LpAdd (var_sum Keep (having team team_id cur))
                            (var_sum Buy (having team team_id others)))
                     (LpConst 3))
             team_ids.
Proof. do 4 eexists. reflexivity. Qed.

Variable a : LpVariable -> Z.
Hypothesis cur_ids : NoDup (map pid cur).
Hypothesis others_ids : NoDup (map pid others).
Hypothesis feasible : lp_feasible P a.

Lemma transfer_binary : binary_on a Keep cur /\ binary_on a Buy others.
Proof.
  assert (Hv : forall v,
             In v (map (fun p => Keep (pid p)) cur
                   ++ map (fun p => Buy (pid p)) others) ->
             in_domain v (a v) = true).
  { intros v Hv. apply (feasible_domain _ _ _ feasible).
    eapply constraint_vars_problem; [right; now left|].
    simpl.
    rewrite (values_sum_nodup _ _ cur_ids), (values_sum_nodup _ _ others_ids).
    rewrite !lp_vars_var_sum, app_nil_r. exact Hv. }
  split; intros p Hp.
  - apply (Keep_binary (pid p)), Hv, in_or_app. left.
    apply in_map_iff. eauto.
  - apply (Buy_binary (pid p)), Hv, in_or_app. right.
    apply in_map_iff. eauto.
Qed.

Local Abbreviation kept := (chosen a Keep cur).
Local Abbreviation bought := (chosen a Buy others).
Local Abbreviation sold := (released a cur).

Lemma transfer_size : length (kept ++ bought) = 15%nat.
Proof.
  destruct transfer_binary as [Hk Hb].
  pose proof (feasible_holds _ _ _ feasible
                (or_intror (or_introl eq_refl))) as H.
  simpl in H. apply Qeq_bool_iff in H.
  rewrite (values_sum_nodup _ _ cur_ids), (values_sum_nodup _ _ others_ids) in H.
  rewrite (var_sum_count a Keep cur Hk), (var_sum_count a Buy others Hb) in H.
  rewrite <- inject_Z_plus in H.
  apply (proj1 (inject_Z_injective _ _)) in H.
  rewrite length_app. lia.
Qed.

Lemma transfer_sold_bought : length sold = length bought.
Proof.
  destruct transfer_binary as [Hk Hb].
  pose proof (feasible_holds _ _ _ feasible
                (or_intror (or_intror (or_introl eq_refl)))) as H.
  simpl in H. apply Qeq_bool_iff in H.
  rewrite (values_sum_nodup _ _ others_ids) in H.
  rewrite (sold_count a cur Hk), (var_sum_count a Buy others Hb) in H.
  apply (proj1 (inject_Z_injective _ _)) in H.
  lia.
Qed.

Lemma transfer_budget : (Qsum (map price bought) <= Qsum (map price sold))%Q.
Proof.
  destruct transfer_binary as [Hk Hb].
  pose proof (feasible_holds _ _ _ feasible
                (or_intror (or_intror (or_intror (or_introl eq_refl))))) as H.
  simpl in H. apply Qle_bool_iff in H.
  rewrite (weighted_sum_chosen a Buy price others Hb) in H.
  rewrite (sold_value_released a cur Hk) in H.
  exact H.
Qed.

Lemma transfer_extra :
  0 <= a ExtraTransfers
  /\ Z.of_nat (length sold) <= free_transfers + a ExtraTransfers.
Proof.
  destruct transfer_binary as [Hk Hb]. split.
  - apply Z.leb_le.
    apply (feasible_domain _ _ ExtraTransfers feasible).
    eapply constraint_vars_problem; [now left|].
    simpl. apply in_or_app. right. now left.
  - pose proof (feasible_holds _ _ _ feasible (or_introl eq_refl)) as H.
    simpl in H. apply Qle_bool_iff in H.
    rewrite (sold_count a cur Hk), <- inject_Z_plus in H.
    rewrite Zle_Qle. exact H.
Qed.

Lemma transfer_positions (pos count : Z) :
  In (pos, count) pos_counts -> counts pos (kept ++ bought) = count.
Proof.
  intros Hin. destruct transfer_binary as [Hk Hb].
  assert (Hc : In (LpEq (LpAdd (var_sum Keep (having element_type pos cur))
                               (var_sum Buy (having element_type pos others)))
                        (LpConst (inject_Z count)))
                  (constraints P)).
  { destruct transfer_constraints as (c0 & c1 & c2 & c3 & ->).
    do 4 right. apply in_or_app. left.
    apply (in_map (fun '(pos, count) =>
                     LpEq (LpAdd (var_sum Keep (having element_type pos cur))
                                 (var_sum Buy (having element_type pos others)))
                          (LpConst (inject_Z count))) _ _ Hin). }
  pose proof (feasible_holds _ _ _ feasible Hc) as H.
  simpl in H. apply Qeq_bool_iff in H.
  rewrite (var_sum_count a Keep), (var_sum_count a Buy) in H
    by (eapply binary_on_incl; [apply having_incl|eassumption]).
  rewrite <- inject_Z_plus in H.
  apply (proj1 (inject_Z_injective _ _)) in H.
  unfold counts. rewrite having_app, length_app.
  rewrite <- !chosen_having. lia.
Qed.

Lemma transfer_clubs (c : Z) :
  1 <= c <= 20 -> club_count c (kept ++ bought) <= 3.
Proof.
  intros Hin. destruct transfer_binary as [Hk Hb].
  assert (Hc : In (LpLe (LpAdd (var_sum Keep (having team c cur))
                               (var_sum Buy (having team c others)))
                        (LpConst 3))
                  (constraints P)).
  { destruct transfer_constraints as (c0 & c1 & c2 & c3 & ->).
    do 4 right. apply in_or_app. right.
    apply (in_map (fun team_id =>
                     LpLe (LpAdd (var_sum Keep (having team team_id cur))
                                 (var_sum Buy (having team team_id others)))
                          (LpConst 3))).
    now apply team_ids_spec. }
  pose proof (feasible_holds _ _ _ feasible Hc) as H.
  simpl in H. apply Qle_bool_iff in H.
  rewrite (var_sum_count a Keep), (var_sum_count a Buy) in H
    by (eapply binary_on_incl; [apply having_incl|eassumption]).
  rewrite <- inject_Z_plus in H.
  change 3%Q with (inject_Z 3) in H. rewrite <- Zle_Qle in H.
  unfold club_count. rewrite having_app, length_app.
  rewrite <- !chosen_having. lia.
Qed.

(** The objective is the points of the resulting squad less 4 per unit of
    [ExtraTransfers]. *)
Lemma transfer_objective :
  (lp_value a (objective P)
   == Qsum (map (points_of expected) (kept ++ bought))
      - 4 * inject_Z (a ExtraTransfers))%Q.
Proof.
  destruct transfer_binary as [Hk Hb].
  unfold transfer_problem. cbn [objective lp_value].
  rewrite (weighted_sum_chosen a Keep (points_of expected) cur Hk).
  rewrite (weighted_sum_chosen a Buy (points_of expected) others Hb).
  rewrite map_app, Qsum_app. lra.
Qed.

End TransferProblem.

Lemma lp_feasible_intro (P : LpProblem) a :
  (forall v, In v (problem_vars P) -> in_domain v (a v) = true) ->
  (forall c, In c (constraints P) -> holds a c = true) ->
  lp_feasible P a.
Proof.
  intros Hd Hc. unfold lp_feasible, lp_feasibleb.
  apply andb_true_iff. split; apply forallb_forall; assumption.
Qed.

Lemma lp_vars_lpSum_map {A : Type} (Q' : LpVariable -> Prop)
    (f : A -> LpAffineExpression) (l : list A) :
  (forall x, Forall Q' (lp_vars (f x))) ->
  Forall Q' (lp_vars (lpSum (map f l))).
Proof.
  intros H. rewrite lp_vars_lpSum.
  induction l as [|x l IH]; simpl; [constructor|].
  apply Forall_app. auto.
Qed.

Lemma holds_ext a a' c :
  (forall v, In v (constraint_vars c) -> a v = a' v) -> holds a c = holds a' c.
Proof.
  destruct c as [e1 e2|e1 e2]; simpl; intros H;
    rewrite (lp_value_ext a a' e1), (lp_value_ext a a' e2);
    auto; intros v Hv; apply H, in_or_app; auto.
Qed.

Section TransferOptimum.

Variables (avail cur : list player) (expected : gmap Z Q) (free_transfers : Z).

Local Abbreviation others := (not_held cur avail).
Local Abbreviation P := (transfer_problem avail cur expected free_transfers).

(** Apart from the first one, the constraints do not mention
    [ExtraTransfers]. *)
Lemma transfer_constraints_decisions :
  exists c0 rest,
    constraints P = c0 :: rest
    /\ Forall (fun c => Forall decision_var (constraint_vars c)) rest.
Proof.
  do 2 eexists. split; [reflexivity|].
  assert (Hvs : forall mk l, (forall i, decision_var (mk i)) ->
                             Forall decision_var (lp_vars (var_sum mk l))).
  { intros mk l Hmk. rewrite lp_vars_var_sum.
    apply Forall_forall. intros v Hv.
    apply in_map_iff in Hv as (p & <- & _). apply Hmk. }
  assert (Hvv : forall mk l, (forall i, decision_var (mk i)) ->
                             Forall decision_var (lp_vars (values_sum mk l))).
  { intros mk l Hmk. unfold values_sum.
    apply lp_vars_lpSum_map. intros i. simpl. constructor; [apply Hmk|constructor]. }
  assert (HK : forall i, decision_var (Keep i)) by (intros; exact I).
  assert (HB : forall i, decision_var (Buy i)) by (intros; exact I).
  apply Forall_cons; [|apply Forall_cons; [|apply Forall_cons]].
  - simpl. rewrite app_nil_r. apply Forall_app. split; [apply Hvv|apply Hvv]; auto.
  - simpl. apply Forall_app. split; [|apply Hvv; auto].
    apply lp_vars_lpSum_map. intros p. simpl. constructor; [exact I|constructor].
  - simpl. apply Forall_app. split; apply lp_vars_lpSum_map; intros p; simpl;
      (constructor; [exact I|constructor]).
  - apply Forall_app. split; apply Forall_forall; intros c Hc;
      apply in_map_iff in Hc as (x & <- & _).
    + destruct x as [pos count]. simpl. rewrite app_nil_r.
      apply Forall_app. split; apply Hvs; auto.
    + simpl. rewrite app_nil_r. apply Forall_app. split; apply Hvs; auto.
Qed.

Variable a : LpVariable -> Z.
Hypothesis cur_ids : NoDup (map pid cur).
Hypothesis others_ids : NoDup (map pid others).
Hypothesis optimal : lp_optimal P a.

Local Abbreviation sold := (released a cur).
Local Abbreviation needed := (extra_needed free_transfers (length sold)).
Local Abbreviation a' := (with_extra a needed).

Lemma lowered_agrees (v : LpVariable) : decision_var v -> a v = a' v.
Proof. destruct v; simpl; intros H; [destruct H|reflexivity|reflexivity|destruct H..]. Qed.

Lemma lowered_feasible : lp_feasible P a'.
Proof.
  destruct optimal as [Hf _].
  destruct (transfer_binary avail cur expected free_transfers a cur_ids others_ids Hf)
    as [Hk Hb].
  apply lp_feasible_intro.
  - intros v Hv. destruct v; try exact (feasible_domain _ _ _ Hf Hv).
    simpl. apply Z.leb_le. unfold extra_needed. lia.
  - intros c Hc.
    destruct transfer_constraints_decisions as (c0 & rest & Hcs & Hrest).
    pose proof Hc as Hc'. rewrite Hcs in Hc'. destruct Hc' as [<-|Hin].
    + unfold transfer_problem in Hcs. cbn [constraints] in Hcs.
      injection Hcs as <- _.
      simpl. apply Qle_bool_iff.
      assert (Hb' : binary_on a' Keep cur) by exact Hk.
      rewrite (sold_count a' cur Hb'), <- inject_Z_plus, <- Zle_Qle.
      change (released a' cur) with sold. unfold extra_needed. lia.
    + rewrite <- (holds_ext a a' c).
      * exact (feasible_holds _ _ _ Hf Hc).
      * rewrite Forall_forall in Hrest. specialize (Hrest c Hin).
        rewrite Forall_forall in Hrest.
        intros v Hv. now apply lowered_agrees, Hrest.
Qed.

Lemma transfer_extra_minimal : a ExtraTransfers = needed.
Proof.
  pose proof lowered_feasible as Hf'.
  destruct optimal as [Hf Hmax].
  destruct (transfer_extra avail cur expected free_transfers a cur_ids others_ids Hf)
    as [H0 Hge].
  pose proof (Hmax a' Hf') as Hle.
  pose proof (transfer_objective avail cur expected free_transfers a
                cur_ids others_ids Hf) as Ea.
  pose proof (transfer_objective avail cur expected free_transfers a'
                cur_ids others_ids Hf') as Ea'.
  change (chosen a' Keep cur) with (chosen a Keep cur) in Ea'.
  change (chosen a' Buy (not_held cur avail))
    with (chosen a Buy (not_held cur avail)) in Ea'.
  change (a' ExtraTransfers) with needed in Ea'.
  assert (Hq : (inject_Z (a ExtraTransfers) <= inject_Z needed)%Q).
  { rewrite Ea, Ea' in Hle. lra. }
  rewrite <- Zle_Qle in Hq. unfold extra_needed in *. lia.
Qed.

End TransferOptimum.

Lemma transfers_ids_distinct : NoDup (map pid Transfers.scored).
Proof. apply NoDup_by_computation. vm_compute. reflexivity. Qed.

Lemma transfers_relocated_ids_distinct : NoDup (map pid Transfers.relocated).
Proof. apply NoDup_by_computation. vm_compute. reflexivity. Qed.

Lemma transfers_squad_ids_distinct : NoDup (squad_ids Transfers.current_squad).
Proof. apply NoDup_by_computation. vm_compute. reflexivity. Qed.

Lemma transfers_answer_optimal :
  optimal_on Transfers.solver
    (squad_problem Transfers.scored Transfers.expected Transfers.current_squad 2 None).
Proof. intros _. lp_certify. Qed.

Lemma transfers_relocated_answer_optimal :
  optimal_on Transfers.solver
    (squad_problem Transfers.relocated Transfers.expected Transfers.current_squad 2 None).
Proof. intros _. lp_certify. Qed.

(** C3, as stated, fails for a club numbered outside 1..20: with the four
    newcomers registered with club 21, all four are bought. *)
Lemma transfer_club_limit_not_enforced_beyond_20 :
  ~ (forall (solver : LpProblem -> LpSolution) (players : list player)
            (expected : gmap Z Q) (current_squad : list squad_entry)
            (free_transfers : Z) (chip : option chip_name)
            (selected : list player) (total_cost squad_expected : Q),
        NoDup (map pid players) ->
        NoDup (squad_ids current_squad) ->
        current_squad <> [] /\ unlimited_chip chip = false ->
        optimal_on solver
          (squad_problem players expected current_squad free_transfers chip) ->
        optimize_squad solver players expected current_squad free_transfers chip
        = Ok (selected, total_cost, squad_expected) ->
        forall c, club_count c selected <= 3).
Proof.
  intros H.
  assert (Hrun : exists selected total_cost squad_expected,
             optimize_squad Transfers.solver Transfers.relocated Transfers.expected
                            Transfers.current_squad 2 None
             = Ok (selected, total_cost, squad_expected)
             /\ club_count 21 selected = 4).
  { do 3 eexists. split; vm_compute; reflexivity. }
  destruct Hrun as (selected & total_cost & squad_expected & Hrun & Hcount).
  assert (Hmode : Transfers.current_squad <> [] /\ unlimited_chip None = false)
    by (split; [discriminate|reflexivity]).
  specialize (H Transfers.solver Transfers.relocated Transfers.expected
                Transfers.current_squad 2 None selected total_cost squad_expected
                transfers_relocated_ids_distinct transfers_squad_ids_distinct
                Hmode transfers_relocated_answer_optimal Hrun 21).
  lia.
Qed.

(** C3, amended.  In transfer mode (some stored squad member is among the
    eligible players and no wildcard or free-hit chip is active) a returned
    squad is made of the kept and the bought players and has 15 members; as
    many players are sold as bought; the buys cost no more than the sells
    free; the position counts are 2, 5, 5, 3 and every club numbered 1 to 20
    has at most 3 players, over kept and bought players together; the
    objective is the squad's expected points less 4 for every player sold
    beyond [free_transfers], hence less 8 when 4 are sold with 2 free
    transfers. *)
Theorem transfer_squad_is_valid
    (solver : LpProblem -> LpSolution) (players : list player)
    (expected : gmap Z Q) (current_squad : list squad_entry)
    (free_transfers : Z) (chip : option chip_name)
    (selected : list player) (total_cost squad_expected : Q) :
  let avail := avail_players_of players expected in
  let cur := current_squad_players_of avail current_squad in
  let P := squad_problem players expected current_squad free_transfers chip in
  let value := varValue (solver P) in
  let bought := chosen value Buy (not_held cur avail) in
  let sold := released value cur in
  NoDup (map pid players) ->
  NoDup (squad_ids current_squad) ->
  transfer_mode cur chip = true ->
  optimal_on solver P ->
  optimize_squad solver players expected current_squad free_transfers chip
  = Ok (selected, total_cost, squad_expected) ->
  selected = chosen value Keep cur ++ bought
  /\ length selected = 15%nat
  /\ length sold = length bought
  /\ (Qsum (map price bought) <= Qsum (map price sold))%Q
  /\ counts 1 selected = 2 /\ counts 2 selected = 5
  /\ counts 3 selected = 5 /\ counts 4 selected = 3
  /\ (forall c, 1 <= c <= 20 -> club_count c selected <= 3)
  /\ (lp_value value (objective P)
      == Qsum (map (points_of expected) selected)
         - 4 * inject_Z (Z.max 0 (Z.of_nat (length sold) - free_transfers)))%Q
  /\ (free_transfers = 2 -> length sold = 4%nat ->
      (lp_value value (objective P)
       == Qsum (map (points_of expected) selected) - 8)%Q).
Proof.
  intros avail cur P value bought sold Hnd Hsq Hmode Hopt Hrun.
  unfold optimize_squad in Hrun. fold avail cur P in Hrun.
  rewrite Hmode in Hrun.
  destruct (is_optimal (status (solver P))) eqn:Hs; [|discriminate Hrun].
  simpl negb in Hrun. cbv iota in Hrun.
  apply bind_Ok in Hrun as (points & _ & Hrun).
  injection Hrun as <- _ _. fold value bought.
  specialize (Hopt Hs). fold value in Hopt.
  assert (HP : P = transfer_problem avail cur expected free_transfers).
  { unfold P, squad_problem. fold avail cur. now rewrite Hmode. }
  rewrite HP in *.
  assert (Hcur : NoDup (map pid cur)) by (apply current_squad_ids, Hsq).
  assert (Hoth : NoDup (map pid (not_held cur avail))).
  { unfold not_held, avail, avail_players_of. now do 2 apply NoDup_map_filter. }
  pose proof (proj1 Hopt) as Hf.
  pose proof (transfer_extra_minimal avail cur expected free_transfers value
                Hcur Hoth Hopt) as Hextra.
  pose proof (transfer_objective avail cur expected free_transfers value
                Hcur Hoth Hf) as Hobj.
  rewrite Hextra in Hobj. fold sold in Hobj.
  split; [reflexivity|].
  split; [exact (transfer_size avail cur expected free_transfers value Hcur Hoth Hf)|].
  split; [exact (transfer_sold_bought avail cur expected free_transfers value
                   Hcur Hoth Hf)|].
  split; [exact (transfer_budget avail cur expected free_transfers value
                   Hcur Hoth Hf)|].
  assert (Hpos := transfer_positions avail cur expected free_transfers value
                    Hcur Hoth Hf).
  split; [apply Hpos; now left|].
  split; [apply Hpos; right; now left|].
  split; [apply Hpos; do 2 right; now left|].
  split; [apply Hpos; do 3 right; now left|].
  split; [exact (transfer_clubs avail cur expected free_transfers value
                   Hcur Hoth Hf)|].
  split; [exact Hobj|].
  intros Hfree Hsold. rewrite Hobj, Hfree, Hsold. reflexivity.
Qed.

(** The sample week of transfers: four players are sold with two free
    transfers, the objective is 156 - 8, and the squad returned costs 115.0,
    above the 100.0 of full-rebuild mode. *)
Lemma transfer_squad_witness :
  exists selected total_cost squad_expected,
    optimize_squad Transfers.solver Transfers.scored Transfers.expected
                   Transfers.current_squad 2 None
    = Ok (selected, total_cost, squad_expected)
    /\ map pid selected = [1; 3; 4; 5; 6; 8; 9; 10; 11; 13; 14; 18; 19; 20; 21]
    /\ (total_cost == 115)%Q
    /\ (Qsum (map (points_of Transfers.expected) selected) == 156)%Q
    /\ length selected = 15%nat
    /\ (lp_value
          (varValue (Transfers.solver
                       (squad_problem Transfers.scored Transfers.expected
                                      Transfers.current_squad 2 None)))
          (objective (squad_problem Transfers.scored Transfers.expected
                                    Transfers.current_squad 2 None))
        == Qsum (map (points_of Transfers.expected) selected) - 8)%Q.
Proof.
  assert (Hrun : exists selected total_cost squad_expected,
             optimize_squad Transfers.solver Transfers.scored Transfers.expected
                            Transfers.current_squad 2 None
             = Ok (selected, total_cost, squad_expected)
             /\ map pid selected = [1; 3; 4; 5; 6; 8; 9; 10; 11; 13; 14; 18; 19; 20; 21]
             /\ (total_cost == 115)%Q
             /\ (Qsum (map (points_of Transfers.expected) selected) == 156)%Q).
  { do 3 eexists. split; [vm_compute; reflexivity|].
    split; [reflexivity|]. split; vm_compute; reflexivity. }
  destruct Hrun as (selected & total_cost & squad_expected & Hrun & Hids & Hcost & Hpts).
  exists selected, total_cost, squad_expected.
  destruct (transfer_squad_is_valid Transfers.solver Transfers.scored
              Transfers.expected Transfers.current_squad 2 None
              selected total_cost squad_expected
              transfers_ids_distinct transfers_squad_ids_distinct
              eq_refl transfers_answer_optimal Hrun)
    as (_ & Hlen & _ & _ & _ & _ & _ & _ & _ & _ & Height).
  split; [exact Hrun|]. split; [exact Hids|]. split; [exact Hcost|].
  split; [exact Hpts|]. split; [exact Hlen|].
  apply Height; [reflexivity|vm_compute; reflexivity].
Defined.

(** * The Expected-Points Model *)

(** ** The fixtures of a club *)

Lemma for_each_invariant {A S : Type} (body : S -> A -> result S) (I : S -> Prop)
    (l : list A) (s s' : S) :
  (forall s x s', In x l -> I s -> body s x = Ok s' -> I s') ->
  I s -> for_each body l s = Ok s' -> I s'.
Proof.
  revert s. induction l as [|x l IH]; simpl; intros s Hstep Hs Hrun.
  - now inversion Hrun; subst.
  - apply bind_Ok in Hrun as (s1 & H1 & Hrun).
    apply (IH s1); auto.
    + intros. eapply Hstep; eauto.
    + eapply Hstep; eauto.
Qed.

Lemma append_fixture_within (ids : list Z) k tf m m' :
  fixtures_within ids m -> In (opp_id tf) ids ->
  append_fixture k tf m = Ok m' -> fixtures_within ids m'.
Proof.
  unfold append_fixture. intros Hm Hopp H.
  destruct (m !! k) as [l|] eqn:E; [|discriminate].
  injection H as <-. intros k' l' Hl'.
  destruct (decide (k = k')) as [->|Hne].
  - rewrite lookup_insert_eq in Hl'. injection Hl' as <-.
    destruct (Hm _ _ E) as [Hk Hl]. split; [exact Hk|].
    intros e He. apply in_app_or in He as [He|[<-|[]]]; auto.
  - rewrite lookup_insert_ne in Hl' by exact Hne. eauto.
Qed.

Lemma append_fixture_key (ids : list Z) k tf m m' :
  fixtures_within ids m -> append_fixture k tf m = Ok m' -> In k ids.
Proof.
  unfold append_fixture. intros Hm H.
  destruct (m !! k) as [l|] eqn:E; [|discriminate].
  now destruct (Hm _ _ E).
Qed.

Lemma append_fixture_keys k tf m m' k' :
  append_fixture k tf m = Ok m' -> is_Some (m' !! k') <-> is_Some (m !! k').
Proof.
  unfold append_fixture. intros H.
  destruct (m !! k) as [l|] eqn:E; [|discriminate].
  injection H as <-.
  destruct (decide (k = k')) as [->|Hne].
  - rewrite lookup_insert_eq, E. split; eauto.
  - now rewrite lookup_insert_ne.
Qed.

Lemma empty_fixtures_within (teams : list club) (m : gmap Z (list team_fixture)) :
  fixtures_within (map club_id teams) m ->
  fixtures_within (map club_id teams)
    (fold_left (fun m t => <[club_id t := []]> m) teams m).
Proof.
  assert (H : forall ids l (m : gmap Z (list team_fixture)),
             incl (map club_id l) ids -> fixtures_within ids m ->
             fixtures_within ids (fold_left (fun m t => <[club_id t := []]> m) l m)).
  { intros ids l. induction l as [|t l IH]; simpl; intros m0 Hincl Hm; [exact Hm|].
    apply IH; [intros x Hx; apply Hincl; now right|].
    intros k' l' Hl'.
    destruct (decide (club_id t = k')) as [<-|Hne].
    - rewrite lookup_insert_eq in Hl'. injection Hl' as <-.
      split; [apply Hincl; now left|intros ? []].
    - rewrite lookup_insert_ne in Hl' by exact Hne. eauto. }
  apply H. apply incl_refl.
Qed.

(** In the dictionary built by [calculate_team_fixtures] every opponent is
    one of the clubs. *)
Lemma team_fixtures_within (teams : list club) (fixtures : list fixture)
    (team_fixtures : gmap Z (list team_fixture)) :
  calculate_team_fixtures teams fixtures = Ok team_fixtures ->
  fixtures_within (map club_id teams) team_fixtures.
Proof.
  unfold calculate_team_fixtures.
  apply for_each_invariant.
  - intros m f m' _ Hm Hstep.
    apply bind_Ok in Hstep as (m1 & H1 & H2).
    assert (Hh : In (team_h f) (map club_id teams))
      by (eapply append_fixture_key; eauto).
    assert (Ha : In (team_a f) (map club_id teams)).
    { destruct (m1 !! team_a f) as [l|] eqn:E.
      - assert (Hs : is_Some (m !! team_a f))
          by (apply (append_fixture_keys _ _ _ _ (team_a f) H1); eauto).
        destruct Hs as [l0 Hl0]. now destruct (Hm _ _ Hl0).
      - unfold append_fixture in H2. now rewrite E in H2. }
    apply (append_fixture_within (map club_id teams) (team_a f)
             (mkTeamFixture (team_h f) (team_a_difficulty f) false) m1 m');
      [|exact Hh|exact H2].
    apply (append_fixture_within (map club_id teams) (team_h f)
             (mkTeamFixture (team_a f) (team_h_difficulty f) true) m m1);
      [exact Hm|exact Ha|exact H1].
  - apply empty_fixtures_within. intros k l Hl.
    rewrite lookup_empty in Hl. discriminate.
Qed.

(** ** The loop over the players *)

Lemma expected_points_step_spec avg_strength team_strength team_fixtures m visited p :
  expected_points_step avg_strength team_strength team_fixtures (m, visited) p
  = let* r := player_points avg_strength team_strength team_fixtures p in
    Ok (match r with Some v => <[pid p := v]> m | None => m end,
        visited ++ [updated r p]).
Proof.
  unfold expected_points_step, player_points.
  destruct (default [] (team_fixtures !! team p)) as [|fx fixes]; [reflexivity|].
  destruct (match chance_of_playing_next_round p with
            | Some c => c =? 0
            | None => false
            end); [reflexivity|].
  destruct (for_each _ (fx :: fixes) 0%Q); reflexivity.
Qed.

Lemma pid_updated r p : pid (updated r p) = pid p.
Proof. now destruct r. Qed.

Section PointsLoop.

Variables (avg_strength : Q) (team_strength : gmap Z Z)
          (team_fixtures : gmap Z (list team_fixture)).

Local Abbreviation step := (expected_points_step avg_strength team_strength team_fixtures).
Local Abbreviation points := (player_points avg_strength team_strength team_fixtures).

Lemma points_loop_spec (players : list player) :
  forall m visited m' visited',
    for_each step players (m, visited) = Ok (m', visited') ->
    (forall i, ~ In i (map pid players) -> m' !! i = m !! i)
    /\ (NoDup (map pid players) ->
        forall p, In p players ->
          exists r, points p = Ok r
            /\ m' !! pid p = match r with Some v => Some v | None => m !! pid p end)
    /\ exists news,
         visited' = visited ++ news
         /\ Forall2 (fun p p' => exists r, points p = Ok r /\ p' = updated r p)
                    players news.
Proof.
  induction players as [|q players IH]; intros m visited m' visited' Hrun.
  - simpl in Hrun. injection Hrun as <- <-.
    split; [reflexivity|]. split; [intros _ ? []|].
    exists []. rewrite app_nil_r. split; [reflexivity|constructor].
  - cbn [for_each] in Hrun. apply bind_Ok in Hrun as ([m1 v1] & Hstep & Hrun).
    rewrite expected_points_step_spec in Hstep.
    apply bind_Ok in Hstep as (r & Hr & Hstep). injection Hstep as <- <-.
    destruct (IH _ _ _ _ Hrun) as (Hout & Hin & news & -> & Hnews).
    assert (Hm1 : forall i, i <> pid q ->
              match r with Some v => <[pid q := v]> m | None => m end !! i = m !! i).
    { intros i Hi. destruct r; [|reflexivity].
      rewrite lookup_insert_ne; [reflexivity|congruence]. }
    split; [|split].
    + intros i Hi. rewrite Hout by (intros H; apply Hi; now right).
      apply Hm1. intros ->. apply Hi. now left.
    + intros Hnd p Hp. simpl in Hnd. apply NoDup_cons_iff in Hnd as [Hq Hnd].
      destruct Hp as [<-|Hp].
      * exists r. split; [exact Hr|]. rewrite (Hout _ Hq).
        destruct r; [apply lookup_insert_eq|reflexivity].
      * destruct (Hin Hnd p Hp) as (r' & Hr' & Hl).
        exists r'. split; [exact Hr'|]. rewrite Hl.
        destruct r'; [reflexivity|]. apply Hm1.
        intros E. apply Hq. rewrite <- E. now apply in_map.
    + exists (updated r q :: news). split; [now rewrite <- app_assoc|].
      constructor; [eauto|exact Hnews].
Qed.

End PointsLoop.

(** ** The strength dictionary *)

Lemma strength_fold_other (teams : list club) (m : gmap Z Z) (i : Z) :
  ~ In i (map club_id teams) ->
  fold_left (fun m t => <[club_id t := strength t]> m) teams m !! i = m !! i.
Proof.
  revert m. induction teams as [|t teams IH]; simpl; intros m Hi; [reflexivity|].
  rewrite IH by tauto. apply lookup_insert_ne. tauto.
Qed.

Lemma strength_dict_lookup (teams : list club) (t : club) :
  NoDup (map club_id teams) -> In t teams ->
  strength_dict teams !! club_id t = Some (strength t)
  /\ opponent_strength teams (club_id t) = inject_Z (strength t).
Proof.
  unfold strength_dict, opponent_strength. generalize (∅ : gmap Z Z) as m.
  induction teams as [|t0 teams IH]; simpl; intros m Hnd Hin; [destruct Hin|].
  apply NoDup_cons_iff in Hnd as [Hnot Hnd].
  destruct Hin as [->|Hin].
  - rewrite Z.eqb_refl. split; [|reflexivity].
    rewrite strength_fold_other by exact Hnot. apply lookup_insert_eq.
  - destruct (club_id t0 =? club_id t) eqn:E.
    + apply Z.eqb_eq in E. exfalso. apply Hnot. rewrite E. now apply in_map.
    + now apply IH.
Qed.

(** ** The loop over the fixtures *)

Section FixtureLoop.

Variables (teams : list club) (p : player).

Hypothesis club_ids : NoDup (map club_id teams).
Hypothesis strengths : forall t, In t teams -> strength t <> 0.

Local Abbreviation base := (form p * (6 # 10) + points_per_game p * (4 # 10))%Q.
Local Abbreviation ict_boost := (ict_index p / 100 * (2 # 10))%Q.

Lemma fixture_points_spec (exp : Q) (fx : team_fixture) :
  In (opp_id fx) (map club_id teams) ->
  exists exp',
    fixture_points (average_strength teams) (strength_dict teams) base ict_boost exp fx
    = Ok exp'
    /\ (exp' == exp + fixture_estimate teams p fx)%Q.
Proof.
  intros Hopp. apply in_map_iff in Hopp as (t & Ht & Hin).
  destruct (strength_dict_lookup teams t club_ids Hin) as [Hd Ho].
  rewrite Ht in Hd, Ho.
  unfold fixture_points. rewrite Hd.
  destruct (Qeq_bool (inject_Z (strength t)) 0) eqn:E.
  - apply Qeq_bool_iff in E. change 0%Q with (inject_Z 0) in E.
    apply (proj1 (inject_Z_injective _ _)) in E. now elim (strengths t Hin).
  - eexists. split; [reflexivity|].
    unfold fixture_estimate. rewrite Ho.
    set (ratio := (average_strength teams / inject_Z (strength t))%Q).
    set (d := (inject_Z (6 - diff fx) / 5)%Q).
    set (b := (ict_index p / 100 * (2 # 10))%Q).
    ring.
Qed.

Lemma fixture_loop_spec (fixes : list team_fixture) (exp : Q) :
  (forall fx, In fx fixes -> In (opp_id fx) (map club_id teams)) ->
  exists exp',
    for_each (fixture_points (average_strength teams) (strength_dict teams)
                             base ict_boost) fixes exp = Ok exp'
    /\ (exp' == exp + Qsum (map (fixture_estimate teams p) fixes))%Q.
Proof.
  revert exp. induction fixes as [|fx fixes IH]; intros exp Hopp; simpl.
  - eexists. split; [reflexivity|]. lra.
  - destruct (fixture_points_spec exp fx (Hopp fx (or_introl eq_refl)))
      as (e1 & -> & H1).
    destruct (IH e1 (fun fx' H => Hopp fx' (or_intror H))) as (e2 & He2 & H2).
    simpl. exists e2. split; [exact He2|]. rewrite H2, H1. lra.
Qed.

End FixtureLoop.

(** ** The estimate of one player *)

Lemma calculate_expected_points_unfold (players : list player) (teams : list club)
    (team_fixtures : gmap Z (list team_fixture)) :
  teams <> [] ->
  calculate_expected_points players teams team_fixtures
  = for_each (expected_points_step (average_strength teams) (strength_dict teams)
                                   team_fixtures)
             players (∅, []).
Proof. destruct teams; [congruence|reflexivity]. Qed.

Lemma player_points_spec (teams : list club)
    (team_fixtures : gmap Z (list team_fixture)) (p : player) :
  NoDup (map club_id teams) ->
  (forall t, In t teams -> strength t <> 0) ->
  fixtures_within (map club_id teams) team_fixtures ->
  exists r,
    player_points (average_strength teams) (strength_dict teams) team_fixtures p = Ok r
    /\ (skipped team_fixtures p -> r = None)
    /\ (forall fixes,
          team_fixtures !! team p = Some fixes -> fixes <> [] ->
          chance_of_playing_next_round p <> Some 0 ->
          r = Some (claimed_estimate teams p fixes)).
Proof.
  intros Hids Hstr Hwithin. unfold player_points, skipped.
  destruct (team_fixtures !! team p) as [fixes|] eqn:Efix; simpl default.
  - destruct fixes as [|fx fixes].
    { exists None. split; [reflexivity|]. split; [reflexivity|].
      intros fixes' E. injection E as <-. congruence. }
    destruct (chance_of_playing_next_round p) as [c|] eqn:Ec.
    + destruct (c =? 0) eqn:E0.
      { apply Z.eqb_eq in E0. subst c.
        exists None. split; [reflexivity|]. split; [reflexivity|].
        intros. congruence. }
      destruct (fixture_loop_spec teams p Hids Hstr (fx :: fixes) 0%Q)
        as (exp & Hexp & Hsum).
      { intros e He. now apply (proj2 (Hwithin _ _ Efix)). }
      rewrite Hexp. simpl bind.
      eexists. split; [reflexivity|]. split.
      * intros [E|E]; [|discriminate E].
        injection E as ->. discriminate E0.
      * intros fixes' E _ _. injection E as <-. f_equal.
        unfold claimed_estimate, availability. rewrite Ec.
        apply round2_compat. rewrite Hsum. simpl chance_factor_of. lra.
    + destruct (fixture_loop_spec teams p Hids Hstr (fx :: fixes) 0%Q)
        as (exp & Hexp & Hsum).
      { intros e He. now apply (proj2 (Hwithin _ _ Efix)). }
      rewrite Hexp. simpl bind.
      eexists. split; [reflexivity|]. split.
      * intros [E|E]; discriminate E.
      * intros fixes' E _ _. injection E as <-. f_equal.
        unfold claimed_estimate, availability. rewrite Ec.
        apply round2_compat. rewrite Hsum. simpl chance_factor_of.
        assert (E100 : (100 / 100 == 1)%Q) by reflexivity.
        rewrite E100. lra.
  - exists None. split; [reflexivity|]. split; [reflexivity|].
    intros fixes E. discriminate E.
Qed.

Lemma points_loop_total avg_strength team_strength team_fixtures
    (players : list player) :
  (forall p, In p players ->
     exists r, player_points avg_strength team_strength team_fixtures p = Ok r) ->
  forall st, exists st',
    for_each (expected_points_step avg_strength team_strength team_fixtures)
             players st = Ok st'.
Proof.
  induction players as [|p players IH]; intros Hall st; simpl; [eauto|].
  destruct st as [m visited]. rewrite expected_points_step_spec.
  destruct (Hall p (or_introl eq_refl)) as (r & ->). simpl.
  apply IH. intros q Hq. apply Hall. now right.
Qed.

(** ** The attribute and the dictionary agree *)

(** With distinct ids in the feed, every player the model hands on that has
    a dictionary entry also carries the [expected_points] attribute, so the
    selectors' reads of the attribute do not fail. *)
Lemma points_model_attributes (players : list player) (teams : list club)
    (team_fixtures : gmap Z (list team_fixture))
    (expected : gmap Z Q) (players' : list player) :
  NoDup (map pid players) ->
  calculate_expected_points players teams team_fixtures = Ok (expected, players') ->
  forall p, In p players' -> has_points expected p = true ->
            expected_points p <> None.
Proof.
  intros Hnd Hrun.
  assert (Hteams : teams <> []) by (destruct teams; [discriminate Hrun|congruence]).
  rewrite (calculate_expected_points_unfold _ _ _ Hteams) in Hrun.
  destruct (points_loop_spec _ _ _ _ _ _ _ _ Hrun) as (_ & Hin & news & Hnews & Hall).
  simpl in Hnews. subst news. specialize (Hin Hnd).
  intros p' Hp'.
  assert (Hsrc : exists p r, In p players
             /\ player_points (average_strength teams) (strength_dict teams)
                              team_fixtures p = Ok r
             /\ p' = updated r p).
  { clear Hin Hrun Hnd. induction Hall as [|q q' l l' (r & Hr & Hq') _ IH].
    - destruct Hp'.
    - destruct Hp' as [<-|Hp'].
      + exists q, r. split; [now left|]. now split.
      + destruct (IH Hp') as (p & r' & Hp & H). exists p, r'.
        split; [now right|exact H]. }
  destruct Hsrc as (p & r & Hp & Hr & ->).
  destruct (Hin p Hp) as (r' & Hr' & Hl).
  assert (r' = r) by congruence. subst r'.
  unfold has_points. rewrite pid_updated, Hl.
  destruct r as [v|]; [intros _; discriminate|].
  rewrite lookup_empty. discriminate.
Qed.

(** ** What the selectors receive *)

Lemma selected_incl_avail (solver : LpProblem -> LpSolution) (players : list player)
    (expected : gmap Z Q) (current_squad : list squad_entry) (free_transfers : Z)
    (chip : option chip_name) (selected : list player) (total_cost squad_expected : Q) :
  optimize_squad solver players expected current_squad free_transfers chip
  = Ok (selected, total_cost, squad_expected) ->
  incl selected (avail_players_of players expected)
  /\ total_cost = py_sum (map price selected)
  /\ squad_expected = py_sum (map points_key selected)
  /\ Forall (fun p => expected_points p = Some (points_key p)) selected.
Proof.
  unfold optimize_squad.
  set (avail := avail_players_of players expected).
  set (cur := current_squad_players_of avail current_squad).
  destruct (negb (is_optimal (status (solver _)))); [discriminate|].
  set (sel := if transfer_mode cur chip then _ else _).
  intros H. apply bind_Ok in H as (points & Hpts & H).
  injection H as <- <- <-.
  split; [|split; [reflexivity|split]].
  - unfold sel. destruct (transfer_mode cur chip).
    + intros p Hp. apply in_app_or in Hp as [Hp|Hp].
      * apply (current_squad_incl avail current_squad).
        now apply chosen_incl in Hp.
      * apply chosen_incl in Hp. now apply not_held_incl in Hp.
    + apply chosen_incl.
  - now rewrite (map_result_points _ _ Hpts).
  - apply map_result_Ok in Hpts. clear - Hpts.
    induction Hpts as [|q v l vs Hq _ IH]; constructor; auto.
    apply get_expected_points_key in Hq as [-> Hq]. exact Hq.
Qed.

Lemma returned_total_is_projected (solver : LpProblem -> LpSolution)
    (selected : list player) (expected : gmap Z Q) (chip : option chip_name)
    (best : lineup_choice) :
  optimize_lineup solver selected expected chip = Ok best ->
  best_form best <> None ->
  projected_total selected (best_lineup best) chip = Ok (best_proj best)
  /\ incl (best_lineup best) selected.
Proof.
  intros Hrun Hform. apply lineup_loop_cases in Hrun.
  destruct Hrun as [[-> _]|(fs1 & f & fs2 & _ & Hp & _)]; [now elim Hform|].
  destruct Hp as (lineup & t & c & (_ & Hl & Ht) & _ & ->). simpl.
  split; [exact Ht|]. rewrite Hl. apply chosen_incl.
Qed.


Lemma sample_feed_ids_distinct : NoDup (map pid Sample.players).
Proof. apply NoDup_by_computation. vm_compute. reflexivity. Qed.

Lemma sample_club_ids_distinct : NoDup (map club_id Sample.teams).
Proof. apply NoDup_by_computation. vm_compute. reflexivity. Qed.

Lemma sample_strengths (t : club) : In t Sample.teams -> strength t <> 0.
Proof.
  revert t. apply Forall_forall.
  repeat (constructor; [discriminate|]). constructor.
Qed.

Lemma sample_team_fixtures :
  calculate_team_fixtures Sample.teams Sample.fixtures = Ok Sample.team_fixtures.
Proof. vm_compute. reflexivity. Qed.


(** ** Players left out *)

Lemma pid_null_as_100 (p : player) : pid (null_as_100 p) = pid p.
Proof. unfold null_as_100. now destruct (chance_of_playing_next_round p). Qed.

Lemma player_points_null_as_100 avg_strength team_strength team_fixtures p :
  player_points avg_strength team_strength team_fixtures (null_as_100 p)
  = player_points avg_strength team_strength team_fixtures p.
Proof.
  unfold null_as_100.
  destruct (chance_of_playing_next_round p) as [c|] eqn:Ec; [reflexivity|].
  unfold player_points.
  cbn [chance_of_playing_next_round team form points_per_game ict_index].
  rewrite Ec.
  destruct (default [] (team_fixtures !! team p)) as [|fx fixes]; [reflexivity|].
  change (100 =? 0) with false. cbv iota.
  match goal with
  | |- context [for_each ?f ?l ?s] => destruct (for_each f l s) as [exp|e]
  end; [|reflexivity].
  cbn [bind chance_factor_of]. do 2 f_equal. apply round2_compat.
  assert (E100 : (inject_Z 100 / 100 == 1)%Q) by reflexivity.
  rewrite E100. reflexivity.
Qed.

Lemma points_loop_null_as_100 avg_strength team_strength team_fixtures
    (players : list player) :
  forall m visited visited2 m' visited',
    for_each (expected_points_step avg_strength team_strength team_fixtures)
             players (m, visited) = Ok (m', visited') ->
    exists visited2',
      for_each (expected_points_step avg_strength team_strength team_fixtures)
               (map null_as_100 players) (m, visited2) = Ok (m', visited2').
Proof.
  induction players as [|p players IH]; intros m visited visited2 m' visited' Hrun.
  - simpl in *. injection Hrun as <- _. eauto.
  - cbn [for_each map] in *.
    apply bind_Ok in Hrun as ([m1 v1] & Hstep & Hrun).
    rewrite expected_points_step_spec in Hstep.
    apply bind_Ok in Hstep as (r & Hr & Hstep). injection Hstep as <- <-.
    rewrite expected_points_step_spec, player_points_null_as_100, Hr.
    simpl bind. rewrite pid_null_as_100.
    eapply IH. exact Hrun.
Qed.

Lemma lineup_incl_selected (solver : LpProblem -> LpSolution)
    (selected : list player) (expected : gmap Z Q) (chip : option chip_name)
    (best : lineup_choice) :
  optimize_lineup solver selected expected chip = Ok best ->
  incl (best_lineup best) selected.
Proof.
  intros Hrun.
  destruct (best_form best) eqn:E.
  - apply (returned_total_is_projected solver selected expected chip best Hrun).
    congruence.
  - apply lineup_loop_cases in Hrun.
    destruct Hrun as [[-> _]|(fs1 & f & fs2 & _ & Hp & _)]; [intros ? []|].
    destruct Hp as (lineup & t & c & _ & _ & ->). discriminate E.
Qed.

(** C6.  A player whose availability is 0 or whose club has no fixture gets
    no entry in the expected-points dictionary, and no player with that id is
    in a squad or lineup built from it; a null availability gives the same
    dictionary as an availability of 100. *)
Theorem skipped_players_are_left_out
    (players : list player) (teams : list club)
    (team_fixtures : gmap Z (list team_fixture))
    (expected : gmap Z Q) (players' : list player) :
  NoDup (map pid players) ->
  calculate_expected_points players teams team_fixtures = Ok (expected, players') ->
  (forall p, In p players -> skipped team_fixtures p ->
     expected !! pid p = None
     /\ forall (solver : LpProblem -> LpSolution) current_squad free_transfers chip
               selected total_cost squad_expected,
          optimize_squad solver players' expected current_squad free_transfers chip
          = Ok (selected, total_cost, squad_expected) ->
          ~ In (pid p) (map pid selected)
          /\ forall best,
               optimize_lineup solver selected expected chip = Ok best ->
               ~ In (pid p) (map pid (best_lineup best)))
  /\ exists players100,
       calculate_expected_points (map null_as_100 players) teams team_fixtures
       = Ok (expected, players100).
Proof.
  intros Hpid Hrun.
  assert (Hteams : teams <> []) by (intros ->; discriminate Hrun).
  rewrite (calculate_expected_points_unfold _ _ _ Hteams) in Hrun.
  split.
  - intros p Hp Hskip.
    destruct (points_loop_spec _ _ _ _ _ _ _ _ Hrun) as (_ & Hin & _).
    destruct (Hin Hpid p Hp) as (r & Hr & Hl).
    assert (Hnone : r = None).
    { unfold player_points, skipped in *.
      destruct Hskip as [E|E].
      - rewrite E in Hr. simpl in Hr.
        destruct (default [] (team_fixtures !! team p)); now injection Hr.
      - rewrite E in Hr. now injection Hr. }
    subst r. rewrite lookup_empty in Hl.
    split; [exact Hl|].
    intros solver current_squad free_transfers chip selected total_cost
           squad_expected Hsq.
    destruct (selected_incl_avail _ _ _ _ _ _ _ _ _ Hsq) as (Hsel & _).
    assert (Hout : ~ In (pid p) (map pid selected)).
    { intros Hq. apply in_map_iff in Hq as (q & Hqp & Hq).
      apply Hsel, avail_has_points in Hq as [_ Hhas].
      unfold has_points in Hhas. rewrite Hqp, Hl in Hhas. discriminate Hhas. }
    split; [exact Hout|].
    intros best Hbest Hq. apply Hout.
    apply in_map_iff in Hq as (q & Hqp & Hq).
    apply in_map_iff. exists q. split; [exact Hqp|].
    now apply (lineup_incl_selected solver selected expected chip best Hbest).
  - rewrite (calculate_expected_points_unfold _ _ _ Hteams).
    eapply points_loop_null_as_100. exact Hrun.
Qed.

(** The sample gameweek: player 16 (availability 0) and player 17 (idle
    club) have no entry and are in no squad. *)
Lemma skipped_players_witness :
  Sample.expected !! 16 = None /\ Sample.expected !! 17 = None
  /\ exists selected total_cost squad_expected,
       optimize_squad Sample.solver Sample.scored Sample.expected [] 1 None
       = Ok (selected, total_cost, squad_expected)
       /\ ~ In 16 (map pid selected) /\ ~ In 17 (map pid selected).
Proof.
  assert (Hrun : calculate_expected_points Sample.players Sample.teams
                   Sample.team_fixtures = Ok (Sample.expected, Sample.scored))
    by (vm_compute; reflexivity).
  destruct (skipped_players_are_left_out _ _ _ _ _ sample_feed_ids_distinct Hrun)
    as [Hskip _].
  destruct (Hskip (nth 15 Sample.players (Sample.raw 0 EmptyString 0 0 0 None 0 0)))
    as [H16 Hsel16]; [do 15 right; now left|left; reflexivity|].
  destruct (Hskip (nth 16 Sample.players (Sample.raw 0 EmptyString 0 0 0 None 0 0)))
    as [H17 Hsel17]; [do 16 right; now left|right; vm_compute; reflexivity|].
  split; [exact H16|]. split; [exact H17|].
  assert (Hsq : exists selected total_cost squad_expected,
             optimize_squad Sample.solver Sample.scored Sample.expected [] 1 None
             = Ok (selected, total_cost, squad_expected))
    by (do 3 eexists; vm_compute; reflexivity).
  destruct Hsq as (selected & total_cost & squad_expected & Hsq).
  exists selected, total_cost, squad_expected.
  split; [exact Hsq|]. split.
  - exact (proj1 (Hsel16 _ _ _ _ _ _ _ Hsq)).
  - exact (proj1 (Hsel17 _ _ _ _ _ _ _ Hsq)).
Defined.

(** * Persistence and the run as a whole *)

Lemma sample_run_succeeds (f : file_state) (writable : bool) :
  exists rep, optimize Sample.solver plain_args [] (sample_world f writable) = Ok rep.
Proof. eexists. vm_compute. reflexivity. Qed.

(** C9.  The sample gameweek with a default snapshot file that exists but
    cannot be opened, and no [--squad] argument: [open] raises [OSError],
    which [load_squad] does not catch (it catches the JSON decoding error
    only) and which nothing in [main] catches either, so the run aborts
    before anything is logged, reported or written.  The optimisation with
    an empty current squad would have succeeded: the same report is what the
    run prints for a malformed default snapshot, and for the same unopenable
    file given with [--squad], whose handler catches every exception. *)
Theorem unreadable_default_snapshot_aborts :
  printed (main Sample.solver plain_args (sample_world FileUnreadable true))
  = Raise OSError
  /\ logged (main Sample.solver plain_args (sample_world FileUnreadable true)) = []
  /\ written (main Sample.solver plain_args (sample_world FileUnreadable true)) = None
  /\ exists rep,
       optimize Sample.solver plain_args [] (sample_world FileUnreadable true) = Ok rep
       /\ printed (main Sample.solver plain_args (sample_world FileMalformed true))
          = Ok rep
       /\ printed (main Sample.solver (mkArgs (Some FileUnreadable) None 1)
                        (sample_world FileAbsent true))
          = Ok rep.
Proof.
  split; [reflexivity|]. split; [reflexivity|]. split; [reflexivity|].
  destruct (sample_run_succeeds FileUnreadable true) as (rep & Hrep).
  exists rep. split; [exact Hrep|].
  split; vm_compute in Hrep |- *; exact Hrep.
Qed.

(** The failures that are survived.  When the default snapshot file is
    absent or holds malformed JSON, or when the file given with [--squad]
    cannot be loaded for any reason, the run proceeds as with an empty
    current squad, which poses the full-rebuild problem.  Whatever the
    snapshot, a failure to write the new one changes nothing in what is
    reported: it is logged and no file is written. *)
Lemma persistence_failures_are_survived
    (solver : LpProblem -> LpSolution) (args : arguments) (w : world) :
  (arg_squad args = None ->
   squad_file w = FileAbsent \/ squad_file w = FileMalformed ->
   printed (main solver args w) = optimize solver args [] w)
  /\ (forall f, arg_squad args = Some f -> (forall content, f <> FileJson content) ->
                printed (main solver args w) = optimize solver args [] w)
  /\ (forall players expected free_transfers chip,
        squad_problem players expected [] free_transfers chip
        = rebuild_problem (avail_players_of players expected) expected)
  /\ printed (main solver args (mkWorld (squad_file w) (feed w) false))
     = printed (main solver args (mkWorld (squad_file w) (feed w) true))
  /\ (forall rep,
        writable w = false -> printed (main solver args w) = Ok rep ->
        In LogSaveError (logged (main solver args w))
        /\ written (main solver args w) = None).
Proof.
  split; [|split; [|split; [|split]]].
  - intros Harg Hfile. unfold main. rewrite Harg.
    destruct Hfile as [-> | ->]; simpl;
      destruct (optimize solver args [] w) as [rep|e]; try reflexivity;
      destruct (save_squad (r_selected rep) (writable w)); reflexivity.
  - intros f Harg Hf. unfold main. rewrite Harg. simpl.
    destruct f as [| | |content]; try (now elim (Hf content));
      destruct (optimize solver args [] w) as [rep|e]; try reflexivity;
      destruct (save_squad (r_selected rep) (writable w)); reflexivity.
  - reflexivity.
  - unfold main. simpl.
    destruct (match arg_squad args with
              | Some _ => (Ok [], [])
              | None => load_squad (squad_file w)
              end) as [[squad0|e] log1]; [|reflexivity].
    destruct (match arg_squad args with
              | Some (FileJson content) => (content, [])
              | Some _ => ([], [LogLoadError])
              | None => (squad0, [])
              end) as [current_squad log2].
    change (optimize solver args current_squad
              (mkWorld (squad_file w) (feed w) false))
      with (optimize solver args current_squad
              (mkWorld (squad_file w) (feed w) true)).
    now destruct (optimize solver args current_squad _).
  - intros rep Hw. unfold main. rewrite Hw.
    destruct (match arg_squad args with
              | Some _ => (Ok [], [])
              | None => load_squad (squad_file w)
              end) as [[squad0|e] log1]; [|discriminate].
    destruct (match arg_squad args with
              | Some (FileJson content) => (content, [])
              | Some _ => ([], [LogLoadError])
              | None => (squad0, [])
              end) as [current_squad log2].
    destruct (optimize solver args current_squad w) as [rep'|e]; [|discriminate].
    simpl. intros _. split; [|reflexivity].
    apply in_or_app. right. apply in_or_app. right. now left.
Qed.

(** The sample gameweek with a malformed snapshot on a read-only disk: the
    squad is reported, the decoding and saving errors are logged, nothing is
    written. *)
Lemma persistence_failures_on_sample :
  exists rep,
    printed (main Sample.solver plain_args (sample_world FileMalformed false)) = Ok rep
    /\ length (r_selected rep) = 15%nat
    /\ logged (main Sample.solver plain_args (sample_world FileMalformed false))
       = [LogDecodeError; LogSaveError]
    /\ written (main Sample.solver plain_args (sample_world FileMalformed false))
       = None.
Proof.
  destruct (sample_run_succeeds FileMalformed false) as (rep & Hrep).
  destruct (persistence_failures_are_survived
              Sample.solver plain_args (sample_world FileMalformed false))
    as (Hread & _ & _ & _ & Hwrite).
  exists rep.
  assert (Hprinted : printed (main Sample.solver plain_args
                                   (sample_world FileMalformed false)) = Ok rep).
  { rewrite <- Hrep. apply Hread; [reflexivity|now right]. }
  split; [exact Hprinted|].
  split; [vm_compute in Hrep; injection Hrep as <-; reflexivity|].
  split; [vm_compute; reflexivity|].
  exact (proj2 (Hwrite rep eq_refl Hprinted)).
Defined.

(** * Further properties of the scripts *)

(** ** The next gameweek *)

Lemma find_first {A : Type} (f : A -> bool) (l1 : list A) (x : A) (l2 : list A) :
  (forall y, In y l1 -> f y = false) -> f x = true ->
  find f (l1 ++ x :: l2) = Some x.
Proof.
  intros H1 Hx. induction l1 as [|y l1 IH]; simpl.
  - now rewrite Hx.
  - rewrite (H1 y (or_introl eq_refl)). apply IH. intros z Hz. apply H1. now right.
Qed.

Lemma find_none_iff {A : Type} (f : A -> bool) (l : list A) :
  find f l = None <-> forall y, In y l -> f y = false.
Proof.
  split.
  - intros H y Hy. now apply (find_none f l H).
  - intros H. induction l as [|x l IH]; simpl; [reflexivity|].
    rewrite (H x (or_introl eq_refl)). apply IH. intros y Hy. apply H. now right.
Qed.

Lemma fold_left_max_spec (l : list Z) (x : Z) :
  x <= fold_left Z.max l x
  /\ (forall y, In y l -> y <= fold_left Z.max l x)
  /\ In (fold_left Z.max l x) (x :: l).
Proof.
  revert x. induction l as [|y l IH]; intros x; simpl.
  - split; [lia|]. split; [intros ? []|now left].
  - destruct (IH (Z.max x y)) as (H1 & H2 & H3).
    split; [lia|]. split.
    + intros z [<-|Hz]; [lia|now apply H2].
    + destruct H3 as [H3|H3]; [|now do 2 right].
      destruct (Z.max_spec x y) as [[_ E]|[_ E]]; rewrite E in *; auto.
Qed.

(** X1.  When some event is flagged [is_next], the next gameweek is the id
    of the first event so flagged, whatever comes after it. *)
Theorem next_gameweek_is_first_flagged
    (before : list event) (e : event) (after : list event) :
  (forall x, In x before -> is_next x = false) ->
  is_next e = true ->
  get_next_gameweek (before ++ e :: after) = event_id e.
Proof.
  intros Hbefore He. unfold get_next_gameweek.
  now rewrite (find_first is_next before e after Hbefore He).
Qed.

(** Gameweeks 1 and 2 are over, 3 and 4 are both flagged: 3 is next. *)
Lemma next_gameweek_flagged_witness :
  get_next_gameweek
    ([mkEvent 1 false true; mkEvent 2 false true]
     ++ mkEvent 3 true false :: [mkEvent 4 true false])
  = 3.
Proof.
  apply (next_gameweek_is_first_flagged
           [mkEvent 1 false true; mkEvent 2 false true]
           (mkEvent 3 true false) [mkEvent 4 true false]).
  - intros x [<-|[<-|[]]]; reflexivity.
  - reflexivity.
Defined.

(** X2.  When no event is flagged [is_next], the next gameweek is one more
    than the largest id among the finished events, hence beyond every
    finished event; it is 1 when no event is finished. *)
Theorem next_gameweek_follows_finished (events : list event) :
  (forall x, In x events -> is_next x = false) ->
  (forall x, In x events -> finished x = true ->
             event_id x < get_next_gameweek events)
  /\ ((exists x, In x events /\ finished x = true
                 /\ get_next_gameweek events = event_id x + 1)
      \/ ((forall x, In x events -> finished x = false)
          /\ get_next_gameweek events = 1)).
Proof.
  intros Hnone. unfold get_next_gameweek.
  rewrite (proj2 (find_none_iff is_next events) Hnone).
  destruct (filter finished events) as [|y l] eqn:E; simpl.
  - split.
    + intros x Hx Hf.
      assert (Hin : In x (filter finished events)) by (apply filter_In; auto).
      rewrite E in Hin. destruct Hin.
    + right. split; [|reflexivity].
      intros x Hx. destruct (finished x) eqn:Hf; [|reflexivity].
      assert (Hin : In x (filter finished events)) by (apply filter_In; auto).
      rewrite E in Hin. destruct Hin.
  - destruct (fold_left_max_spec (map event_id l) (event_id y)) as (H1 & H2 & H3).
    split.
    + intros x Hx Hf.
      assert (Hin : In x (y :: l)) by (rewrite <- E; apply filter_In; auto).
      destruct Hin as [<-|Hin]; [lia|].
      specialize (H2 (event_id x) (in_map event_id _ _ Hin)). lia.
    + left.
      change (event_id y :: map event_id l) with (map event_id (y :: l)) in H3.
      apply in_map_iff in H3 as (x & Hx & Hin).
      rewrite <- E in Hin. apply filter_In in Hin as [Hin Hf].
      exists x. split; [exact Hin|]. split; [exact Hf|]. now rewrite Hx.
Qed.

(** Between two seasons nothing is flagged: after gameweeks 37 and 38 comes
    39. *)
Lemma next_gameweek_finished_witness :
  get_next_gameweek [mkEvent 38 false true; mkEvent 37 false true] = 39
  /\ get_next_gameweek [mkEvent 1 false false] = 1.
Proof.
  split.
  - destruct (next_gameweek_follows_finished
                [mkEvent 38 false true; mkEvent 37 false true]) as [_ H].
    + intros x [<-|[<-|[]]]; reflexivity.
    + reflexivity.
  - destruct (next_gameweek_follows_finished [mkEvent 1 false false]) as [_ H].
    + intros x [<-|[]]; reflexivity.
    + reflexivity.
Defined.

(** ** Club names *)

(** X3.  With distinct club ids, the name of every listed club is found
    under its id; an id that no club carries gives ["Unknown"] instead of an
    error. *)
Theorem team_name_found_or_unknown (teams : list club) :
  NoDup (map club_id teams) ->
  (forall t, In t teams -> get_team_name teams (club_id t) = short_name t)
  /\ (forall tid, ~ In tid (map club_id teams) ->
                  get_team_name teams tid = "Unknown"%string).
Proof.
  intros Hnd. split.
  - intros t Ht. unfold get_team_name.
    apply in_split in Ht as (l1 & l2 & ->).
    rewrite (find_first (fun u => club_id u =? club_id t) l1 t l2);
      [reflexivity| |apply Z.eqb_refl].
    intros u Hu. apply Z.eqb_neq. intros E.
    rewrite map_app in Hnd. simpl in Hnd.
    apply NoDup_remove_2 in Hnd. apply Hnd, in_or_app. left.
    rewrite <- E. now apply in_map.
  - intros tid Hno. unfold get_team_name.
    rewrite (proj2 (find_none_iff (fun t => club_id t =? tid) teams));
      [reflexivity|].
    intros u Hu. apply Z.eqb_neq. intros E. apply Hno. rewrite <- E. now apply in_map.
Qed.

(** Club 3 of the sample gameweek is ["CCC"]; there is no club 21. *)
Lemma team_name_witness :
  get_team_name Sample.teams 3 = "CCC"%string
  /\ get_team_name Sample.teams 21 = "Unknown"%string.
Proof.
  destruct (team_name_found_or_unknown Sample.teams sample_club_ids_distinct)
    as [Hfound Hunknown].
  split.
  - apply (Hfound (mkClub 3 "CCC" 3)). vm_compute. tauto.
  - apply Hunknown. vm_compute. intros H.
    repeat (destruct H as [H|H]; [discriminate H|]). exact H.
Defined.

(** ** The fixtures of every club *)

Lemma empty_fixtures_lookup (teams : list club) (c : Z) :
  fold_left (fun m t => <[club_id t := []]> m) teams
            (∅ : gmap Z (list team_fixture)) !! c
  = if in_dec Z.eq_dec c (map club_id teams) then Some [] else None.
Proof.
  assert (H : forall l (m : gmap Z (list team_fixture)),
             fold_left (fun m t => <[club_id t := []]> m) l m !! c
             = if in_dec Z.eq_dec c (map club_id l) then Some [] else m !! c).
  { induction l as [|t l IH]; intros m; [reflexivity|].
    cbn [fold_left]. rewrite IH.
    destruct (in_dec Z.eq_dec c (map club_id l)) as [Hin|Hout];
      destruct (in_dec Z.eq_dec c (map club_id (t :: l))) as [Hin'|Hout'];
      try reflexivity.
    - elim Hout'. now right.
    - destruct Hin' as [E|Hin']; [|now elim Hout].
      rewrite E. apply lookup_insert_eq.
    - rewrite lookup_insert_ne; [reflexivity|].
      intros E. apply Hout'. now left. }
  rewrite H. destruct (in_dec Z.eq_dec c (map club_id teams)); [reflexivity|].
  apply lookup_empty.
Qed.

Section FixtureGrouping.

Variable ids : list Z.

Local Abbreviation group :=
  (fun (m : gmap Z (list team_fixture)) (f : fixture) =>
     let* m1 := append_fixture (team_h f)
                  (mkTeamFixture (team_a f) (team_h_difficulty f) true) m in
     append_fixture (team_a f)
                  (mkTeamFixture (team_h f) (team_a_difficulty f) false) m1).

Local Abbreviation on_ids :=
  (fun (m : gmap Z (list team_fixture)) => forall c, is_Some (m !! c) <-> In c ids).

Lemma group_step (m : gmap Z (list team_fixture)) (f : fixture) :
  on_ids m ->
  (In (team_h f) ids /\ In (team_a f) ids ->
   exists m', group m f = Ok m' /\ on_ids m'
     /\ forall c, m' !! c = (fun l => l ++ entries_of c f) <$> m !! c)
  /\ (~ (In (team_h f) ids /\ In (team_a f) ids) -> group m f = Raise KeyError).
Proof.
  intros Hm. split.
  - intros [Hh Ha].
    destruct (proj2 (Hm _) Hh) as [lh Elh].
    cbv beta. unfold append_fixture at 1. rewrite Elh. simpl bind.
    set (m1 := <[team_h f := lh ++ [mkTeamFixture (team_a f) (team_h_difficulty f) true]]> m).
    assert (Hm1 : forall c, m1 !! c
                = (fun l => l ++ (if team_h f =? c
                                  then [mkTeamFixture (team_a f) (team_h_difficulty f) true]
                                  else [])) <$> m !! c).
    { intros c. unfold m1. destruct (Z.eqb_spec (team_h f) c) as [<-|Hne].
      - now rewrite lookup_insert_eq, Elh.
      - rewrite lookup_insert_ne by exact Hne.
        destruct (m !! c); simpl; [now rewrite app_nil_r|reflexivity]. }
    destruct (proj2 (Hm _) Ha) as [la0 Ela0].
    assert (exists la, m1 !! team_a f = Some la) as [la Ela]
      by (rewrite Hm1, Ela0; simpl; eauto).
    unfold append_fixture. rewrite Ela.
    eexists. split; [reflexivity|].
    assert (Hm2 : forall c,
               <[team_a f := la ++ [mkTeamFixture (team_h f) (team_a_difficulty f) false]]> m1
               !! c = (fun l => l ++ entries_of c f) <$> m !! c).
    { intros c. unfold entries_of. destruct (Z.eqb_spec (team_a f) c) as [<-|Hne].
      - rewrite lookup_insert_eq. rewrite Hm1 in Ela. rewrite Ela0 in *.
        simpl in *. injection Ela as <-. now rewrite app_assoc.
      - rewrite lookup_insert_ne by exact Hne. rewrite Hm1.
        destruct (m !! c); simpl; [now rewrite app_nil_r|reflexivity]. }
    split; [|exact Hm2].
    intros c. rewrite Hm2. etransitivity; [|apply Hm].
    destruct (m !! c); simpl; split; eauto; intros [? ?]; discriminate.
  - intros Hno. cbv beta. unfold append_fixture at 1.
    destruct (m !! team_h f) as [lh|] eqn:Elh; [|reflexivity].
    simpl bind. unfold append_fixture.
    destruct (_ !! team_a f) as [la|] eqn:Ela; [|reflexivity].
    elim Hno. split; [apply Hm; eauto|].
    apply Hm. destruct (Z.eqb_spec (team_h f) (team_a f)) as [E|Hne].
    + rewrite <- E, Elh. eauto.
    + rewrite lookup_insert_ne in Ela by exact Hne. eauto.
Qed.

Lemma group_loop (fixtures : list fixture) :
  forall m, on_ids m ->
    (Forall (fun f => In (team_h f) ids /\ In (team_a f) ids) fixtures ->
     exists m', for_each group fixtures m = Ok m'
       /\ forall c, m' !! c
                    = (fun l => l ++ flat_map (entries_of c) fixtures) <$> m !! c)
    /\ (~ Forall (fun f => In (team_h f) ids /\ In (team_a f) ids) fixtures ->
        for_each group fixtures m = Raise KeyError).
Proof.
  induction fixtures as [|f fixtures IH]; intros m Hm.
  - split.
    + intros _. exists m. split; [reflexivity|].
      intros c. destruct (m !! c); simpl; [now rewrite app_nil_r|reflexivity].
    + intros H. elim H. constructor.
  - destruct (group_step m f Hm) as [Hok Hbad].
    assert (Hdec : (In (team_h f) ids /\ In (team_a f) ids)
                   \/ ~ (In (team_h f) ids /\ In (team_a f) ids)).
    { destruct (in_dec Z.eq_dec (team_h f) ids);
        destruct (in_dec Z.eq_dec (team_a f) ids); tauto. }
    split.
    + intros Hall. apply Forall_cons_iff in Hall as [Hf Hall].
      destruct (Hok Hf) as (m1 & E1 & Hm1 & Hl1).
      destruct (proj1 (IH m1 Hm1) Hall) as (m' & E' & Hl').
      exists m'. cbn [for_each]. rewrite E1. split; [exact E'|].
      intros c. rewrite Hl', Hl1. cbn [flat_map].
      destruct (m !! c); simpl; [now rewrite app_assoc|reflexivity].
    + intros Hnot. cbn [for_each]. destruct Hdec as [Hf|Hf].
      * destruct (Hok Hf) as (m1 & E1 & Hm1 & _). rewrite E1. simpl bind.
        apply (IH m1 Hm1). intros Hall. apply Hnot. now constructor.
      * now rewrite (Hbad Hf).
Qed.

End FixtureGrouping.

Lemma team_fixtures_cases (teams : list club) (fixtures : list fixture) :
  (Forall (clubs_listed teams) fixtures ->
   exists tf, calculate_team_fixtures teams fixtures = Ok tf
     /\ forall c, tf !! c
                  = if in_dec Z.eq_dec c (map club_id teams)
                    then Some (flat_map (entries_of c) fixtures) else None)
  /\ (~ Forall (clubs_listed teams) fixtures ->
      calculate_team_fixtures teams fixtures = Raise KeyError).
Proof.
  unfold calculate_team_fixtures.
  set (m0 := fold_left _ teams ∅).
  assert (Hm0 : forall c, is_Some (m0 !! c) <-> In c (map club_id teams)).
  { intros c. unfold m0. rewrite empty_fixtures_lookup.
    destruct (in_dec Z.eq_dec c (map club_id teams)); split; eauto; try tauto.
    intros [? ?]; discriminate. }
  destruct (group_loop (map club_id teams) fixtures m0 Hm0) as [Hok Hbad].
  split; [|exact Hbad].
  intros Hall. destruct (Hok Hall) as (tf & E & Hl).
  exists tf. split; [exact E|].
  intros c. rewrite Hl. unfold m0. rewrite empty_fixtures_lookup.
  now destruct (in_dec Z.eq_dec c (map club_id teams)).
Qed.

Lemma clubs_listed_dec (teams : list club) (fixtures : list fixture) :
  Forall (clubs_listed teams) fixtures \/ ~ Forall (clubs_listed teams) fixtures.
Proof.
  destruct (Forall_dec (clubs_listed teams)
              (fun f => match in_dec Z.eq_dec (team_h f) (map club_id teams),
                              in_dec Z.eq_dec (team_a f) (map club_id teams) with
                        | left h, left a => left (conj h a)
                        | right h, _ => right (fun H => h (proj1 H))
                        | _, right a => right (fun H => a (proj2 H))
                        end) fixtures); auto.
Qed.

(** X4.  Grouping the fixtures fails exactly when some fixture names a home
    or away club that is not among the clubs of the feed, and then with
    [KeyError]; it raises nothing else. *)
Theorem team_fixtures_fail_on_unlisted_club
    (teams : list club) (fixtures : list fixture) :
  (calculate_team_fixtures teams fixtures = Raise KeyError
   <-> exists f, In f fixtures /\ ~ clubs_listed teams f)
  /\ (forall e, calculate_team_fixtures teams fixtures = Raise e -> e = KeyError).
Proof.
  destruct (team_fixtures_cases teams fixtures) as [Hok Hbad].
  destruct (clubs_listed_dec teams fixtures) as [Hall|Hnot].
  - destruct (Hok Hall) as (tf & E & _). rewrite E. split.
    + split; [discriminate|].
      intros (f & Hf & Hno). elim Hno.
      now apply (proj1 (Forall_forall _ _) Hall).
    + discriminate.
  - rewrite (Hbad Hnot). split.
    + split; [|reflexivity]. intros _.
      apply Exists_exists. apply neg_Forall_Exists_neg; [|exact Hnot].
      intros f. destruct (in_dec Z.eq_dec (team_h f) (map club_id teams));
        destruct (in_dec Z.eq_dec (team_a f) (map club_id teams));
        unfold clubs_listed; tauto.
    + intros e E. now injection E.
Qed.

(** X5.  When the grouping returns, the keys are the club ids of the feed,
    and the list of club [c] holds the fixtures of [c] in the order of the
    feed: for a home fixture the visitor, the home difficulty and [home]
    set, for an away fixture the host, the away difficulty and [home]
    unset. *)
Theorem team_fixtures_hold_every_match
    (teams : list club) (fixtures : list fixture) (tf : gmap Z (list team_fixture)) :
  calculate_team_fixtures teams fixtures = Ok tf ->
  (forall c, In c (map club_id teams) ->
             tf !! c = Some (flat_map (entries_of c) fixtures))
  /\ (forall c, ~ In c (map club_id teams) -> tf !! c = None).
Proof.
  intros Hrun.
  destruct (team_fixtures_cases teams fixtures) as [Hok Hbad].
  destruct (clubs_listed_dec teams fixtures) as [Hall|Hnot];
    [|rewrite (Hbad Hnot) in Hrun; discriminate Hrun].
  destruct (Hok Hall) as (tf' & E & Hl).
  rewrite E in Hrun. injection Hrun as <-.
  split; intros c Hc; rewrite Hl;
    destruct (in_dec Z.eq_dec c (map club_id teams)); tauto.
Qed.

(** On the sample gameweek club 1 hosts club 2, club 2 visits club 1 and
    club 7 is idle. *)
Lemma team_fixtures_witness :
  Sample.team_fixtures !! 1 = Some [mkTeamFixture 2 1 true]
  /\ Sample.team_fixtures !! 2 = Some [mkTeamFixture 1 1 false]
  /\ Sample.team_fixtures !! 7 = Some []
  /\ Sample.team_fixtures !! 8 = None.
Proof.
  destruct (team_fixtures_hold_every_match
              Sample.teams Sample.fixtures Sample.team_fixtures)
    as [Hin Hout]; [vm_compute; reflexivity|].
  assert (H8 : ~ In 8 (map club_id Sample.teams)).
  { vm_compute. intros H. repeat (destruct H as [H|H]; [discriminate H|]). exact H. }
  split; [apply (Hin 1); vm_compute; tauto|].
  split; [apply (Hin 2); vm_compute; tauto|].
  split; [apply (Hin 7); vm_compute; tauto|].
  apply (Hout 8 H8).
Defined.

(** ** Failures of the points model *)

Section PointsFailures.

Variables (teams : list club) (team_fixtures : gmap Z (list team_fixture)).

Local Abbreviation avg := (average_strength teams).
Local Abbreviation dict := (strength_dict teams).

Lemma fixture_points_cases (base ict_boost exp : Q) (fx : team_fixture) :
  ((strength_against teams (opp_id fx) == 0)%Q
   /\ fixture_points avg dict base ict_boost exp fx = Raise ZeroDivisionError)
  \/ (~ (strength_against teams (opp_id fx) == 0)%Q
      /\ exists exp', fixture_points avg dict base ict_boost exp fx = Ok exp').
Proof.
  unfold fixture_points, strength_against.
  destruct (Qeq_bool _ 0) eqn:E.
  - left. split; [now apply Qeq_bool_iff|reflexivity].
  - right. split; [|eauto]. intros H. apply Qeq_bool_iff in H. congruence.
Qed.

Lemma fixture_loop_cases (base ict_boost : Q) (fixes : list team_fixture) :
  forall exp,
    ((exists fx, In fx fixes /\ (strength_against teams (opp_id fx) == 0)%Q)
     /\ for_each (fixture_points avg dict base ict_boost) fixes exp
        = Raise ZeroDivisionError)
    \/ ((forall fx, In fx fixes -> ~ (strength_against teams (opp_id fx) == 0)%Q)
        /\ exists exp', for_each (fixture_points avg dict base ict_boost) fixes exp
                        = Ok exp').
Proof.
  induction fixes as [|fx fixes IH]; intros exp.
  - right. split; [intros ? []|]. simpl. eauto.
  - cbn [for_each].
    destruct (fixture_points_cases base ict_boost exp fx) as [[Hz ->]|[Hnz (e1 & ->)]].
    + left. split; [|reflexivity]. exists fx. split; [now left|exact Hz].
    + simpl bind. destruct (IH e1) as [[(fx' & Hin & Hz) ->]|[Hall (e2 & ->)]].
      * left. split; [|reflexivity]. exists fx'. split; [now right|exact Hz].
      * right. split; [|eauto]. intros fx' [<-|Hin]; auto.
Qed.

Lemma player_points_cases (p : player) :
  (meets_zero_strength teams team_fixtures p
   /\ player_points avg dict team_fixtures p = Raise ZeroDivisionError)
  \/ (~ meets_zero_strength teams team_fixtures p
      /\ exists r, player_points avg dict team_fixtures p = Ok r).
Proof.
  unfold player_points, meets_zero_strength, skipped.
  destruct (default [] (team_fixtures !! team p)) as [|fx fixes] eqn:Efix.
  - right. split; [|eauto]. intros [Hskip _]. apply Hskip. now right.
  - destruct (chance_of_playing_next_round p) as [c|] eqn:Ec.
    + destruct (Z.eqb_spec c 0) as [->|Hc].
      * right. split; [|eauto]. intros [Hskip _]. apply Hskip. now left.
      * destruct (fixture_loop_cases
                    (form p * (6 # 10) + points_per_game p * (4 # 10))%Q
                    (ict_index p / 100 * (2 # 10))%Q (fx :: fixes) 0%Q)
          as [[Hex ->]|[Hall (e & ->)]].
        -- left. split; [|reflexivity]. split; [|exact Hex].
           intros [H|H]; [injection H as H; contradiction|discriminate H].
        -- right. split; [|simpl; eauto].
           intros [_ (fx' & Hin & Hz)]. exact (Hall fx' Hin Hz).
    + destruct (fixture_loop_cases
                  (form p * (6 # 10) + points_per_game p * (4 # 10))%Q
                  (ict_index p / 100 * (2 # 10))%Q (fx :: fixes) 0%Q)
        as [[Hex ->]|[Hall (e & ->)]].
      * left. split; [|reflexivity]. split; [|exact Hex].
        intros [H|H]; discriminate H.
      * right. split; [|simpl; eauto].
        intros [_ (fx' & Hin & Hz)]. exact (Hall fx' Hin Hz).
Qed.

Lemma points_loop_cases (players : list player) :
  forall st,
    ((exists p, In p players /\ meets_zero_strength teams team_fixtures p)
     /\ for_each (expected_points_step avg dict team_fixtures) players st
        = Raise ZeroDivisionError)
    \/ ((forall p, In p players -> ~ meets_zero_strength teams team_fixtures p)
        /\ exists st', for_each (expected_points_step avg dict team_fixtures) players st
                       = Ok st').
Proof.
  induction players as [|p players IH]; intros [m visited].
  - right. split; [intros ? []|]. simpl. eauto.
  - cbn [for_each]. rewrite expected_points_step_spec.
    destruct (player_points_cases p) as [[Hz ->]|[Hnz (r & ->)]].
    + left. split; [|reflexivity]. exists p. split; [now left|exact Hz].
    + simpl bind.
      destruct (IH (match r with Some v => <[pid p := v]> m | None => m end,
                    visited ++ [updated r p]))
        as [[(q & Hin & Hz) ->]|[Hall (st' & ->)]].
      * left. split; [|reflexivity]. exists q. split; [now right|exact Hz].
      * right. split; [|eauto]. intros q [<-|Hin]; auto.
Qed.

End PointsFailures.

(** X6.  The points model fails only by division by zero, and exactly in two
    cases: the feed has no club at all (the average strength cannot be
    taken, even with no player to score), or some player who is not skipped
    has a fixture against an opponent whose strength, as looked up with the
    average as default, is 0. *)
Theorem points_model_fails_on_zero_strength
    (players : list player) (teams : list club)
    (team_fixtures : gmap Z (list team_fixture)) :
  (calculate_expected_points players teams team_fixtures = Raise ZeroDivisionError
   <-> teams = []
       \/ exists p, In p players /\ meets_zero_strength teams team_fixtures p)
  /\ (forall e, calculate_expected_points players teams team_fixtures = Raise e ->
                e = ZeroDivisionError).
Proof.
  destruct teams as [|t teams'] eqn:Et.
  - simpl. split; [split; auto|]. intros e E. now injection E.
  - rewrite <- Et. assert (Hne : teams <> []) by (rewrite Et; discriminate).
    rewrite (calculate_expected_points_unfold _ _ _ Hne).
    destruct (points_loop_cases teams team_fixtures players (∅, []))
      as [[Hex ->]|[Hall (st' & ->)]].
    + split; [split; auto|]. intros e E. now injection E.
    + split; [|discriminate]. split; [discriminate|].
      intros [H|(p & Hin & Hz)]; [contradiction|]. elim (Hall p Hin Hz).
Qed.

(** A visitor of strength 0: the host's players cannot be scored. *)
Lemma points_model_zero_strength_witness :
  calculate_expected_points
    [Sample.raw 1 "Keeper1" 1 1 55 (Some 100) 5 5]
    [mkClub 1 "AAA" 3; mkClub 2 "BBB" 0]
    {[ 1 := [mkTeamFixture 2 1 true]; 2 := [mkTeamFixture 1 1 false] ]}
  = Raise ZeroDivisionError.
Proof.
  apply (proj1 (points_model_fails_on_zero_strength _ _ _)).
  right. eexists. split; [now left|]. split.
  - intros [H|H]; vm_compute in H; discriminate H.
  - exists (mkTeamFixture 2 1 true). split; [vm_compute; tauto|].
    vm_compute. reflexivity.
Defined.

(** ** The sign of the estimates *)

Lemma round_half_even_nonneg (x : Q) : (0 <= x)%Q -> 0 <= round_half_even x.
Proof.
  intros Hx. unfold round_half_even.
  assert (Hf : 0 <= Qfloor x).
  { change 0 with (Qfloor 0). now apply Qfloor_resp_le. }
  destruct (_ ?= _)%Q; [destruct (Z.even _)|..]; lia.
Qed.

Lemma round2_nonneg (x : Q) : (0 <= x)%Q -> (0 <= round2 x)%Q.
Proof.
  intros Hx. unfold round2.
  assert (H : 0 <= round_half_even (x * 100)).
  { apply round_half_even_nonneg. apply Qmult_le_0_compat; [exact Hx|easy]. }
  unfold Qle. simpl. lia.
Qed.

Lemma strength_dict_values (teams : list club) (i s : Z) :
  strength_dict teams !! i = Some s -> exists t, In t teams /\ strength t = s.
Proof.
  unfold strength_dict.
  assert (H : forall l (m : gmap Z Z),
             fold_left (fun m t => <[club_id t := strength t]> m) l m !! i = Some s ->
             (exists t, In t l /\ strength t = s) \/ m !! i = Some s).
  { induction l as [|t l IH]; intros m Hl; [now right|].
    cbn [fold_left] in Hl. destruct (IH _ Hl) as [(u & Hu & Es)|Hm].
    - left. exists u. split; [now right|exact Es].
    - destruct (decide (club_id t = i)) as [E|Hne].
      + rewrite E, lookup_insert_eq in Hm. injection Hm as Hm.
        left. exists t. split; [now left|exact Hm].
      + rewrite lookup_insert_ne in Hm by exact Hne. now right. }
  intros Hl. destruct (H _ _ Hl) as [Hex|Hm]; [exact Hex|].
  rewrite lookup_empty in Hm. discriminate.
Qed.

Lemma strength_sum_pos (teams : list club) :
  teams <> [] -> (forall t, In t teams -> 0 < strength t) ->
  0 < fold_right Z.add 0 (map strength teams).
Proof.
  induction teams as [|t teams IH]; intros Hne Hpos; [congruence|].
  simpl. pose proof (Hpos t (or_introl eq_refl)) as Ht.
  destruct teams as [|u teams]; [simpl; lia|].
  assert (0 < fold_right Z.add 0 (map strength (u :: teams))).
  { apply IH; [discriminate|]. intros v Hv. apply Hpos. now right. }
  lia.
Qed.

Lemma average_strength_pos (teams : list club) :
  teams <> [] -> (forall t, In t teams -> 0 < strength t) ->
  (0 < average_strength teams)%Q.
Proof.
  intros Hne Hpos. unfold average_strength.
  pose proof (strength_sum_pos teams Hne Hpos) as Hs.
  assert (Hl : 0 < Z.of_nat (length teams)) by (destruct teams; [congruence|simpl; lia]).
  apply Qlt_shift_div_l.
  - change 0%Q with (inject_Z 0). now rewrite <- Zlt_Qlt.
  - rewrite Qmult_0_l. change 0%Q with (inject_Z 0). now rewrite <- Zlt_Qlt.
Qed.

Lemma strength_against_pos (teams : list club) (i : Z) :
  teams <> [] -> (forall t, In t teams -> 0 < strength t) ->
  (0 < strength_against teams i)%Q.
Proof.
  intros Hne Hpos. unfold strength_against.
  destruct (strength_dict teams !! i) as [s|] eqn:E.
  - apply strength_dict_values in E as (t & Ht & <-).
    change 0%Q with (inject_Z 0). rewrite <- Zlt_Qlt. now apply Hpos.
  - now apply average_strength_pos.
Qed.

(** X7.  On a feed whose club strengths are positive, whose fixture
    difficulties do not exceed 6 and whose players have no negative form,
    points per game, impact index or availability, no estimate is
    negative. *)
Theorem estimates_are_not_negative
    (players : list player) (teams : list club)
    (team_fixtures : gmap Z (list team_fixture))
    (expected : gmap Z Q) (players' : list player) :
  (forall t, In t teams -> 0 < strength t) ->
  (forall c l fx, team_fixtures !! c = Some l -> In fx l -> diff fx <= 6) ->
  (forall p, In p players ->
     (0 <= form p)%Q /\ (0 <= points_per_game p)%Q /\ (0 <= ict_index p)%Q
     /\ forall c, chance_of_playing_next_round p = Some c -> 0 <= c) ->
  calculate_expected_points players teams team_fixtures = Ok (expected, players') ->
  forall i v, expected !! i = Some v -> (0 <= v)%Q.
Proof.
  intros Hstr Hdiff Hplayers Hrun.
  assert (Hne : teams <> []) by (destruct teams; [discriminate Hrun|discriminate]).
  rewrite (calculate_expected_points_unfold _ _ _ Hne) in Hrun.
  pose (I := fun st : gmap Z Q * list player =>
               forall i v, fst st !! i = Some v -> (0 <= v)%Q).
  change (I (expected, players')).
  apply (for_each_invariant _ I players (∅, []) _) in Hrun; [exact Hrun| |].
  - intros [m visited] p [m' visited'] Hp Hm Hstep.
    rewrite expected_points_step_spec in Hstep.
    apply bind_Ok in Hstep as (r & Hr & Hstep). injection Hstep as <- _.
    intros i v. cbn [fst]. destruct r as [w|]; [|apply Hm].
    destruct (decide (pid p = i)) as [->|Hne'];
      [|rewrite lookup_insert_ne by exact Hne'; apply Hm].
    rewrite lookup_insert_eq. intros E. injection E as <-.
    clear Hm I. destruct (Hplayers p Hp) as (Hform & Hppg & Hict & Hchance).
    unfold player_points in Hr.
    destruct (default [] (team_fixtures !! team p)) as [|fx fixes] eqn:Efix;
      [discriminate Hr|].
    destruct (match chance_of_playing_next_round p with
              | Some c => c =? 0
              | None => false
              end); [discriminate Hr|].
    apply bind_Ok in Hr as (exp & Hexp & Hr). injection Hr as <-.
    assert (Hfix : forall fx', In fx' (fx :: fixes) -> diff fx' <= 6).
    { intros fx' Hin. destruct (team_fixtures !! team p) as [l|] eqn:El;
        simpl in Efix; [|discriminate Efix].
      subst l. exact (Hdiff _ _ _ El Hin). }
    assert (Hnonneg : (0 <= exp)%Q).
    { apply (for_each_invariant _ (fun e => (0 <= e)%Q) (fx :: fixes) 0%Q exp)
        in Hexp; [exact Hexp| |apply Qle_refl].
      intros e fx' e' Hin He Hstep. unfold fixture_points in Hstep.
      fold (strength_against teams (opp_id fx')) in Hstep.
      destruct (Qeq_bool _ 0); [discriminate Hstep|]. injection Hstep as <-.
      pose proof (strength_against_pos teams (opp_id fx') Hne Hstr) as Hopp.
      pose proof (average_strength_pos teams Hne Hstr) as Havg.
      pose proof (Hfix fx' Hin) as Hd.
      assert (H1 : (0 <= form p * (6 # 10) + points_per_game p * (4 # 10))%Q).
      { apply (Qplus_le_compat 0 _ 0); apply Qmult_le_0_compat; easy. }
      assert (H2 : (0 <= inject_Z (6 - diff fx') / 5)%Q).
      { apply Qle_shift_div_l; [easy|]. rewrite Qmult_0_l.
        change 0%Q with (inject_Z 0). rewrite <- Zle_Qle. lia. }
      assert (H3 : (0 <= (if home fx' then 12 # 10 else 9 # 10))%Q)
        by (destruct (home fx'); easy).
      assert (H4 : (0 <= average_strength teams / strength_against teams (opp_id fx'))%Q).
      { apply Qle_shift_div_l; [exact Hopp|]. rewrite Qmult_0_l.
        now apply Qlt_le_weak. }
      assert (H5 : (0 <= 1 + ict_index p / 100 * (2 # 10))%Q).
      { apply (Qplus_le_compat 0 _ 0); [easy|].
        apply Qmult_le_0_compat; [|easy].
        apply Qle_shift_div_l; [easy|]. now rewrite Qmult_0_l. }
      apply (Qplus_le_compat 0 _ 0); [exact He|].
      apply Qmult_le_0_compat; [|exact H5].
      apply Qmult_le_0_compat; [|exact H4].
      apply Qmult_le_0_compat; [|exact H3].
      apply Qmult_le_0_compat; [exact H1|exact H2]. }
    apply round2_nonneg. apply Qmult_le_0_compat; [exact Hnonneg|].
    unfold chance_factor_of.
    destruct (chance_of_playing_next_round p) as [c|]; [|easy].
    apply Qle_shift_div_l; [easy|]. rewrite Qmult_0_l.
    change 0%Q with (inject_Z 0). rewrite <- Zle_Qle. now apply Hchance.
  - intros i v. cbn [fst]. rewrite lookup_empty. discriminate.
Qed.

Lemma grouped_difficulties (teams : list club) (fixtures : list fixture)
    (tf : gmap Z (list team_fixture)) (c : Z) (l : list team_fixture)
    (fx : team_fixture) :
  calculate_team_fixtures teams fixtures = Ok tf ->
  tf !! c = Some l -> In fx l ->
  exists f, In f fixtures
            /\ (diff fx = team_h_difficulty f \/ diff fx = team_a_difficulty f).
Proof.
  intros Hrun Hl Hfx.
  destruct (team_fixtures_cases teams fixtures) as [Hok Hbad].
  destruct (clubs_listed_dec teams fixtures) as [Hall|Hnot];
    [|rewrite (Hbad Hnot) in Hrun; discriminate Hrun].
  destruct (Hok Hall) as (tf' & E & Hl').
  rewrite E in Hrun. injection Hrun as <-.
  rewrite Hl' in Hl. destruct (in_dec Z.eq_dec c (map club_id teams)); [|discriminate Hl].
  injection Hl as <-. apply in_flat_map in Hfx as (f & Hf & Hfx).
  exists f. split; [exact Hf|]. unfold entries_of in Hfx.
  apply in_app_or in Hfx as [Hfx|Hfx].
  - destruct (team_h f =? c); [|destruct Hfx]. destruct Hfx as [<-|[]]. now left.
  - destruct (team_a f =? c); [|destruct Hfx]. destruct Hfx as [<-|[]]. now right.
Qed.

(** The lowest estimate of the sample gameweek, that of player 7. *)
Lemma estimates_not_negative_witness :
  Sample.expected !! 7 = Some (225 # 100)%Q /\ (0 <= 225 # 100)%Q.
Proof.
  split; [vm_compute; reflexivity|].
  apply (estimates_are_not_negative
           Sample.players Sample.teams Sample.team_fixtures
           Sample.expected Sample.scored) with (i := 7).
  - intros t Ht. vm_compute in Ht.
    repeat (destruct Ht as [<-|Ht]; [reflexivity|]). destruct Ht.
  - intros c l fx Hl Hfx.
    destruct (grouped_difficulties Sample.teams Sample.fixtures Sample.team_fixtures
                c l fx) as (f & Hf & Hd); [vm_compute; reflexivity|exact Hl|exact Hfx|].
    vm_compute in Hf.
    repeat (destruct Hf as [<-|Hf]; [destruct Hd as [-> | ->]; vm_compute; discriminate|]).
    destruct Hf.
  - intros p Hp. vm_compute in Hp.
    repeat (destruct Hp as [<-|Hp];
            [repeat split; try (vm_compute; discriminate);
             intros c Hc; vm_compute in Hc; try discriminate Hc;
             injection Hc as <-; vm_compute; discriminate|]).
    destruct Hp.
  - vm_compute. reflexivity.
  - vm_compute. reflexivity.
Defined.

(** ** The stored squad *)

Lemma filter_first_match (avail : list player) (i : Z) :
  match filter (fun p => pid p =? i) avail with
  | m :: _ => pid m = i /\ In m avail /\ eligible_id avail i = true
  | [] => eligible_id avail i = false
  end.
Proof.
  unfold eligible_id.
  induction avail as [|p avail IH]; simpl; [reflexivity|].
  destruct (Z.eqb_spec (pid p) i) as [E|Hne]; simpl.
  - split; [exact E|]. split; [now left|reflexivity].
  - destruct (filter (fun p => pid p =? i) avail) as [|m ms].
    + exact IH.
    + destruct IH as (H1 & H2 & H3). split; [exact H1|]. split; [now right|exact H3].
Qed.

(** X8.  The stored squad is matched against the eligible players by id, in
    the order of the file: an entry whose id no eligible player carries is
    dropped, an entry that is not a dict with an id is dropped, and a
    repeated id is matched again; nothing else is held. *)
Theorem stored_squad_is_matched_by_id
    (avail : list player) (current_squad : list squad_entry) :
  map pid (current_squad_players_of avail current_squad)
  = filter (eligible_id avail) (squad_ids current_squad)
  /\ incl (current_squad_players_of avail current_squad) avail.
Proof.
  split; [|apply current_squad_incl].
  induction current_squad as [|e l IH]; [reflexivity|].
  unfold current_squad_players_of, squad_ids in *. cbn [flat_map].
  rewrite map_app, filter_app, IH. f_equal.
  destruct e as [i|]; [|reflexivity].
  pose proof (filter_first_match avail i) as H.
  destruct (filter (fun p => pid p =? i) avail) as [|m ms]; simpl.
  - now rewrite H.
  - destruct H as (-> & _ & ->). reflexivity.
Qed.

Lemma first_match_is_the_player (avail : list player) (p : player) :
  NoDup (map pid avail) -> In p avail ->
  exists ms, filter (fun q => pid q =? pid p) avail = p :: ms.
Proof.
  induction avail as [|q avail IH]; intros Hnd Hin; [destruct Hin|].
  simpl in Hnd. apply NoDup_cons_iff in Hnd as [Hq Hnd]. simpl.
  destruct Hin as [->|Hin].
  - rewrite Z.eqb_refl. eauto.
  - destruct (Z.eqb_spec (pid q) (pid p)) as [E|Hne]; [|now apply IH].
    elim Hq. rewrite E. now apply in_map.
Qed.

(** X9.  A squad written by [save_squad] and read back by [load_squad] is
    found again: when the feed gives distinct ids and the saved players are
    all among the eligible ones, the selector holds exactly those players, in
    the saved order. *)
Theorem saved_squad_is_found_again
    (avail selected : list player) (snapshot : list snapshot_entry)
    (current_squad : list squad_entry) :
  NoDup (map pid avail) ->
  incl selected avail ->
  fst (save_squad selected true) = Some snapshot ->
  fst (load_squad (FileJson (stored_entries snapshot))) = Ok current_squad ->
  current_squad_players_of avail current_squad = selected.
Proof.
  intros Hnd Hincl Hsave Hload. simpl in Hsave, Hload.
  injection Hsave as <-. injection Hload as <-.
  unfold stored_entries. rewrite map_map. cbn [s_id].
  induction selected as [|p l IH]; [reflexivity|].
  unfold current_squad_players_of in *. cbn [map flat_map].
  destruct (first_match_is_the_player avail p Hnd (Hincl p (or_introl eq_refl)))
    as (ms & ->).
  simpl. f_equal. apply IH. intros q Hq. apply Hincl. now right.
Qed.

(** The sample squad, saved and read back on the same gameweek. *)
Lemma saved_squad_witness :
  exists snapshot,
    fst (save_squad Sample.squad true) = Some snapshot
    /\ current_squad_players_of (avail_players_of Sample.scored Sample.expected)
                                (stored_entries snapshot)
       = Sample.squad.
Proof.
  eexists. split; [reflexivity|].
  eapply (saved_squad_is_found_again
            (avail_players_of Sample.scored Sample.expected) Sample.squad).
  - apply NoDup_map_filter, sample_ids_distinct.
  - intros p Hp. vm_compute in Hp |- *. exact Hp.
  - reflexivity.
  - reflexivity.
Defined.

(** ** Chips that rebuild the squad *)

(** X10.  With the wildcard or the free-hit chip the Squad Selector ignores
    the stored squad and the number of free transfers altogether: it returns
    what it returns for an empty stored squad, whatever the chip then is. *)
Theorem unlimited_chips_ignore_the_stored_squad
    (solver : LpProblem -> LpSolution) (players : list player)
    (expected : gmap Z Q) (current_squad : list squad_entry)
    (free_transfers free_transfers' : Z) (chip chip' : option chip_name) :
  unlimited_chip chip = true ->
  optimize_squad solver players expected current_squad free_transfers chip
  = optimize_squad solver players expected [] free_transfers' chip'.
Proof.
  intros Hchip. unfold optimize_squad, squad_problem.
  set (avail := avail_players_of players expected).
  rewrite (full_rebuild_when [] current_squad avail chip (or_intror Hchip)).
  rewrite (full_rebuild_when [] [] avail chip' (or_introl eq_refl)).
  reflexivity.
Qed.

(** The week of transfers played with the wildcard: the stored squad of
    fifteen does not enter. *)
Lemma unlimited_chips_witness :
  optimize_squad Transfers.solver Transfers.scored Transfers.expected
                 Transfers.current_squad 2 (Some wildcard)
  = optimize_squad Transfers.solver Transfers.scored Transfers.expected [] 1 None.
Proof.
  apply (unlimited_chips_ignore_the_stored_squad
           Transfers.solver Transfers.scored Transfers.expected
           Transfers.current_squad 2 1 (Some wildcard) None).
  reflexivity.
Defined.

(** ** Squads that cannot be built *)

Lemma chosen_length_le a mk (l : list player) :
  (length (chosen a mk l) <= length l)%nat.
Proof. apply filter_length_le. Qed.

Lemma transfers_solver_sound (P : LpProblem) : sound_on Transfers.solver P.
Proof.
  unfold sound_on, Transfers.solver, lp_feasible. simpl.
  destruct (lp_feasibleb P Transfers.answer); [reflexivity|discriminate].
Qed.

Lemma not_optimal_raises (solver : LpProblem -> LpSolution) (players : list player)
    (expected : gmap Z Q) (current_squad : list squad_entry)
    (free_transfers : Z) (chip : option chip_name) :
  let P := squad_problem players expected current_squad free_transfers chip in
  sound_on solver P -> (forall a, ~ lp_feasible P a) ->
  optimize_squad solver players expected current_squad free_transfers chip
  = Raise ValueError.
Proof.
  intros P Hsound Hnone. unfold optimize_squad. fold P.
  destruct (is_optimal (status (solver P))) eqn:Hs; [|reflexivity].
  elim (Hnone (varValue (solver P))). now apply Hsound.
Qed.

(** X11.  In full-rebuild mode, when the eligible players of some position
    are fewer than the squad needs of it (2 goalkeepers, 5 defenders,
    5 midfielders, 3 forwards), no squad is returned: with a solver whose
    [Optimal] answers are feasible the Squad Selector raises [ValueError]. *)
Theorem too_few_players_of_a_position
    (solver : LpProblem -> LpSolution) (players : list player)
    (expected : gmap Z Q) (current_squad : list squad_entry)
    (free_transfers : Z) (chip : option chip_name) (pos count : Z) :
  current_squad = [] \/ unlimited_chip chip = true ->
  sound_on solver (squad_problem players expected current_squad free_transfers chip) ->
  In (pos, count) pos_counts ->
  Z.of_nat (length (having element_type pos (avail_players_of players expected)))
  < count ->
  optimize_squad solver players expected current_squad free_transfers chip
  = Raise ValueError.
Proof.
  intros Hmode Hsound Hpos Hfew.
  apply not_optimal_raises; [exact Hsound|].
  intros a Hf. unfold squad_problem in Hf.
  set (avail := avail_players_of players expected) in *.
  rewrite (full_rebuild_when [] current_squad avail chip Hmode) in Hf.
  pose proof (rebuild_pos_constraint avail expected pos count Hpos) as Hc.
  assert (Hb : binary_on a Select (having element_type pos avail)).
  { intros p Hp. apply (Select_binary (pid p)).
    apply (feasible_domain _ _ _ Hf).
    eapply constraint_vars_problem; [exact Hc|].
    simpl. rewrite lp_vars_var_sum, app_nil_r. apply in_map_iff. eauto. }
  pose proof (holds_eq_const a _ count (feasible_holds _ _ _ Hf Hc) _
                (var_sum_count a Select _ Hb)) as Hcount.
  pose proof (chosen_length_le a Select (having element_type pos avail)).
  lia.
Qed.

(** With player 15 missing the sample gameweek has two eligible forwards. *)
Lemma too_few_players_witness :
  optimize_squad Sample.solver (firstn 14 Sample.scored) Sample.expected [] 1 None
  = Raise ValueError.
Proof.
  apply (too_few_players_of_a_position
           Sample.solver (firstn 14 Sample.scored) Sample.expected [] 1 None 4 3).
  - now left.
  - apply sample_solver_sound.
  - vm_compute. tauto.
  - vm_compute. reflexivity.
Defined.

(** X12.  Transfer mode needs fifteen held players: when the stored squad
    does not map to exactly fifteen eligible players (one of them is ruled
    out or has no fixture, say, so that the points model left him out), the
    transfer problem has no solution and the Squad Selector raises
    [ValueError], with any solver whose [Optimal] answers are feasible. *)
Theorem transfers_need_fifteen_held_players
    (solver : LpProblem -> LpSolution) (players : list player)
    (expected : gmap Z Q) (current_squad : list squad_entry)
    (free_transfers : Z) (chip : option chip_name) :
  let avail := avail_players_of players expected in
  let cur := current_squad_players_of avail current_squad in
  NoDup (map pid players) ->
  NoDup (squad_ids current_squad) ->
  transfer_mode cur chip = true ->
  length cur <> 15%nat ->
  sound_on solver (squad_problem players expected current_squad free_transfers chip) ->
  optimize_squad solver players expected current_squad free_transfers chip
  = Raise ValueError.
Proof.
  intros avail cur Hnd Hsq Hmode Hlen Hsound.
  apply not_optimal_raises; [exact Hsound|].
  intros a Hf. unfold squad_problem in Hf. fold avail cur in Hf.
  rewrite Hmode in Hf.
  assert (Hcur : NoDup (map pid cur)) by (apply current_squad_ids, Hsq).
  assert (Hoth : NoDup (map pid (not_held cur avail))).
  { unfold not_held, avail, avail_players_of. now do 2 apply NoDup_map_filter. }
  pose proof (transfer_size avail cur expected free_transfers a Hcur Hoth Hf) as H1.
  pose proof (transfer_sold_bought avail cur expected free_transfers a Hcur Hoth Hf)
    as H2.
  pose proof (released_kept_length a cur) as H3.
  rewrite length_app in H1. lia.
Qed.

(** The week of transfers with player 15 of the stored squad replaced by
    player 16, who is ruled out: fourteen players are held. *)
Lemma transfers_need_fifteen_witness :
  optimize_squad Transfers.solver Transfers.scored Transfers.expected
    (map SquadDict [1; 2; 3; 4; 5; 6; 7; 8; 9; 10; 11; 12; 13; 14; 16]) 2 None
  = Raise ValueError.
Proof.
  apply (transfers_need_fifteen_held_players
           Transfers.solver Transfers.scored Transfers.expected
           (map SquadDict [1; 2; 3; 4; 5; 6; 7; 8; 9; 10; 11; 12; 13; 14; 16]) 2 None).
  - apply transfers_ids_distinct.
  - apply NoDup_by_computation. vm_compute. reflexivity.
  - vm_compute. reflexivity.
  - vm_compute. discriminate.
  - apply transfers_solver_sound.
Defined.

(** ** Making no transfer *)

Lemma keep_all_keeps (l : list player) : chosen keep_all Keep l = l.
Proof.
  unfold chosen. induction l as [|p l IH]; [reflexivity|].
  cbn [filter]. change (keep_all (Keep (pid p)) =? 1) with true. cbv iota.
  f_equal. exact IH.
Qed.

Lemma keep_all_buys (l : list player) : chosen keep_all Buy l = [].
Proof.
  unfold chosen. induction l as [|p l IH]; simpl; [reflexivity|exact IH].
Qed.

Lemma keep_all_releases (l : list player) : released keep_all l = [].
Proof.
  unfold released. induction l as [|p l IH]; simpl; [reflexivity|exact IH].
Qed.

Lemma keep_all_binary (l : list player) :
  binary_on keep_all Keep l /\ binary_on keep_all Buy l.
Proof. split; intros p _; [now right|now left]. Qed.

Section NoTransfer.

Variables (avail cur : list player) (expected : gmap Z Q) (free_transfers : Z).

Local Abbreviation others := (not_held cur avail).
Local Abbreviation P := (transfer_problem avail cur expected free_transfers).

Hypothesis cur_ids : NoDup (map pid cur).
Hypothesis others_ids : NoDup (map pid others).
Hypothesis free : 0 <= free_transfers.
Hypothesis size : length cur = 15%nat.
Hypothesis positions :
  forall pos count, In (pos, count) pos_counts -> counts pos cur = count.
Hypothesis clubs : forall c, 1 <= c <= 20 -> club_count c cur <= 3.

Lemma keep_all_feasible : lp_feasible P keep_all.
Proof.
  apply lp_feasible_intro.
  - intros v _. now destruct v.
  - assert (Hk : forall l, (lp_value keep_all (var_sum Keep l)
                            == inject_Z (Z.of_nat (length l)))%Q).
    { intros l. rewrite (var_sum_count keep_all Keep l)
        by apply (keep_all_binary l).
      now rewrite keep_all_keeps. }
    assert (Hb : forall l, (lp_value keep_all (var_sum Buy l) == 0)%Q).
    { intros l. rewrite (var_sum_count keep_all Buy l)
        by apply (keep_all_binary l).
      now rewrite keep_all_buys. }
    assert (Hs : (lp_value keep_all
                    (lpSum (map (fun p => LpSub (LpConst 1) (LpVar (Keep (pid p)))) cur))
                  == 0)%Q).
    { rewrite (sold_count keep_all cur) by apply (keep_all_binary cur).
      now rewrite keep_all_releases. }
    unfold transfer_problem. cbn [constraints].
    intros c [<-|[<-|[<-|[<-|Hc]]]].
    + cbn [holds lp_value]. apply Qle_bool_iff. rewrite Hs.
      change 0%Q with (inject_Z 0). rewrite <- inject_Z_plus, <- Zle_Qle.
      simpl. lia.
    + cbn [holds lp_value]. apply Qeq_bool_iff.
      rewrite (values_sum_nodup _ _ cur_ids), (values_sum_nodup _ _ others_ids).
      rewrite Hk, Hb, size. reflexivity.
    + cbn [holds]. apply Qeq_bool_iff.
      rewrite (values_sum_nodup _ _ others_ids), Hs, Hb. reflexivity.
    + cbn [holds]. apply Qle_bool_iff.
      rewrite (weighted_sum_chosen keep_all Buy price others)
        by apply (keep_all_binary others).
      rewrite (sold_value_released keep_all cur) by apply (keep_all_binary cur).
      rewrite keep_all_buys, keep_all_releases.
      apply Qle_refl.
    + apply in_app_or in Hc as [Hc|Hc].
      * apply in_map_iff in Hc as ([pos count] & <- & Hin).
        cbn [holds lp_value]. apply Qeq_bool_iff.
        rewrite Hk, Hb, Qplus_0_r.
        fold (counts pos cur). now rewrite (positions pos count Hin).
      * apply in_map_iff in Hc as (c' & <- & Hin).
        cbn [holds lp_value]. apply Qle_bool_iff.
        rewrite Hk, Hb, Qplus_0_r.
        fold (club_count c' cur).
        change 3%Q with (inject_Z 3). rewrite <- Zle_Qle.
        apply clubs. now apply team_ids_spec.
Qed.

Lemma keep_all_objective :
  (lp_value keep_all (objective P) == Qsum (map (points_of expected) cur))%Q.
Proof.
  rewrite (transfer_objective avail cur expected free_transfers keep_all
             cur_ids others_ids keep_all_feasible).
  rewrite keep_all_keeps, keep_all_buys.
  rewrite app_nil_r. cbn [keep_all]. change (inject_Z 0) with 0%Q. lra.
Qed.

End NoTransfer.

(** X13.  Transfers never cost more than they bring: in transfer mode with
    a stored squad that is itself a valid squad (fifteen eligible players,
    2-5-5-3, at most three from each of the clubs 1 to 20) and a free
    transfer count that is not negative, the points of the squad returned,
    less 4 for every transfer beyond the free ones, are at least the points
    of the stored squad. *)
Theorem transfers_never_fall_below_the_stored_squad
    (solver : LpProblem -> LpSolution) (players : list player)
    (expected : gmap Z Q) (current_squad : list squad_entry)
    (free_transfers : Z) (chip : option chip_name)
    (selected : list player) (total_cost squad_expected : Q) :
  let avail := avail_players_of players expected in
  let cur := current_squad_players_of avail current_squad in
  let P := squad_problem players expected current_squad free_transfers chip in
  let sold := released (varValue (solver P)) cur in
  NoDup (map pid players) ->
  NoDup (squad_ids current_squad) ->
  transfer_mode cur chip = true ->
  0 <= free_transfers ->
  length cur = 15%nat ->
  (forall pos count, In (pos, count) pos_counts -> counts pos cur = count) ->
  (forall c, 1 <= c <= 20 -> club_count c cur <= 3) ->
  optimal_on solver P ->
  optimize_squad solver players expected current_squad free_transfers chip
  = Ok (selected, total_cost, squad_expected) ->
  (Qsum (map (points_of expected) cur)
   <= Qsum (map (points_of expected) selected)
      - 4 * inject_Z (extra_needed free_transfers (length sold)))%Q.
Proof.
  intros avail cur P sold Hnd Hsq Hmode Hfree Hsize Hpos Hclubs Hopt Hrun.
  unfold optimize_squad in Hrun. fold avail cur P in Hrun.
  rewrite Hmode in Hrun.
  destruct (is_optimal (status (solver P))) eqn:Hs; [|discriminate Hrun].
  simpl negb in Hrun. cbv iota in Hrun.
  apply bind_Ok in Hrun as (points & _ & Hrun).
  injection Hrun as <- _ _.
  specialize (Hopt Hs).
  assert (HP : P = transfer_problem avail cur expected free_transfers).
  { unfold P, squad_problem. fold avail cur. now rewrite Hmode. }
  unfold sold. rewrite HP in *.
  assert (Hcur : NoDup (map pid cur)) by (apply current_squad_ids, Hsq).
  assert (Hoth : NoDup (map pid (not_held cur avail))).
  { unfold not_held, avail, avail_players_of. now do 2 apply NoDup_map_filter. }
  set (value := varValue (solver (transfer_problem avail cur expected free_transfers)))
    in *.
  pose proof (transfer_extra_minimal avail cur expected free_transfers value
                Hcur Hoth Hopt) as Hextra.
  pose proof (transfer_objective avail cur expected free_transfers value
                Hcur Hoth (proj1 Hopt)) as Hobj.
  rewrite Hextra in Hobj. rewrite <- Hobj.
  rewrite <- (keep_all_objective avail cur expected free_transfers
                Hcur Hoth Hfree Hsize Hpos Hclubs).
  apply (proj2 Hopt).
  now apply keep_all_feasible.
Qed.

(** The week of transfers: the stored squad is worth 99.75 points, the new
    one 156 less 8 for two extra transfers. *)
Lemma transfers_baseline_witness :
  exists selected total_cost squad_expected,
    optimize_squad Transfers.solver Transfers.scored Transfers.expected
                   Transfers.current_squad 2 None
    = Ok (selected, total_cost, squad_expected)
    /\ (9975 # 100
        <= Qsum (map (points_of Transfers.expected) selected) - 8)%Q.
Proof.
  destruct (optimize_squad Transfers.solver Transfers.scored Transfers.expected
                           Transfers.current_squad 2 None)
    as [[[selected total_cost] squad_expected]|e] eqn:Hrun;
    [|vm_compute in Hrun; discriminate Hrun].
  exists selected, total_cost, squad_expected. split; [reflexivity|].
  pose proof (transfers_never_fall_below_the_stored_squad
                Transfers.solver Transfers.scored Transfers.expected
                Transfers.current_squad 2 None selected total_cost squad_expected
                transfers_ids_distinct transfers_squad_ids_distinct) as H.
  cbv zeta in H.
  assert (Hleft : (Qsum (map (points_of Transfers.expected)
                          (current_squad_players_of
                             (avail_players_of Transfers.scored Transfers.expected)
                             Transfers.current_squad)) == 9975 # 100)%Q)
    by (vm_compute; reflexivity).
  assert (Hsold : extra_needed 2
                    (length (released
                               (varValue (Transfers.solver
                                  (squad_problem Transfers.scored Transfers.expected
                                                 Transfers.current_squad 2 None)))
                               (current_squad_players_of
                                  (avail_players_of Transfers.scored Transfers.expected)
                                  Transfers.current_squad))) = 2)
    by (vm_compute; reflexivity).
  rewrite Hleft, Hsold in H.
  apply H.
  - vm_compute. reflexivity.
  - lia.
  - vm_compute. reflexivity.
  - intros pos count Hin. vm_compute in Hin.
    repeat (destruct Hin as [Hin|Hin];
            [injection Hin as <- <-; vm_compute; reflexivity|]).
    destruct Hin.
  - intros c Hc.
    assert (Hin : In c team_ids) by now apply team_ids_spec.
    vm_compute in Hin.
    repeat (destruct Hin as [<-|Hin]; [vm_compute; discriminate|]).
    destruct Hin.
  - apply transfers_answer_optimal.
  - exact Hrun.
Defined.

(** ** Totals of the lineup loop *)

Lemma player_eqb_refl (p : player) : player_eqb p p = true.
Proof.
  unfold player_eqb.
  rewrite !Z.eqb_refl, String.eqb_refl.
  assert (Hq : forall x : Q, Qeq_bool x x = true)
    by (intros x; apply Qeq_bool_iff; reflexivity).
  rewrite !Hq.
  destruct (chance_of_playing_next_round p), (expected_points p); simpl;
    rewrite ?Z.eqb_refl, ?Hq; reflexivity.
Qed.

Lemma player_eqb_pid (p q : player) : player_eqb p q = true -> pid p = pid q.
Proof.
  unfold player_eqb. intros H.
  repeat (apply andb_prop in H as [H _]). now apply Z.eqb_eq.
Qed.

(** [p in lineup] for a lineup read off the answer [value]. *)
Lemma player_in_chosen value mk (selected : list player) (p : player) :
  In p selected ->
  player_in p (chosen value mk selected) = (value (mk (pid p)) =? 1).
Proof.
  intros Hp. unfold player_in, chosen.
  destruct (value (mk (pid p)) =? 1) eqn:E.
  - apply existsb_exists. exists p. split; [|apply player_eqb_refl].
    apply filter_In. now split.
  - destruct (existsb _ _) eqn:Ex; [|reflexivity].
    apply existsb_exists in Ex as (q & Hq & Heq).
    apply filter_In in Hq as [_ Hq].
    rewrite <- (player_eqb_pid _ _ Heq) in Hq. congruence.
Qed.

Lemma Qsum_filter_split {A : Type} (w : A -> Q) (g : A -> bool) (l : list A) :
  (Qsum (map w (filter g l)) + Qsum (map w (filter (fun x => negb (g x)) l))
   == Qsum (map w l))%Q.
Proof.
  induction l as [|x l IH]; simpl; [reflexivity|].
  destruct (g x); simpl; rewrite <- IH; ring.
Qed.

Lemma py_max_map {A : Type} (key : A -> Q) (x : A) (l : list A) :
  py_max (fun v => v) (key x) (map key l) = key (py_max key x l).
Proof.
  revert x. induction l as [|y l IH]; intros x; simpl; [reflexivity|].
  destruct (Qle_bool (key y) (key x)); apply IH.
Qed.

(** X15.  With the bench boost the projected total of a formation is the
    expected points of the whole squad, in the lineup or not, plus twice
    the captain's, the captain being the first player of the lineup with
    the most expected points. *)
Theorem bench_boost_counts_the_whole_squad
    (value : LpVariable -> Z) (selected : list player) (t : Q) (captain : player) :
  projected_total selected (lineup_of value selected) (Some bench_boost) = Ok t ->
  max_by points_key (lineup_of value selected) = Ok captain ->
  (t == Qsum (map points_key selected) + 2 * points_key captain)%Q.
Proof.
  unfold projected_total, lineup_of. intros Ht Hcap.
  apply bind_Ok in Ht as (points & Hpoints & Ht).
  apply bind_Ok in Ht as (bench & Hbench & Ht).
  injection Ht as <-.
  apply map_result_points in Hpoints, Hbench. subst points bench.
  rewrite !py_sum_Qsum.
  rewrite (filter_ext_in
             (fun p => negb (player_in p (chosen value Select2 selected)))
             (fun p => negb (value (Select2 (pid p)) =? 1)) selected)
    by (intros p Hp; now rewrite (player_in_chosen value Select2 selected p Hp)).
  rewrite <- (Qsum_filter_split points_key
                (fun p => value (Select2 (pid p)) =? 1) selected).
  fold (chosen value Select2 selected).
  destruct (chosen value Select2 selected) as [|x l] eqn:E; [discriminate Hcap|].
  simpl in Hcap. injection Hcap as <-.
  destruct (sorted_desc_head_max (fun v : Q => v) (points_key x) (map points_key l))
    as (rest & Hhead).
  change (points_key x :: map points_key l) with (map points_key (x :: l)) in Hhead.
  rewrite Hhead, py_max_map. simpl captain_factor. ring.
Qed.

(** The sample squad under the bench boost: 99.75 for the fifteen and twice
    the 12 of player 8. *)
Lemma bench_boost_witness :
  exists t,
    projected_total Sample.squad
      (lineup_of (Sample.answer (Some (3, 5, 2))) Sample.squad) (Some bench_boost)
    = Ok t
    /\ (t == 12375 # 100)%Q.
Proof.
  destruct (projected_total Sample.squad
              (lineup_of (Sample.answer (Some (3, 5, 2))) Sample.squad)
              (Some bench_boost)) as [t|e] eqn:Ht; [|vm_compute in Ht; discriminate Ht].
  destruct (max_by points_key (lineup_of (Sample.answer (Some (3, 5, 2))) Sample.squad))
    as [captain|e] eqn:Hcap; [|vm_compute in Hcap; discriminate Hcap].
  exists t. split; [reflexivity|].
  rewrite (bench_boost_counts_the_whole_squad _ _ _ _ Ht Hcap).
  vm_compute in Hcap. injection Hcap as <-.
  vm_compute. reflexivity.
Defined.

(** X16.  The projected total that the Lineup Selector returns is never
    negative and is at least the projected total of every formation the
    solver could fill. *)
Theorem returned_total_dominates_every_formation
    (solver : LpProblem -> LpSolution) (selected : list player)
    (expected : gmap Z Q) (chip : option chip_name) (best : lineup_choice) :
  optimize_lineup solver selected expected chip = Ok best ->
  (0 <= best_proj best)%Q
  /\ forall f lineup t,
       In f formations ->
       solved_with solver selected expected chip f lineup t ->
       (t <= best_proj best)%Q.
Proof.
  intros Hrun. unfold optimize_lineup in Hrun.
  destruct (lineup_loop_cases solver selected expected chip formations no_choice best Hrun)
    as [[-> Hall]|(fs1 & f0 & fs2 & Hfs & Hpick & Hlt & H1 & H2)].
  - split; [apply Qle_refl|]. intros f lineup t Hf Hs. exact (Hall f Hf lineup t Hs).
  - split; [now apply Qlt_le_weak|].
    intros f lineup t Hf Hs. rewrite Hfs in Hf.
    apply in_app_or in Hf as [Hf|[<-|Hf]].
    + apply Qlt_le_weak. exact (H1 f Hf lineup t Hs).
    + destruct (picked_proj solver selected expected chip f0 best lineup t Hpick Hs)
        as (-> & _). apply Qle_refl.
    + exact (H2 f Hf lineup t Hs).
Qed.

(** On the sample gameweek formation 4-5-1 totals 105.75, below the 108
    that is returned. *)
Lemma returned_total_witness :
  exists best t,
    optimize_lineup Sample.solver Sample.squad Sample.expected None = Ok best
    /\ solved_with Sample.solver Sample.squad Sample.expected None (4, 5, 1)
         (lineup_of (Sample.answer (Some (4, 5, 1))) Sample.squad) t
    /\ (t == 10575 # 100)%Q
    /\ (t <= best_proj best)%Q.
Proof.
  destruct (optimize_lineup Sample.solver Sample.squad Sample.expected None)
    as [best|e] eqn:Hrun; [|vm_compute in Hrun; discriminate Hrun].
  destruct (projected_total Sample.squad
              (lineup_of (Sample.answer (Some (4, 5, 1))) Sample.squad) None)
    as [t|e] eqn:Ht; [|vm_compute in Ht; discriminate Ht].
  assert (Hs : solved_with Sample.solver Sample.squad Sample.expected None (4, 5, 1)
                 (lineup_of (Sample.answer (Some (4, 5, 1))) Sample.squad) t).
  { split; [vm_compute; reflexivity|]. split; [reflexivity|exact Ht]. }
  exists best, t. split; [reflexivity|]. split; [exact Hs|].
  split; [vm_compute in Ht; injection Ht as <-; reflexivity|].
  destruct (returned_total_dominates_every_formation _ _ _ _ _ Hrun) as [_ H].
  refine (H (4, 5, 1) _ t _ Hs).
  vm_compute. tauto.
Defined.

(** The sample squad under the bench boost. *)
Lemma lineup_returns_witness :
  exists best,
    optimize_lineup Sample.solver Sample.squad Sample.expected (Some bench_boost)
    = Ok best.
Proof.
  apply optimize_lineup_returns.
  - vm_compute. reflexivity.
  - let l := eval vm_compute in Sample.squad in change Sample.squad with l.
    repeat (constructor; [discriminate|]). constructor.
  - intros f _. apply sample_solver_sound.
Defined.

(** ** The bench *)

Lemma filter_complement_perm {A : Type} (g : A -> bool) (l : list A) :
  Permutation (filter g l ++ filter (fun x => negb (g x)) l) l.
Proof.
  induction l as [|x l IH]; simpl; [constructor|].
  destruct (g x); simpl.
  - now constructor.
  - apply Permutation_sym, Permutation_cons_app, Permutation_sym, IH.
Qed.

(** The lineup returned is what an answer picks from the squad, or empty. *)
Lemma best_lineup_is_a_choice (solver : LpProblem -> LpSolution)
    (selected : list player) (expected : gmap Z Q) (chip : option chip_name)
    (best : lineup_choice) :
  optimize_lineup solver selected expected chip = Ok best ->
  best_lineup best = []
  \/ exists value, best_lineup best = lineup_of value selected.
Proof.
  intros Hrun. unfold optimize_lineup in Hrun.
  destruct (lineup_loop_cases solver selected expected chip formations no_choice best Hrun)
    as [[-> _]|(fs1 & f0 & fs2 & _ & Hpick & _)].
  - now left.
  - right. destruct Hpick as (lineup & t & captain & (_ & Hl & _) & _ & ->).
    eexists. exact Hl.
Qed.

Lemma main_report (solver : LpProblem -> LpSolution) (args : arguments) (w : world)
    (rep : report) :
  printed (main solver args w) = Ok rep ->
  exists current_squad, optimize solver args current_squad w = Ok rep.
Proof.
  unfold main.
  destruct (match arg_squad args with
            | Some _ => (Ok [], [])
            | None => load_squad (squad_file w)
            end) as [[squad0|e] log1]; [|discriminate].
  destruct (match arg_squad args with
            | Some (FileJson content) => (content, [])
            | Some _ => ([], [LogLoadError])
            | None => (squad0, [])
            end) as [current_squad log2].
  destruct (optimize solver args current_squad w) as [rep'|e] eqn:E; [|discriminate].
  destruct (save_squad (r_selected rep') (writable w)).
  simpl. intros H. injection H as <-. eauto.
Qed.

(** X17.  In every report the lineup and the bench share out the squad:
    together they are the squad, no bench player is in the lineup, and the
    bench is in descending order of expected points. *)
Theorem bench_is_the_rest_of_the_squad
    (solver : LpProblem -> LpSolution) (args : arguments) (w : world) (rep : report) :
  printed (main solver args w) = Ok rep ->
  Permutation (best_lineup (r_lineup rep) ++ r_bench rep) (r_selected rep)
  /\ (forall p, In p (r_bench rep) -> player_in p (best_lineup (r_lineup rep)) = false)
  /\ descending points_key (r_bench rep).
Proof.
  intros Hrun. apply main_report in Hrun as (current_squad & Hrun).
  unfold optimize in Hrun.
  apply bind_Ok in Hrun as ([[[players teams] fixtures] next_gw] & _ & Hrun).
  apply bind_Ok in Hrun as (team_fixtures & _ & Hrun).
  apply bind_Ok in Hrun as ([expected players'] & _ & Hrun).
  apply bind_Ok in Hrun as ([[selected total_cost] squad_expected] & _ & Hrun).
  apply bind_Ok in Hrun as (best & Hbest & Hrun).
  injection Hrun as <-. cbn [r_lineup r_bench r_selected].
  set (rest := filter (fun p => negb (player_in p (best_lineup best))) selected).
  split; [|split].
  - transitivity (best_lineup best ++ rest).
    { apply Permutation_app_head, sorted_desc_perm. }
    destruct (best_lineup_is_a_choice _ _ _ _ _ Hbest) as [E|(value & E)].
    + unfold rest. rewrite E. cbn [app].
      replace (filter (fun p => negb (player_in p [])) selected) with selected;
        [reflexivity|].
      clear. induction selected as [|p l IH]; [reflexivity|].
      cbn [filter player_in existsb negb]. now f_equal.
    + unfold rest. rewrite E. unfold lineup_of.
      rewrite (filter_ext_in
                 (fun p => negb (player_in p (chosen value Select2 selected)))
                 (fun p => negb (value (Select2 (pid p)) =? 1)) selected)
        by (intros p Hp; now rewrite (player_in_chosen value Select2 selected p Hp)).
      apply (filter_complement_perm (fun p => value (Select2 (pid p)) =? 1)).
  - intros p Hp.
    apply (Permutation_in _ (sorted_desc_perm points_key rest)) in Hp.
    apply filter_In in Hp as [_ Hp]. now apply negb_true_iff in Hp.
  - apply sorted_desc_sorted.
Qed.

(** The sample gameweek: eleven start, the other four sit on the bench. *)
Lemma bench_witness :
  exists rep,
    printed (main Sample.solver plain_args (sample_world FileAbsent true)) = Ok rep
    /\ length (best_lineup (r_lineup rep)) = 11%nat
    /\ length (r_bench rep) = 4%nat
    /\ Permutation (best_lineup (r_lineup rep) ++ r_bench rep) (r_selected rep).
Proof.
  destruct (printed (main Sample.solver plain_args (sample_world FileAbsent true)))
    as [rep|e] eqn:Hrun; [|vm_compute in Hrun; discriminate Hrun].
  exists rep. split; [reflexivity|].
  pose proof (bench_is_the_rest_of_the_squad _ _ _ _ Hrun) as [Hperm _].
  vm_compute in Hrun. injection Hrun as <-.
  split; [reflexivity|]. split; [reflexivity|exact Hperm].
Defined.

(** ** The snapshot *)


(** ** The squad problem of the two scripts *)

Lemma problem_vars_spec (P : LpProblem) (v : LpVariable) :
  In v (problem_vars P)
  <-> In v (lp_vars (objective P))
      \/ exists c, In c (constraints P) /\ In v (constraint_vars c).
Proof.
  unfold problem_vars. rewrite in_app_iff, in_flat_map. reflexivity.
Qed.

Lemma lp_feasible_same (P P' : LpProblem) a :
  objective P = objective P' ->
  (forall c, In c (constraints P') -> In c (constraints P)) ->
  lp_feasible P a -> lp_feasible P' a.
Proof.
  intros Hobj Hcs Hf. apply lp_feasible_intro.
  - intros v Hv. apply (feasible_domain _ _ _ Hf).
    apply problem_vars_spec. apply problem_vars_spec in Hv as [Hv|(c & Hc & Hv)].
    + left. now rewrite Hobj.
    + right. exists c. split; [now apply Hcs|exact Hv].
  - intros c Hc. apply (feasible_holds _ _ _ Hf). now apply Hcs.
Qed.

Lemma lp_optimal_same (P P' : LpProblem) a :
  objective P = objective P' ->
  (forall c, In c (constraints P') <-> In c (constraints P)) ->
  lp_optimal P a -> lp_optimal P' a.
Proof.
  intros Hobj Hcs [Hf Hmax]. split.
  - apply (lp_feasible_same P P'); [exact Hobj|apply Hcs|exact Hf].
  - intros a' Hf'. rewrite <- Hobj. apply Hmax.
    apply (lp_feasible_same P' P); [now symmetry|apply Hcs|exact Hf'].
Qed.

(** X19.  On a feed with distinct ids the squad problem that [test3.py]
    poses in full-rebuild mode is the problem of [main.py]: the same
    objective and the same constraints in another order, hence the same
    feasible and the same optimal answers. *)
Theorem both_scripts_pose_the_same_squad_problem
    (avail : list player) (expected : gmap Z Q) :
  NoDup (map pid avail) ->
  forall a,
    (lp_feasible (main_squad_problem avail expected) a
     <-> lp_feasible (rebuild_problem avail expected) a)
    /\ (lp_optimal (main_squad_problem avail expected) a
        <-> lp_optimal (rebuild_problem avail expected) a).
Proof.
  intros Hnd a.
  assert (Hcs : forall c, In c (constraints (rebuild_problem avail expected))
                          <-> In c (constraints (main_squad_problem avail expected))).
  { intros c. unfold rebuild_problem, main_squad_problem. cbn [constraints].
    rewrite (values_sum_nodup Select avail Hnd).
    split; apply Permutation_in, perm_swap. }
  split; split.
  - apply lp_feasible_same; [reflexivity|apply Hcs].
  - apply lp_feasible_same; [reflexivity|apply Hcs].
  - apply lp_optimal_same; [reflexivity|exact Hcs].
  - apply lp_optimal_same; [reflexivity|]. intros c. symmetry. apply Hcs.
Qed.

(** The fifteen eligible players of the sample gameweek answer both
    problems. *)
Lemma same_squad_problem_witness :
  lp_feasible (main_squad_problem (avail_players_of Sample.scored Sample.expected)
                                  Sample.expected)
              (Sample.answer None).
Proof.
  apply (proj2 (proj1 (both_scripts_pose_the_same_squad_problem
                         (avail_players_of Sample.scored Sample.expected)
                         Sample.expected
                         (NoDup_map_filter pid _ _ sample_ids_distinct)
                         (Sample.answer None)))).
  vm_compute. reflexivity.
Defined.

(** ** Formations and the squad *)

Lemma pid_injective (l : list player) (x y : player) :
  NoDup (map pid l) -> In x l -> In y l -> pid x = pid y -> x = y.
Proof.
  induction l as [|z l IH]; intros Hnd Hx Hy E; [destruct Hx|].
  simpl in Hnd. apply NoDup_cons_iff in Hnd as [Hz Hnd].
  destruct Hx as [->|Hx], Hy as [->|Hy]; auto.
  - elim Hz. rewrite E. now apply in_map.
  - elim Hz. rewrite <- E. now apply in_map.
Qed.

Lemma filter_firstn {A : Type} (g : A -> bool) (n : nat) (l : list A) :
  NoDup l ->
  (forall x, In x l -> (g x = true <-> In x (firstn n l))) ->
  filter g l = firstn n l.
Proof.
  revert n. induction l as [|x l IH]; intros n Hnd Hg.
  - now destruct n.
  - apply NoDup_cons_iff in Hnd as [Hx Hnd]. destruct n as [|n]; simpl.
    + destruct (g x) eqn:E.
      * apply (Hg x (or_introl eq_refl)) in E. destruct E.
      * rewrite <- (firstn_O l). apply IH; [exact Hnd|].
        intros y Hy. rewrite firstn_O. split; [|intros []].
        intros E'. apply (Hg y (or_intror Hy)) in E'. destruct E'.
    + rewrite (proj2 (Hg x (or_introl eq_refl))) by now left.
      f_equal. apply IH; [exact Hnd|].
      intros y Hy. rewrite (Hg y (or_intror Hy)). simpl. split.
      * intros [->|H]; [contradiction|exact H].
      * now right.
Qed.

Lemma firstn_incl_list {A : Type} (n : nat) (l : list A) : incl (firstn n l) l.
Proof. intros x Hx. now apply (firstn_incl n). Qed.

Lemma length_by_position (l : list player) :
  (forall p, In p l -> 1 <= element_type p <= 4) ->
  length l
  = (length (having element_type 1 l) + length (having element_type 2 l)
     + length (having element_type 3 l) + length (having element_type 4 l))%nat.
Proof.
  unfold having. induction l as [|p l IH]; intros Hpos; [reflexivity|].
  pose proof (Hpos p (or_introl eq_refl)) as Hp.
  pose proof (IH (fun q Hq => Hpos q (or_intror Hq))) as IHl.
  cbn [filter length].
  assert (E : element_type p = 1 \/ element_type p = 2
              \/ element_type p = 3 \/ element_type p = 4) by lia.
  destruct E as [E|[E|[E|E]]]; rewrite E; simpl; lia.
Qed.

Section Fielding.

Variables (selected : list player) (expected : gmap Z Q) (d m f : Z).

Hypothesis ids : NoDup (map pid selected).
Hypothesis keeper : 1 <= counts 1 selected.
Hypothesis defenders : 0 <= d <= counts 2 selected.
Hypothesis midfielders : 0 <= m <= counts 3 selected.
Hypothesis forwards : 0 <= f <= counts 4 selected.
Hypothesis ten : d + m + f = 10.

Local Abbreviation a := (fielding selected (d, m, f)).

Local Abbreviation quota := (quota_of (d, m, f)).

Lemma fielded_spec (p : player) :
  In p (fielded selected (d, m, f))
  <-> In p (firstn (quota (element_type p)) (having element_type (element_type p) selected)).
Proof.
  assert (Hty : forall n k q, In q (firstn n (having element_type k selected)) ->
                              element_type q = k).
  { intros n k q Hq. apply firstn_incl, filter_In in Hq as [_ Hq].
    now apply Z.eqb_eq. }
  unfold fielded, quota_of. rewrite !in_app_iff. split.
  - intros [H|[H|[H|H]]]; rewrite (Hty _ _ _ H); exact H.
  - destruct (Z.eqb_spec (element_type p) 1) as [-> |H1]; [now left|].
    destruct (Z.eqb_spec (element_type p) 2) as [-> |H2]; [right; now left|].
    destruct (Z.eqb_spec (element_type p) 3) as [-> |H3]; [do 2 right; now left|].
    destruct (Z.eqb_spec (element_type p) 4) as [-> |H4]; [now do 3 right|].
    rewrite firstn_O. intros [].
Qed.

Lemma fielded_incl : incl (fielded selected (d, m, f)) selected.
Proof.
  intros p Hp. apply fielded_spec in Hp.
  apply firstn_incl, filter_In in Hp. tauto.
Qed.

Lemma fielding_spec (p : player) :
  In p selected -> (a (Select2 (pid p)) =? 1) = true <-> In p (fielded selected (d, m, f)).
Proof.
  intros Hp. unfold fielding.
  destruct (existsb _ _) eqn:E; simpl.
  - split; [intros _|reflexivity].
    apply existsb_exists in E as (i & Hi & Heq). apply Z.eqb_eq in Heq. subst i.
    apply in_map_iff in Hi as (q & Hq & Hin).
    now rewrite <- (pid_injective selected q p ids (fielded_incl q Hin) Hp Hq).
  - split; [discriminate|]. intros Hin.
    assert (Hex : existsb (Z.eqb (pid p)) (map pid (fielded selected (d, m, f))) = true).
    { apply existsb_exists. exists (pid p). split; [now apply in_map|apply Z.eqb_refl]. }
    congruence.
Qed.

Lemma fielding_group (k : Z) :
  chosen a Select2 (having element_type k selected)
  = firstn (quota k) (having element_type k selected).
Proof.
  unfold chosen. apply filter_firstn.
  - apply NoDup_filter. now apply (NoDup_map_inv pid).
  - intros p Hp. pose proof Hp as Hp'. apply filter_In in Hp' as [Hsel Hk].
    apply Z.eqb_eq in Hk. rewrite (fielding_spec p Hsel), fielded_spec, Hk.
    reflexivity.
Qed.

Lemma fielding_count (k : Z) :
  (quota k <= length (having element_type k selected))%nat ->
  length (chosen a Select2 (having element_type k selected)) = quota k.
Proof. intros H. rewrite fielding_group. now apply firstn_length_le. Qed.

Lemma fielding_binary (l : list player) : binary_on a Select2 l.
Proof.
  intros p _. unfold fielding. destruct (existsb _ _); [now right|now left].
Qed.

Lemma fielding_feasible : lp_feasible (lineup_problem selected expected (d, m, f)) a.
Proof.
  unfold counts in *.
  assert (H1 : length (chosen a Select2 (having element_type 1 selected)) = 1%nat)
    by (apply fielding_count; unfold quota_of; simpl; lia).
  assert (H2 : length (chosen a Select2 (having element_type 2 selected)) = Z.to_nat d)
    by (apply fielding_count; unfold quota_of; simpl; lia).
  assert (H3 : length (chosen a Select2 (having element_type 3 selected)) = Z.to_nat m)
    by (apply fielding_count; unfold quota_of; simpl; lia).
  assert (H4 : length (chosen a Select2 (having element_type 4 selected)) = Z.to_nat f)
    by (apply fielding_count; unfold quota_of; simpl; lia).
  assert (H11 : length (chosen a Select2 selected) = 11%nat).
  { rewrite length_by_position.
    - rewrite <- !chosen_having, H1, H2, H3, H4. lia.
    - intros p Hp. apply filter_In in Hp as [Hsel Hp].
      apply (fielding_spec p Hsel), fielded_spec in Hp.
      unfold quota_of in Hp.
      destruct (Z.eqb_spec (element_type p) 1); [lia|].
      destruct (Z.eqb_spec (element_type p) 2); [lia|].
      destruct (Z.eqb_spec (element_type p) 3); [lia|].
      destruct (Z.eqb_spec (element_type p) 4); [lia|].
      rewrite firstn_O in Hp. destruct Hp. }
  apply lp_feasible_intro.
  - intros v _. unfold fielding. destruct v; try reflexivity.
    now destruct (existsb _ _).
  - unfold lineup_problem. cbn [constraints].
    intros c Hc.
    assert (Hval : forall l (n : nat) (k : Z),
               length (chosen a Select2 l) = n -> Z.of_nat n = k ->
               holds a (LpEq (var_sum Select2 l) (LpConst (inject_Z k))) = true).
    { intros l n k Hl Hk. cbn [holds lp_value]. apply Qeq_bool_iff.
      rewrite (var_sum_count a Select2 l (fielding_binary l)), Hl, Hk. reflexivity. }
    destruct Hc as [<-|[<-|[<-|[<-|[<-|[]]]]]].
    + apply (Hval selected 11%nat 11 H11). reflexivity.
    + apply (Hval _ 1%nat 1 H1). reflexivity.
    + apply (Hval _ _ d H2). lia.
    + apply (Hval _ _ m H3). lia.
    + apply (Hval _ _ f H4). lia.
Qed.

End Fielding.

(** X20.  A squad with distinct ids that has a goalkeeper, five defenders,
    five midfielders and three forwards can field every formation of the
    list: each lineup problem has a solution, for instance the first
    players of every position in squad order. *)
Theorem every_formation_can_be_fielded
    (selected : list player) (expected : gmap Z Q) (formation : Z * Z * Z) :
  NoDup (map pid selected) ->
  1 <= counts 1 selected -> 5 <= counts 2 selected ->
  5 <= counts 3 selected -> 3 <= counts 4 selected ->
  In formation formations ->
  lp_feasible (lineup_problem selected expected formation)
              (fielding selected formation).
Proof.
  intros Hnd H1 H2 H3 H4 Hf.
  destruct formation as [[d m] f].
  apply fielding_feasible; try assumption;
    repeat (destruct Hf as [Hf|Hf]; [injection Hf as <- <- <-; lia|]);
    destruct Hf.
Qed.

(** The sample squad in formation 5-3-2. *)
Lemma formation_fielded_witness :
  lp_feasible (lineup_problem Sample.squad Sample.expected (5, 3, 2))
              (fielding Sample.squad (5, 3, 2))
  /\ map pid (lineup_of (fielding Sample.squad (5, 3, 2)) Sample.squad)
     = [1; 3; 4; 5; 6; 7; 8; 9; 10; 13; 14].
Proof.
  split; [|vm_compute; reflexivity].
  apply (every_formation_can_be_fielded Sample.squad Sample.expected (5, 3, 2)).
  - apply sample_squad_ids_distinct.
  - vm_compute. discriminate.
  - vm_compute. discriminate.
  - vm_compute. discriminate.
  - vm_compute. discriminate.
  - vm_compute. tauto.
Defined.

(** X21.  A squad without a goalkeeper, or with fewer than eleven players,
    fields no formation: with a solver whose [Optimal] answers are feasible
    the Lineup Selector returns the empty choice. *)
Theorem no_lineup_without_goalkeeper_or_eleven
    (solver : LpProblem -> LpSolution) (selected : list player)
    (expected : gmap Z Q) (chip : option chip_name) :
  forallb (has_points expected) selected = true ->
  (forall f, In f formations -> sound_on solver (lineup_problem selected expected f)) ->
  having element_type 1 selected = [] \/ (length selected < 11)%nat ->
  optimize_lineup solver selected expected chip = Ok no_choice.
Proof.
  intros Hpts Hsound Hshort. unfold optimize_lineup.
  apply for_each_fixed. intros f Hf.
  unfold lineup_step. rewrite Hpts. simpl negb. cbv iota.
  destruct (is_optimal (status (solver (lineup_problem selected expected f)))) eqn:Hs;
    [|reflexivity].
  exfalso. destruct f as [[d m] fw].
  destruct (lineup_feasible_counts selected expected d m fw _ (Hsound _ Hf Hs))
    as (Hlen & Hgk & _).
  unfold lineup_of, counts in *.
  set (value := varValue (solver (lineup_problem selected expected (d, m, fw)))) in *.
  destruct Hshort as [Hno|Hfew].
  - rewrite <- chosen_having, Hno in Hgk. simpl in Hgk. lia.
  - pose proof (filter_length_le (fun p => value (Select2 (pid p)) =? 1) selected) as Hle.
    unfold chosen in Hlen. lia.
Qed.

(** The sample squad with its two goalkeepers taken away. *)
Lemma no_lineup_witness :
  optimize_lineup Sample.solver (skipn 2 Sample.squad) Sample.expected None
  = Ok no_choice.
Proof.
  apply no_lineup_without_goalkeeper_or_eleven.
  - vm_compute. reflexivity.
  - intros f _. apply sample_solver_sound.
  - left. vm_compute. reflexivity.
Defined.

(** ** The points model of the two scripts *)

Section TwoScripts.

Variables (teams : list club) (team_fixtures : gmap Z (list team_fixture)).

Hypothesis club_ids : NoDup (map club_id teams).
Hypothesis within : fixtures_within (map club_id teams) team_fixtures.

Local Abbreviation avg := (average_strength teams).

Lemma find_listed_club (i : Z) :
  In i (map club_id teams) ->
  exists t, find (fun t => club_id t =? i) teams = Some t
            /\ strength_dict teams !! i = Some (strength t).
Proof.
  intros Hi.
  destruct (find (fun t => club_id t =? i) teams) as [t|] eqn:E.
  - exists t. split; [reflexivity|].
    pose proof (find_some _ _ E) as [Hin Hid]. apply Z.eqb_eq in Hid. subst i.
    exact (proj1 (strength_dict_lookup teams t club_ids Hin)).
  - apply in_map_iff in Hi as (t & Ht & Hin).
    pose proof (find_none _ _ E t Hin) as H. cbv beta in H.
    rewrite Ht, Z.eqb_refl in H. discriminate H.
Qed.

Lemma fixture_loops_agree (base base' ict_boost : Q) (fixes : list team_fixture) :
  (base == base')%Q ->
  (forall fx, In fx fixes -> In (opp_id fx) (map club_id teams)) ->
  forall exp exp', (exp == exp')%Q ->
    same_sum
      (script_for_each (main_fixture_points teams avg base ict_boost) fixes exp)
      (for_each (fixture_points avg (strength_dict teams) base' ict_boost) fixes exp').
Proof.
  intros Hbase. induction fixes as [|fx fixes IH]; intros Hopp exp exp' Hexp.
  - exact Hexp.
  - cbn [script_for_each for_each].
    destruct (find_listed_club (opp_id fx) (Hopp fx (or_introl eq_refl)))
      as (t & Hfind & Hdict).
    unfold main_fixture_points at 1, fixture_points at 1. rewrite Hfind, Hdict.
    destruct (Z.eqb_spec (strength t) 0) as [E0|Hne].
    + rewrite E0. reflexivity.
    + assert (Hq : Qeq_bool (inject_Z (strength t)) 0 = false).
      { destruct (Qeq_bool _ 0) eqn:E; [|reflexivity].
        apply Qeq_bool_iff in E. change 0%Q with (inject_Z 0) in E.
        now apply (proj1 (inject_Z_injective _ _)) in E. }
      rewrite Hq. cbn [script_bind bind].
      apply IH; [intros fx' H; apply Hopp; now right|].
      now rewrite Hexp, Hbase.
Qed.

Lemma steps_agree (st : gmap Z Q * list player) (p : player) :
  is_Some (team_fixtures !! team p) ->
  main_points_step teams avg team_fixtures st p
  = as_script (expected_points_step avg (strength_dict teams) team_fixtures st p).
Proof.
  intros [fixes Efix]. destruct st as [expected visited].
  unfold main_points_step, expected_points_step. rewrite Efix.
  change (default [] (Some fixes)) with fixes.
  assert (Hopp : forall fx, In fx fixes -> In (opp_id fx) (map club_id teams))
    by (intros fx; apply (proj2 (within _ _ Efix))).
  destruct fixes as [|fx fixes]; [reflexivity|].
  destruct (match chance_of_playing_next_round p with
            | Some c => c =? 0
            | None => false
            end); [reflexivity|].
  pose proof (fixture_loops_agree
                (points_per_game p * (4 # 10) + form p * (6 # 10))%Q
                (form p * (6 # 10) + points_per_game p * (4 # 10))%Q
                (ict_index p / 100 * (2 # 10))%Q (fx :: fixes)
                ltac:(ring) Hopp 0%Q 0%Q ltac:(reflexivity)) as Hloop.
  destruct (script_for_each _ (fx :: fixes) 0%Q) as [e|x|];
    destruct (for_each _ (fx :: fixes) 0%Q) as [e'|x']; simpl in Hloop;
    try contradiction.
  - cbn [script_bind bind as_script].
    assert (Hv : round2 (e * (match chance_of_playing_next_round p with
                              | Some c => inject_Z c
                              | None => 100
                              end / 100))
                 = round2 (e' * chance_factor_of (chance_of_playing_next_round p))).
    { apply round2_compat. rewrite Hloop. unfold chance_factor_of.
      destruct (chance_of_playing_next_round p); [reflexivity|].
      assert (E100 : (100 / 100 == 1)%Q) by reflexivity.
      now rewrite E100. }
    now rewrite Hv.
  - subst x'. reflexivity.
Qed.

Lemma loops_agree (players : list player) :
  (forall p, In p players -> is_Some (team_fixtures !! team p)) ->
  forall st,
    script_for_each (main_points_step teams avg team_fixtures) players st
    = as_script (for_each (expected_points_step avg (strength_dict teams) team_fixtures)
                          players st).
Proof.
  induction players as [|p players IH]; intros Hkeys st; [reflexivity|].
  cbn [script_for_each for_each].
  rewrite (steps_agree st p (Hkeys p (or_introl eq_refl))).
  destruct (expected_points_step _ _ _ st p) as [st'|e]; [|reflexivity].
  cbn [as_script script_bind bind].
  apply IH. intros q Hq. apply Hkeys. now right.
Qed.

End TwoScripts.



(** X23.  Where the two scripts part: a player whose club has no entry in
    the fixture dictionary stops [main.py], which then prints no team at
    all, whereas [test3.py] passes over that player as over one without a
    fixture. *)
Theorem main_script_stops_on_unlisted_club
    (players : list player) (teams : list club)
    (team_fixtures : gmap Z (list team_fixture)) (p : player) :
  In p players -> team_fixtures !! team p = None ->
  (forall r, main_expected_points players teams team_fixtures <> Value r)
  /\ player_points (average_strength teams) (strength_dict teams) team_fixtures p
     = Ok None.
Proof.
  intros Hp Hnone. split.
  - unfold main_expected_points. destruct teams as [|t teams']; [discriminate|].
    generalize (∅ : gmap Z Q, [] : list player).
    induction players as [|q players IH]; [destruct Hp|]. intros st r.
    cbn [script_for_each].
    destruct Hp as [->|Hp].
    + destruct st as [expected visited].
      unfold main_points_step at 1. rewrite Hnone. discriminate.
    + destruct (main_points_step _ _ _ st q) as [st'| |]; try discriminate.
      cbn [script_bind]. now apply IH.
  - unfold player_points. now rewrite Hnone.
Qed.

(** A player of a club 9 that the sample gameweek does not list. *)
Lemma main_script_stops_witness :
  main_expected_points [Sample.raw 30 "Guest" 3 9 50 (Some 100) 5 5]
                       Sample.teams Sample.team_fixtures
  = Exception KeyError
  /\ exists expected players',
       calculate_expected_points [Sample.raw 30 "Guest" 3 9 50 (Some 100) 5 5]
                                 Sample.teams Sample.team_fixtures
       = Ok (expected, players')
       /\ expected !! 30 = None.
Proof.
  destruct (main_script_stops_on_unlisted_club
              [Sample.raw 30 "Guest" 3 9 50 (Some 100) 5 5]
              Sample.teams Sample.team_fixtures
              (Sample.raw 30 "Guest" 3 9 50 (Some 100) 5 5)) as [Hstop _].
  - now left.
  - vm_compute. reflexivity.
  - split; [vm_compute; reflexivity|].
    do 2 eexists. split; vm_compute; reflexivity.
Defined.
